(** * Security audit of compose manifests: a shallow embedding

    This development embeds [scripts/security_audit.py] (class
    [SecurityAuditor] and [main]) and proves properties of the rule checks,
    of the per-file error boundary and of the exit-status gate.

    Modelling conventions.
    - A parsed YAML document is a [pyval]: null, booleans, integers, strings,
      sequences and mappings.  Mappings are association lists in insertion
      order, as Python dictionaries are.  Floats, timestamps and binary
      scalars are outside the model.
    - Python strings are modelled as [string] (sequences of 8-bit
      characters); [lower] is the ASCII case mapping.
    - [self.findings] is the state of a small state-and-exception monad [M];
      a raised exception keeps the findings appended so far, exactly as the
      shared list does.
    - Console output and the JSON dump are I/O outside the model: [main] is
      modelled from the files found to the argument of [sys.exit]. *)

From Stdlib Require Import List String Ascii ZArith Lia Bool Arith.
From Stdlib Require Import DecimalString Permutation Sorted.
Import ListNotations.
Open Scope string_scope.

Set Implicit Arguments.

(** ** Python string operations *)

Module PyString.

Definition is_upper (c : ascii) : bool :=
  (65 <=? nat_of_ascii c)%nat && (nat_of_ascii c <=? 90)%nat.

Definition lower_ascii (c : ascii) : ascii :=
  if is_upper c then ascii_of_nat (nat_of_ascii c + 32) else c.

(** [s.lower()] *)
Fixpoint lower (s : string) : string :=
  match s with
  | EmptyString => EmptyString
  | String c s' => String (lower_ascii c) (lower s')
  end.

(** [s.startswith(p)] *)
Fixpoint startswith (p s : string) : bool :=
  match p, s with
  | EmptyString, _ => true
  | String _ _, EmptyString => false
  | String a p', String b s' => Ascii.eqb a b && startswith p' s'
  end.

(** [p in s] for two strings *)
Fixpoint contains (p s : string) : bool :=
  startswith p s ||
  match s with
  | EmptyString => false
  | String _ s' => contains p s'
  end.

(** [s.endswith(p)] *)
Fixpoint endswith (p s : string) : bool :=
  String.eqb p s ||
  match s with
  | EmptyString => false
  | String _ s' => endswith p s'
  end.

(** [s.split(sep)] for a one-character separator; never empty. *)
Fixpoint split (sep : ascii) (s : string) : list string :=
  match s with
  | EmptyString => [EmptyString]
  | String c s' =>
      if Ascii.eqb c sep then EmptyString :: split sep s'
      else match split sep s' with
           | [] => [String c EmptyString]
           | w :: ws => String c w :: ws
           end
  end.

(** [s.split(sep, 1)]: at most one cut, at the first separator. *)
Fixpoint split1 (sep : ascii) (s : string) : list string :=
  match s with
  | EmptyString => [EmptyString]
  | String c s' =>
      if Ascii.eqb c sep then [EmptyString; s']
      else match split1 sep s' with
           | [] => [String c EmptyString]
           | w :: ws => String c w :: ws
           end
  end.

(** [s.count(sep)] for a one-character [sep] *)
Fixpoint count (sep : ascii) (s : string) : nat :=
  match s with
  | EmptyString => 0
  | String c s' => (if Ascii.eqb c sep then 1 else 0) + count sep s'
  end.

(** [l[0]] and [l[-1]] on the result of a split *)
Definition first (l : list string) : string := hd EmptyString l.
Definition final (l : list string) : string := last l EmptyString.

(** [x in [s1, ..., sn]] for a string [x] *)
Definition mem (x : string) (l : list string) : bool :=
  existsb (String.eqb x) l.

(** [sep.join(l)] *)
Fixpoint join (sep : string) (l : list string) : string :=
  match l with
  | [] => EmptyString
  | [x] => x
  | x :: l' => x ++ sep ++ join sep l'
  end.

(** Propositional reading of the three tests. *)
Definition Substring (p s : string) : Prop := exists a b, s = a ++ p ++ b.
Definition Prefix (p s : string) : Prop := exists b, s = p ++ b.
Definition Suffix (p s : string) : Prop := exists a, s = a ++ p.

End PyString.
Import PyString.

(** ** Parsed YAML values *)

#[warning="-register-all"]
Inductive pyval : Type :=
| PNone
| PBool (b : bool)
| PInt (z : Z)
| PStr (s : string)
| PList (l : list pyval)
| PDict (d : list (pyval * pyval)).

Inductive exn : Type :=
| AttributeError (msg : string)
| TypeError (msg : string)
| ValueError (msg : string)
| OtherError (msg : string).

(** [str(e)] *)
Definition exn_str (e : exn) : string :=
  match e with
  | AttributeError m | TypeError m | ValueError m | OtherError m => m
  end.

Inductive result (A : Type) : Type :=
| Ok (a : A)
| Raise (e : exn).
Arguments Ok {A} a.
Arguments Raise {A} e.

Module PyVal.

Definition type_name (v : pyval) : string :=
  match v with
  | PNone => "NoneType"
  | PBool _ => "bool"
  | PInt _ => "int"
  | PStr _ => "str"
  | PList _ => "list"
  | PDict _ => "dict"
  end.

Definition no_attribute {A} (v : pyval) (attr : string) : result A :=
  Raise (AttributeError
           ("'" ++ type_name v ++ "' object has no attribute '" ++ attr ++ "'")).

Definition not_iterable {A} (v : pyval) : result A :=
  Raise (TypeError ("'" ++ type_name v ++ "' object is not iterable")).

Definition not_container {A} (v : pyval) : result A :=
  Raise (TypeError ("argument of type '" ++ type_name v ++ "' is not iterable")).

(** Truth value of an object. *)
Definition truthy (v : pyval) : bool :=
  match v with
  | PNone => false
  | PBool b => b
  | PInt z => negb (Z.eqb z 0)
  | PStr s => negb (String.eqb s EmptyString)
  | PList l => match l with [] => false | _ => true end
  | PDict d => match d with [] => false | _ => true end
  end.

(** [v == 'k'] for a string literal *)
Definition eq_str (v : pyval) (k : string) : bool :=
  match v with
  | PStr s => String.eqb s k
  | _ => false
  end.

(** [v in [k1, ..., kn]] for a list of string literals *)
Definition in_strs (v : pyval) (ks : list string) : bool :=
  existsb (eq_str v) ks.

(** Dictionary lookup with a string key. *)
Fixpoint lookup (k : string) (d : list (pyval * pyval)) : option pyval :=
  match d with
  | [] => None
  | (k', v) :: d' => if eq_str k' k then Some v else lookup k d'
  end.

(** [d[k] = v]: replaces in place, or appends a new key at the end. *)
Fixpoint assign (k : string) (v : pyval) (d : list (pyval * pyval))
  : list (pyval * pyval) :=
  match d with
  | [] => [(PStr k, v)]
  | (k', v') :: d' =>
      if eq_str k' k then (k', v) :: d' else (k', v') :: assign k v d'
  end.

(** [v.get(k, default)] *)
Definition get (v : pyval) (k : string) (default : pyval) : result pyval :=
  match v with
  | PDict d => Ok (match lookup k d with Some x => x | None => default end)
  | _ => no_attribute v "get"
  end.

(** [v.items()] *)
Definition items (v : pyval) : result (list (pyval * pyval)) :=
  match v with
  | PDict d => Ok d
  | _ => no_attribute v "items"
  end.

Fixpoint chars (s : string) : list pyval :=
  match s with
  | EmptyString => []
  | String c s' => PStr (String c EmptyString) :: chars s'
  end.

(** The sequence a [for] loop runs over. *)
Definition iter (v : pyval) : result (list pyval) :=
  match v with
  | PList l => Ok l
  | PDict d => Ok (map fst d)
  | PStr s => Ok (chars s)
  | _ => not_iterable v
  end.

(** ['k' in v] for a string literal on the left *)
Definition has (k : string) (v : pyval) : result bool :=
  match v with
  | PStr s => Ok (contains k s)
  | PList l => Ok (existsb (fun x => eq_str x k) l)
  | PDict d => Ok (existsb (fun kv => eq_str (fst kv) k) d)
  | _ => not_container v
  end.

(** [v.lower()] *)
Definition lower_of (v : pyval) : result string :=
  match v with
  | PStr s => Ok (lower s)
  | _ => no_attribute v "lower"
  end.

(** [v.endswith(p)] *)
Definition endswith_of (v : pyval) (p : string) : result bool :=
  match v with
  | PStr s => Ok (endswith p s)
  | _ => no_attribute v "endswith"
  end.

(** [v.split(sep)] *)
Definition split_of (v : pyval) (sep : ascii) : result (list string) :=
  match v with
  | PStr s => Ok (split sep s)
  | _ => no_attribute v "split"
  end.

(** [v.split(sep, 1)] *)
Definition split1_of (v : pyval) (sep : ascii) : result (list string) :=
  match v with
  | PStr s => Ok (split1 sep s)
  | _ => no_attribute v "split"
  end.

(** [a, b = l] *)
Definition unpack2 (l : list string) : result (string * string) :=
  match l with
  | [a; b] => Ok (a, b)
  | [] => Raise (ValueError "not enough values to unpack (expected 2, got 0)")
  | [_] => Raise (ValueError "not enough values to unpack (expected 2, got 1)")
  | _ => Raise (ValueError "too many values to unpack (expected 2)")
  end.

Definition hex_digit (n : nat) : ascii :=
  if (n <? 10)%nat then ascii_of_nat (48 + n) else ascii_of_nat (87 + n).

Definition quote1 : ascii := "'"%char.
Definition quote2 : ascii := ascii_of_nat 34.
Definition backslash : ascii := ascii_of_nat 92.

Definition str1 (c : ascii) : string := String c EmptyString.

(** One character of [repr(s)] inside quotes [q]. *)
Definition repr_char (q c : ascii) : string :=
  let n := nat_of_ascii c in
  if Ascii.eqb c backslash then String backslash (str1 backslash)
  else if Ascii.eqb c q then String backslash (str1 q)
  else if (n =? 10)%nat then String backslash "n"
  else if (n =? 13)%nat then String backslash "r"
  else if (n =? 9)%nat then String backslash "t"
  else if (n <? 32)%nat || (n =? 127)%nat then
    String backslash
      (String "x" (String (hex_digit (n / 16)) (str1 (hex_digit (n mod 16)))))
  else str1 c.

Fixpoint repr_chars (q : ascii) (s : string) : string :=
  match s with
  | EmptyString => EmptyString
  | String c s' => repr_char q c ++ repr_chars q s'
  end.

(** [repr(s)]: single quotes unless the text has one and no double quote. *)
Definition repr_str (s : string) : string :=
  let q := if contains (str1 quote1) s && negb (contains (str1 quote2) s)
           then quote2 else quote1 in
  String q (repr_chars q s ++ str1 q).

Definition int_str (z : Z) : string := NilZero.string_of_int (Z.to_int z).

(** [repr(v)] *)
Fixpoint repr (v : pyval) : string :=
  match v with
  | PNone => "None"
  | PBool true => "True"
  | PBool false => "False"
  | PInt z => int_str z
  | PStr s => repr_str s
  | PList l => "[" ++ join ", " (map repr l) ++ "]"
  | PDict d =>
      "{" ++ join ", " (map (fun kv => repr (fst kv) ++ ": " ++ repr (snd kv)) d)
          ++ "}"
  end.

(** [str(v)], also the rendering of [{v}] in an f-string. *)
Definition str (v : pyval) : string :=
  match v with
  | PStr s => s
  | _ => repr v
  end.

End PyVal.

(** ** Findings and the auditor's monad *)

Inductive Severity : Type := HIGH | MEDIUM | LOW | INFO | ERROR.

Definition Severity_eqb (a b : Severity) : bool :=
  match a, b with
  | HIGH, HIGH | MEDIUM, MEDIUM | LOW, LOW | INFO, INFO | ERROR, ERROR => true
  | _, _ => false
  end.

(** The dictionary built by [add_finding]. *)
Record Finding : Type := mkFinding {
  severity : Severity;
  category : string;
  message : string;
  file : string;
  line : Z
}.

(** A computation of the auditor: it reads and extends [self.findings] and
    either returns or raises. *)
Definition M (A : Type) : Type := list Finding -> result A * list Finding.

Definition ret {A} (a : A) : M A := fun fs => (Ok a, fs).

Definition bind {A B} (m : M A) (k : A -> M B) : M B :=
  fun fs =>
    match m fs with
    | (Ok a, fs') => k a fs'
    | (Raise e, fs') => (Raise e, fs')
    end.

(** A pure expression that may raise. *)
Definition lift {A} (r : result A) : M A := fun fs => (r, fs).

Declare Scope audit_scope.
Delimit Scope audit_scope with audit.
Notation "x <- m ;; k" := (bind m (fun x => k))
  (at level 61, m at next level, right associativity) : audit_scope.
Notation "m ;;; k" := (bind m (fun _ => k))
  (at level 61, right associativity) : audit_scope.
Open Scope audit_scope.

Definition when (b : bool) (m : M unit) : M unit := if b then m else ret tt.

(** [for x in xs: body] *)
Fixpoint for_each {A} (xs : list A) (body : A -> M unit) : M unit :=
  match xs with
  | [] => ret tt
  | x :: xs' => body x ;;; for_each xs' body
  end.

(** [any(test(x) for x in l)]: stops at the first true element. *)
Fixpoint any_of {A} (test : A -> result bool) (l : list A) : result bool :=
  match l with
  | [] => Ok false
  | x :: l' =>
      match test x with
      | Raise e => Raise e
      | Ok true => Ok true
      | Ok false => any_of test l'
      end
  end.

(** [self.add_finding(severity, category, message, file_path)] *)
Definition add_finding (sev : Severity) (cat msg file_path : string) : M unit :=
  fun fs => (Ok tt, (fs ++ [mkFinding sev cat msg file_path 0])%list).

Import PyVal.

(** ** The rule checks

    Each [check_*] follows the method of the same name; the loop body over
    one [(service_name, service_config)] item is named [*_service]. *)

Section Checks.

Variable compose_file : string.

Definition dangerous_caps : list string :=
  ["SYS_ADMIN"; "NET_ADMIN"; "SYS_PTRACE"; "SYS_MODULE"].

Definition privileged_containers_service (item : pyval * pyval) : M unit :=
  let (service_name, service_config) := item in
  privileged <- lift (get service_config "privileged" (PBool false)) ;;
  when (truthy privileged)
    (add_finding HIGH "Container Security"
       ("Service '" ++ str service_name ++ "' runs in privileged mode")
       compose_file) ;;;
  cap_add <- lift (get service_config "cap_add" (PList [])) ;;
  caps <- lift (iter cap_add) ;;
  for_each caps (fun cap =>
    when (in_strs cap dangerous_caps)
      (add_finding MEDIUM "Container Security"
         ("Service '" ++ str service_name ++ "' has dangerous capability: "
            ++ str cap)
         compose_file)) ;;;
  command <- lift (get service_config "command" (PStr EmptyString)) ;;
  when (match command with
        | PStr s => contains "--privileged" s
        | _ => false
        end)
    (add_finding HIGH "Container Security"
       ("Service '" ++ str service_name ++ "' uses --privileged in command")
       compose_file).

(** [services = compose_data.get('services', {})] followed by the loop over
    [services.items()]. *)
Definition over_services (compose_data : pyval)
    (body : pyval * pyval -> M unit) : M unit :=
  services <- lift (get compose_data "services" (PDict [])) ;;
  its <- lift (items services) ;;
  for_each its body.

Definition check_privileged_containers (compose_data : pyval) : M unit :=
  over_services compose_data privileged_containers_service.

Definition host_network_mode_service (item : pyval * pyval) : M unit :=
  let (service_name, service_config) := item in
  network_mode <- lift (get service_config "network_mode" PNone) ;;
  when (eq_str network_mode "host")
    (add_finding MEDIUM "Network Security"
       ("Service '" ++ str service_name ++ "' uses host network mode")
       compose_file).

Definition check_host_network_mode (compose_data : pyval) : M unit :=
  over_services compose_data host_network_mode_service.

Definition dangerous_mounts : list string :=
  ["/var/run/docker.sock"; "/proc"; "/sys"; "/etc/passwd"; "/etc/shadow";
   "/etc/sudoers"; "/root/.ssh"].

Definition colon : ascii := ":"%char.
Definition slash : ascii := "/"%char.

Definition volume_mount (service_name volume : pyval) : M unit :=
  match volume with
  | PStr v =>
      when (contains ":" v)
        (let host_path := first (split colon v) in
         for_each dangerous_mounts (fun dangerous =>
           when (String.eqb host_path dangerous)
             (let sev := if String.eqb dangerous "/var/run/docker.sock"
                         then HIGH else MEDIUM in
              add_finding sev "Volume Security"
                ("Service '" ++ str service_name
                   ++ "' mounts dangerous path: " ++ dangerous)
                compose_file)) ;;;
         when (String.eqb host_path "/" || startswith "/home" host_path)
           (add_finding HIGH "Volume Security"
              ("Service '" ++ str service_name
                 ++ "' has broad filesystem access: " ++ host_path)
              compose_file))
  | PDict _ =>
      source <- lift (get volume "source" (PStr EmptyString)) ;;
      when (in_strs source dangerous_mounts)
        (add_finding HIGH "Volume Security"
           ("Service '" ++ str service_name
              ++ "' mounts dangerous path: " ++ str source)
           compose_file)
  | _ => ret tt
  end.

Definition volume_mounts_service (item : pyval * pyval) : M unit :=
  let (service_name, service_config) := item in
  volumes <- lift (get service_config "volumes" (PList [])) ;;
  vs <- lift (iter volumes) ;;
  for_each vs (volume_mount service_name).

Definition check_volume_mounts (compose_data : pyval) : M unit :=
  over_services compose_data volume_mounts_service.

Definition secret_patterns : list string :=
  ["password"; "passwd"; "secret"; "key"; "token"; "credential"; "auth";
   "private"].

Definition placeholders : list string :=
  ["changeme"; "your-password"; "example"].

(** The [KEY=VALUE] list form folded into [env_vars]. *)
Fixpoint env_of_list (l : list pyval) (env_vars : list (pyval * pyval))
  : result (list (pyval * pyval)) :=
  match l with
  | [] => Ok env_vars
  | env_var :: l' =>
      match has "=" env_var with
      | Raise e => Raise e
      | Ok false => env_of_list l' env_vars
      | Ok true =>
          match split1_of env_var "="%char with
          | Raise e => Raise e
          | Ok parts =>
              match unpack2 parts with
              | Raise e => Raise e
              | Ok (key, value) =>
                  env_of_list l' (assign key (PStr value) env_vars)
              end
          end
      end
  end.

Definition env_vars_of (environment : pyval) : result (list (pyval * pyval)) :=
  match environment with
  | PList l => env_of_list l []
  | PDict d => Ok d
  | _ => Ok []
  end.

Definition hardcoded (env_value : pyval) : bool :=
  match env_value with
  | PStr v =>
      negb (startswith "${" v)
      && ((0 <? String.length v)%nat && negb (mem (lower v) placeholders))
  | _ => false
  end.

Definition secret_finding (service_name env_key : pyval) : M unit :=
  add_finding HIGH "Secret Management"
    ("Service '" ++ str service_name ++ "' may have hardcoded secret in "
       ++ str env_key)
    compose_file.

Definition environment_variable (service_name : pyval)
    (entry : pyval * pyval) : M unit :=
  let (env_key, env_value) := entry in
  for_each secret_patterns (fun pattern =>
    k <- lift (lower_of env_key) ;;
    when (contains (lower pattern) k)
      (when (hardcoded env_value) (secret_finding service_name env_key))).

Definition environment_variables_service (item : pyval * pyval) : M unit :=
  let (service_name, service_config) := item in
  environment <- lift (get service_config "environment" (PDict [])) ;;
  env_vars <- lift (env_vars_of environment) ;;
  for_each env_vars (environment_variable service_name).

Definition check_environment_variables (compose_data : pyval) : M unit :=
  over_services compose_data environment_variables_service.

Definition user_configuration_service (item : pyval * pyval) : M unit :=
  let (service_name, service_config) := item in
  user <- lift (get service_config "user" PNone) ;;
  if eq_str user "root" || eq_str user "0" then
    add_finding MEDIUM "Container Security"
      ("Service '" ++ str service_name ++ "' explicitly runs as root")
      compose_file
  else
    match user with
    | PNone =>
        add_finding LOW "Container Security"
          ("Service '" ++ str service_name
             ++ "' doesn't specify user (may run as root)")
          compose_file
    | _ => ret tt
    end.

Definition check_user_configuration (compose_data : pyval) : M unit :=
  over_services compose_data user_configuration_service.

Definition security_options_service (item : pyval * pyval) : M unit :=
  let (service_name, service_config) := item in
  security_opt <- lift (get service_config "security_opt" (PList [])) ;;
  opts <- lift (iter security_opt) ;;
  has_no_new_privileges <-
    lift (any_of (has "no-new-privileges:true") opts) ;;
  when (negb has_no_new_privileges)
    (add_finding LOW "Container Security"
       ("Service '" ++ str service_name
          ++ "' missing 'no-new-privileges:true' security option")
       compose_file) ;;;
  has_mandatory_access_control <-
    lift (any_of (fun opt =>
            match lower_of opt with
            | Raise e => Raise e
            | Ok o =>
                if contains "apparmor" o then Ok true
                else match lower_of opt with
                     | Raise e => Raise e
                     | Ok o' => Ok (contains "selinux" o')
                     end
            end) opts) ;;
  when (negb has_mandatory_access_control)
    (add_finding INFO "Container Security"
       ("Service '" ++ str service_name
          ++ "' could benefit from AppArmor/SELinux profile")
       compose_file).

Definition check_security_options (compose_data : pyval) : M unit :=
  over_services compose_data security_options_service.

Definition network_security_service (item : pyval * pyval) : M unit :=
  let (service_name, service_config) := item in
  service_networks <- lift (get service_config "networks" (PList [])) ;;
  no_mode <- (if truthy service_networks then ret false
              else b <- lift (has "network_mode" service_config) ;;
                   ret (negb b)) ;;
  when no_mode
    (add_finding LOW "Network Security"
       ("Service '" ++ str service_name
          ++ "' uses default network (consider explicit network)")
       compose_file).

Definition external_network (item : pyval * pyval) : M unit :=
  let (network_name, network_config) := item in
  external <- lift (get network_config "external" (PBool false)) ;;
  when (truthy external)
    (add_finding INFO "Network Security"
       ("Network '" ++ str network_name
          ++ "' is external - ensure it's properly secured")
       compose_file).

Definition check_network_security (compose_data : pyval) : M unit :=
  services <- lift (get compose_data "services" (PDict [])) ;;
  networks <- lift (get compose_data "networks" (PDict [])) ;;
  its <- lift (items services) ;;
  for_each its network_security_service ;;;
  nets <- lift (items networks) ;;
  for_each nets external_network.

Definition dangerous_ports : list string :=
  ["22"; "23"; "80"; "443"; "3389"; "5432"; "3306"].

Definition all_interfaces (port : string) : bool :=
  startswith "0.0.0.0:" port
  || negb (contains ":" port)
  || (count colon port =? 1)%nat.

(** [str(port).split(':')[-1].split('/')[0]] *)
Definition port_num (port : pyval) : string :=
  first (split slash (final (split colon (str port)))).

Definition port_binding (service_name port : pyval) : M unit :=
  match port with
  | PStr p =>
      when (all_interfaces p)
        (add_finding MEDIUM "Network Security"
           ("Service '" ++ str service_name ++ "' exposes port " ++ p
              ++ " to all interfaces")
           compose_file)
  | _ => ret tt
  end ;;;
  when (mem (port_num port) dangerous_ports)
    (add_finding MEDIUM "Network Security"
       ("Service '" ++ str service_name ++ "' exposes sensitive port "
          ++ port_num port)
       compose_file).

Definition port_exposure_service (item : pyval * pyval) : M unit :=
  let (service_name, service_config) := item in
  ports <- lift (get service_config "ports" (PList [])) ;;
  ps <- lift (iter ports) ;;
  for_each ps (port_binding service_name).

Definition check_port_exposure (compose_data : pyval) : M unit :=
  over_services compose_data port_exposure_service.

Definition restart_policies_service (item : pyval * pyval) : M unit :=
  let (service_name, service_config) := item in
  restart <- lift (get service_config "restart" PNone) ;;
  when (eq_str restart "always")
    (add_finding LOW "Container Security"
       ("Service '" ++ str service_name
          ++ "' uses 'always' restart (consider 'unless-stopped')")
       compose_file).

Definition check_restart_policies (compose_data : pyval) : M unit :=
  over_services compose_data restart_policies_service.

Definition trusted_registries : list string :=
  ["docker.io"; "ghcr.io"; "quay.io"; "registry.redhat.io";
   "mcr.microsoft.com"; "gcr.io"].

(** [image.endswith(':latest') or ':' not in image] *)
Definition unpinned (image : pyval) : result bool :=
  match endswith_of image ":latest" with
  | Raise e => Raise e
  | Ok true => Ok true
  | Ok false =>
      match has ":" image with
      | Raise e => Raise e
      | Ok b => Ok (negb b)
      end
  end.

(** ['/' in image and not any(reg in image for reg in trusted_registries)] *)
Definition untrusted (image : pyval) : result bool :=
  match has "/" image with
  | Raise e => Raise e
  | Ok false => Ok false
  | Ok true =>
      match any_of (fun reg => has reg image) trusted_registries with
      | Raise e => Raise e
      | Ok b => Ok (negb b)
      end
  end.

Definition unpinned_finding (service_name : pyval) : Finding :=
  mkFinding LOW "Image Security"
    ("Service '" ++ str service_name
       ++ "' uses 'latest' tag or no tag specified")
    compose_file 0.

Definition untrusted_finding (service_name : pyval) : Finding :=
  mkFinding MEDIUM "Image Security"
    ("Service '" ++ str service_name
       ++ "' uses image from potentially untrusted registry")
    compose_file 0.

Definition emit (f : Finding) : M unit :=
  add_finding (severity f) (category f) (message f) (file f).

Definition image_security_service (item : pyval * pyval) : M unit :=
  let (service_name, service_config) := item in
  image <- lift (get service_config "image" (PStr EmptyString)) ;;
  is_unpinned <- lift (unpinned image) ;;
  when is_unpinned (emit (unpinned_finding service_name)) ;;;
  is_untrusted <- lift (untrusted image) ;;
  when is_untrusted (emit (untrusted_finding service_name)).

Definition check_image_security (compose_data : pyval) : M unit :=
  over_services compose_data image_security_service.

End Checks.

(** ** One file, the whole run and the exit status *)

Definition check : Type := string -> pyval -> M unit.

(** The checks in the order [audit_compose_file] calls them. *)
Definition security_checks : list check :=
  [check_privileged_containers; check_host_network_mode; check_volume_mounts;
   check_environment_variables; check_user_configuration;
   check_security_options; check_network_security; check_port_exposure;
   check_restart_policies; check_image_security].

(** The body of the [try] block.  [loaded] is the outcome of opening the file
    and of [yaml.safe_load]. *)
Definition audit_try (checks : list check) (compose_file : string)
    (loaded : result pyval) : M unit :=
  compose_data <- lift loaded ;;
  if negb (truthy compose_data) then ret tt
  else
    has_services <- lift (has "services" compose_data) ;;
    if negb has_services then ret tt
    else for_each checks (fun c => c compose_file compose_data).

Definition processing_error (compose_file : string) (e : exn) : Finding :=
  mkFinding ERROR "File Processing"
    ("Failed to process " ++ compose_file ++ ": " ++ exn_str e)
    compose_file 0.

(** [try: ... except Exception as e: self.add_finding("ERROR", ...)] *)
Definition audit_with (checks : list check) (compose_file : string)
    (loaded : result pyval) : M unit :=
  fun fs =>
    match audit_try checks compose_file loaded fs with
    | (Ok _, fs') => (Ok tt, fs')
    | (Raise e, fs') => emit (processing_error compose_file e) fs'
    end.

Definition audit_compose_file : string -> result pyval -> M unit :=
  audit_with security_checks.

Definition severity_counts0 : list (Severity * nat) :=
  [(HIGH, 0); (MEDIUM, 0); (LOW, 0); (INFO, 0); (ERROR, 0)].

(** [severity_counts[sev] += 1] *)
Fixpoint bump (sev : Severity) (counts : list (Severity * nat))
  : list (Severity * nat) :=
  match counts with
  | [] => []
  | (s, n) :: counts' =>
      if Severity_eqb s sev then (s, S n) :: counts'
      else (s, n) :: bump sev counts'
  end.

(** [summary[sev]] *)
Fixpoint count_of (sev : Severity) (counts : list (Severity * nat)) : nat :=
  match counts with
  | [] => 0
  | (s, n) :: counts' => if Severity_eqb s sev then n else count_of sev counts'
  end.

Record AuditResult : Type := mkResult {
  findings : list Finding;
  summary : list (Severity * nat);
  total_files : nat;
  total_findings : nat
}.

Definition run_audit (compose_files : list (string * result pyval))
  : M AuditResult :=
  for_each compose_files (fun cf => audit_compose_file (fst cf) (snd cf)) ;;;
  fun fs =>
    (Ok (mkResult fs
           (fold_left (fun counts f => bump (severity f) counts) fs
              severity_counts0)
           (List.length compose_files) (List.length fs)),
     fs).

Definition exemption_keywords : list string :=
  ["docker.sock"; "host network"; "port"; "privileged"].

(** [any(pattern in finding["message"].lower() for pattern in [...])] *)
Definition exempted (finding : Finding) : bool :=
  existsb (fun pattern => contains pattern (lower (message finding)))
    exemption_keywords.

(** The loop of [main] that fills [critical_issues]. *)
Definition critical_issues (results : AuditResult) : list Finding :=
  fold_left
    (fun critical finding =>
       match severity finding with
       | HIGH => if exempted finding then critical
                 else (critical ++ [finding])%list
       | _ => critical
       end)
    (findings results) [].

(** The argument of [sys.exit] in [main]. *)
Definition exit_status (results : AuditResult) : Z :=
  match critical_issues results with
  | [] => 0%Z
  | _ :: _ => 1%Z
  end.

(** [main], from a fresh auditor whose glob found [compose_files]. *)
Definition main (compose_files : list (string * result pyval)) : Z :=
  match fst (run_audit compose_files []) with
  | Ok results => exit_status results
  | Raise _ => 1%Z
  end.

(** * Vocabulary of the properties

    Outcomes and findings of a computation, the findings the checks build,
    the readings of an image reference and of a port entry that the
    properties compare the code with, and the documents used as concrete
    inputs. *)

(** A service that mounts the docker socket. *)
Definition doc_socket : pyval :=
  PDict [(PStr "services",
          PDict [(PStr "agent",
                  PDict [(PStr "image", PStr "ghcr.io/acme/agent:1.4");
                         (PStr "user", PStr "1000");
                         (PStr "security_opt",
                          PList [PStr "no-new-privileges:true";
                                 PStr "apparmor:docker-default"]);
                         (PStr "networks", PList [PStr "internal"]);
                         (PStr "volumes",
                          PList [PStr
                            "/var/run/docker.sock:/var/run/docker.sock:ro"])])])].

(** A service with a literal password. *)
Definition doc_password : pyval :=
  PDict [(PStr "services",
          PDict [(PStr "db",
                  PDict [(PStr "image", PStr "docker.io/library/postgres:16");
                         (PStr "user", PStr "999");
                         (PStr "security_opt",
                          PList [PStr "no-new-privileges:true";
                                 PStr "apparmor:docker-default"]);
                         (PStr "networks", PList [PStr "internal"]);
                         (PStr "environment",
                          PDict [(PStr "POSTGRES_PASSWORD",
                                  PStr "hunter2")])])])].

(** Outcome and findings of a computation started on an empty list. *)
Definition res {A} (m : M A) : result A := fst (m []).
Definition out {A} (m : M A) : list Finding := snd (m []).

(** [m] leaves the findings it is given in place and adds [out m]. *)
Definition appends {A} (m : M A) : Prop :=
  forall fs, m fs = (res m, (fs ++ out m)%list).

(** [tidy m]: [m] only appends, and nothing it appends is an ERROR finding. *)
Definition tidy {A} (m : M A) : Prop :=
  appends m /\ forall x, In x (out m) -> severity x <> ERROR.

(** [m] returns instead of raising. *)
Definition succeeds (m : M unit) : Prop := res m = Ok tt.

(** The document passes the guard of the [try] block and is checked. *)
Definition audits (data : pyval) : Prop :=
  truthy data = true /\ has "services" data = Ok true.

(** What the [try] block returns early on. *)
Definition skipped (data : pyval) : Prop :=
  truthy data = false \/ exists d, data = PDict d /\ lookup "services" d = None.

Definition is_high (f : Finding) : bool := Severity_eqb (severity f) HIGH.

(** A finding that [main] appends to [critical_issues]. *)
Definition blocking (f : Finding) : bool := is_high f && negb (exempted f).

(** A manifest that declares volumes only. *)
Definition doc_no_services : pyval :=
  PDict [(PStr "version", PStr "3.8");
         (PStr "volumes", PDict [(PStr "data", PNone)])].

(** A network declared by name only, [networks: {frontend: }], parses to a
    null configuration. *)
Definition doc_null_network : pyval :=
  PDict [(PStr "services",
          PDict [(PStr "web", PDict [(PStr "image", PStr "nginx")])]);
         (PStr "networks", PDict [(PStr "frontend", PNone)])].

(** A service whose [image:] key is present with a null value. *)
Definition doc_null_image : pyval :=
  PDict [(PStr "services",
          PDict [(PStr "web",
                  PDict [(PStr "image", PNone);
                         (PStr "user", PStr "1000");
                         (PStr "restart", PStr "always")])])].

Definition is_error (f : Finding) : bool := Severity_eqb (severity f) ERROR.

(** A manifest on which every check returns. *)
Definition doc_plain : pyval :=
  PDict [(PStr "services",
          PDict [(PStr "web",
                  PDict [(PStr "image", PStr "nginx");
                         (PStr "ports", PList [PStr "8080:80"]);
                         (PStr "privileged", PBool true)])])].

(** The tag of an image reference, read off the spec's data model
    [image (registry, repository, tag)]: the text after the last [:] of the
    last [/]-separated component, absent when that component has no [:]. *)
Definition spec_image_tag (image : string) : option string :=
  let name := final (split slash image) in
  if contains ":" name then Some (final (split colon name)) else None.

(** The registry component of an image reference, in the reading most
    favourable to the code: the text before the first [/], absent when the
    reference has no [/]. *)
Definition spec_image_registry (image : string) : option string :=
  if contains "/" image then Some (first (split slash image)) else None.

(** The two tests of the image check on a string image. *)
Definition unpinned_str (image : string) : bool :=
  endswith ":latest" image || negb (contains ":" image).

Definition untrusted_str (image : string) : bool :=
  contains "/" image
  && negb (existsb (fun reg => contains reg image) trusted_registries).

Definition is_low (f : Finding) : bool := Severity_eqb (severity f) LOW.
Definition is_medium (f : Finding) : bool := Severity_eqb (severity f) MEDIUM.

(** The findings the checks build, by rule. *)
Definition secret_management_finding (compose_file : string)
    (service_name env_key : pyval) : Finding :=
  mkFinding HIGH "Secret Management"
    ("Service '" ++ str service_name ++ "' may have hardcoded secret in "
       ++ str env_key)
    compose_file 0.

(** The number of secret-indicating substrings that occur in a key. *)
Definition matching_patterns (key : string) : nat :=
  List.length (filter (fun pattern => contains pattern (lower key))
                 secret_patterns).

Definition dangerous_mount_finding (sev : Severity) (compose_file : string)
    (service_name : pyval) (path : string) : Finding :=
  mkFinding sev "Volume Security"
    ("Service '" ++ str service_name ++ "' mounts dangerous path: " ++ path)
    compose_file 0.

(** The same bind mount of [/proc], in long and in short form. *)
Definition doc_proc_long_form : pyval :=
  PDict [(PStr "services",
          PDict [(PStr "monitor",
                  PDict [(PStr "image", PStr "prom/node-exporter:v1.7.0");
                         (PStr "volumes",
                          PList [PDict [(PStr "type", PStr "bind");
                                        (PStr "source", PStr "/proc");
                                        (PStr "target", PStr "/host/proc");
                                        (PStr "read_only", PBool true)]])])])].

Definition doc_proc_short_form : pyval :=
  PDict [(PStr "services",
          PDict [(PStr "monitor",
                  PDict [(PStr "image", PStr "prom/node-exporter:v1.7.0");
                         (PStr "volumes",
                          PList [PStr "/proc:/host/proc:ro"])])])].

Definition all_interfaces_finding (compose_file : string)
    (service_name : pyval) (port : string) : Finding :=
  mkFinding MEDIUM "Network Security"
    ("Service '" ++ str service_name ++ "' exposes port " ++ port
       ++ " to all interfaces")
    compose_file 0.

Definition sensitive_port_finding (compose_file : string)
    (service_name : pyval) (num : string) : Finding :=
  mkFinding MEDIUM "Network Security"
    ("Service '" ++ str service_name ++ "' exposes sensitive port " ++ num)
    compose_file 0.

(** The spec's reading of a binding without an explicit host interface: an
    integer, a bare string, or [host:container[/proto]]. *)
Definition spec_no_host_interface (port : pyval) : bool :=
  match port with
  | PInt _ => true
  | PStr p => (count colon p <=? 1)%nat
  | _ => false
  end.

(** Port entries in string and integer form. *)
Definition doc_ports : pyval :=
  PDict [(PStr "services",
          PDict [(PStr "web",
                  PDict [(PStr "image", PStr "nginx:1.25");
                         (PStr "ports",
                          PList [PStr "8080:80"; PInt 443;
                                 PStr "127.0.0.1:9000:9000"])])])].

Definition doc_int_port : pyval :=
  PDict [(PStr "services",
          PDict [(PStr "web",
                  PDict [(PStr "image", PStr "nginx:1.25");
                         (PStr "ports", PList [PInt 8080])])])].

(** ** Vocabulary of the further properties *)

(** [m] only appends, and every finding it appends satisfies [P]. *)
Definition emits {A} (P : Finding -> Prop) (m : M A) : Prop :=
  appends m /\ forall x, In x (out m) -> P x.

(** A finding attributed to [compose_file], without a line number, whose
    severity and category are one of the pairs [labels], and which can be a
    critical issue only in the two categories named. *)
Definition labelled (compose_file : string) (labels : list (Severity * string))
    (x : Finding) : Prop :=
  file x = compose_file
  /\ line x = 0%Z
  /\ In (severity x, category x) labels
  /\ (blocking x = true ->
      category x = "Volume Security" \/ category x = "Secret Management").

(** The severity and category pairs that occur in the [add_finding] calls of
    the ten checks. *)
Definition rule_labels : list (Severity * string) :=
  [(HIGH, "Container Security"); (MEDIUM, "Container Security");
   (LOW, "Container Security"); (INFO, "Container Security");
   (MEDIUM, "Network Security"); (LOW, "Network Security");
   (INFO, "Network Security");
   (HIGH, "Volume Security"); (MEDIUM, "Volume Security");
   (HIGH, "Secret Management");
   (LOW, "Image Security"); (MEDIUM, "Image Security")].

(** What the audit of one file adds to an empty findings list. *)
Definition file_findings (cf : string * result pyval) : list Finding :=
  out (audit_compose_file (fst cf) (snd cf)).

(** The [try] block of [audit_compose_file] ends in the [except] clause. *)
Definition raised (cf : string * result pyval) : bool :=
  match res (audit_try security_checks (fst cf) (snd cf)) with
  | Raise _ => true
  | Ok _ => false
  end.

Definition has_severity (sev : Severity) (f : Finding) : bool :=
  Severity_eqb (severity f) sev.

Definition missing_no_new_privileges_finding (compose_file : string)
    (service_name : pyval) : Finding :=
  mkFinding LOW "Container Security"
    ("Service '" ++ str service_name
       ++ "' missing 'no-new-privileges:true' security option")
    compose_file 0.

Definition missing_profile_finding (compose_file : string)
    (service_name : pyval) : Finding :=
  mkFinding INFO "Container Security"
    ("Service '" ++ str service_name
       ++ "' could benefit from AppArmor/SELinux profile")
    compose_file 0.

(** A network declared by name only next to a plain service. *)
Definition doc_two_networks : pyval :=
  PDict [(PStr "services",
          PDict [(PStr "web",
                  PDict [(PStr "image", PStr "nginx:1.25");
                         (PStr "networks", PList [PStr "frontend"])])]);
         (PStr "networks",
          PDict [(PStr "proxy", PDict [(PStr "external", PBool true)]);
                 (PStr "frontend", PNone)])].

(** A service declared by name only, [services: {web: {...}, db: }]. *)
Definition doc_bare_service : pyval :=
  PDict [(PStr "services",
          PDict [(PStr "web",
                  PDict [(PStr "image", PStr "nginx:1.25");
                         (PStr "privileged", PBool true)]);
                 (PStr "db", PNone)])].

(** The value [env_vars] holds for [k] after the [KEY=VALUE] entries [kvs]
    have been assigned in order: that of the last entry with key [k]. *)
Fixpoint last_binding (k : string) (kvs : list (string * string))
  : option string :=
  match kvs with
  | [] => None
  | (k', v) :: rest =>
      match last_binding k rest with
      | Some w => Some w
      | None => if String.eqb k' k then Some v else None
      end
  end.

(** The list item written for a key and a value. *)
Definition env_entry (kv : string * string) : pyval :=
  PStr (fst kv ++ "=" ++ snd kv).

Definition runs_as_root_finding (compose_file : string)
    (service_name : pyval) : Finding :=
  mkFinding MEDIUM "Container Security"
    ("Service '" ++ str service_name ++ "' explicitly runs as root")
    compose_file 0.

Definition no_user_finding (compose_file : string)
    (service_name : pyval) : Finding :=
  mkFinding LOW "Container Security"
    ("Service '" ++ str service_name
       ++ "' doesn't specify user (may run as root)")
    compose_file 0.

(** ** Finding the compose files *)

(** A relative path as [pathlib] holds it: the sequence of its parts. *)
Definition path : Type := list string.

(** [str(path)] *)
Definition path_str (p : path) : string := join "/" p.

(** Order of paths: part by part, a proper prefix first; parts are compared
    as strings, character code by character code. *)
Fixpoint path_compare (p q : path) : comparison :=
  match p, q with
  | [], [] => Eq
  | [], _ :: _ => Lt
  | _ :: _, [] => Gt
  | a :: p', b :: q' =>
      match String.compare a b with
      | Eq => path_compare p' q'
      | c => c
      end
  end.

Definition path_leb (p q : path) : bool :=
  match path_compare p q with
  | Gt => false
  | _ => true
  end.

Definition path_lt (p q : path) : Prop := path_compare p q = Lt.

Definition path_eq_dec : forall p q : path, {p = q} + {p <> q} :=
  list_eq_dec string_dec.

(** [sorted(l)]: a stable sort. *)
Fixpoint insert_path (p : path) (l : list path) : list path :=
  match l with
  | [] => [p]
  | q :: l' => if path_leb p q then p :: l else q :: insert_path p l'
  end.

Definition sorted (l : list path) : list path := fold_right insert_path [] l.

Definition patterns : list string :=
  ["docker-compose.yml"; "docker-compose.yaml"; "**/docker-compose*.yml"].

(** [find_compose_files], on a fresh auditor.  [glob pattern] stands for
    [list(Path(".").glob(pattern))]; [set] keeps one copy of each path. *)
Definition find_compose_files (glob : string -> list path) : list path :=
  sorted (nodup path_eq_dec (flat_map glob patterns)).

(** A directory in which the first and the third pattern match the same
    top-level file. *)
Definition glob_example (pattern : string) : list path :=
  if String.eqb pattern "docker-compose.yml" then [["docker-compose.yml"]]
  else if String.eqb pattern "**/docker-compose*.yml"
       then [["media"; "docker-compose.yml"]; ["docker-compose.yml"];
             ["media"; "docker-compose.arr.yml"]]
       else [].

(** ** The printed report *)

Definition newline : string := String (ascii_of_nat 10) EmptyString.

(** [s * n] *)
Fixpoint times (n : nat) (s : string) : string :=
  match n with
  | 0 => EmptyString
  | S n' => s ++ times n' s
  end.

(** [str(n)] for a count *)
Definition nat_str (n : nat) : string := NilZero.string_of_uint (Nat.to_uint n).

(** The severity as the report dictionary spells it. *)
Definition severity_str (sev : Severity) : string :=
  match sev with
  | HIGH => "HIGH"
  | MEDIUM => "MEDIUM"
  | LOW => "LOW"
  | INFO => "INFO"
  | ERROR => "ERROR"
  end.

(** [icon.get(severity, '')], as UTF-8 text *)
Definition icon (sev : Severity) : string :=
  match sev with
  | HIGH => "🚨"
  | MEDIUM => "⚠️"
  | LOW => "💡"
  | INFO => "ℹ️"
  | ERROR => "💥"
  end.

(** The order of the detailed listing. *)
Definition severities : list Severity := [HIGH; MEDIUM; LOW; INFO; ERROR].

(** One line of the detailed listing. *)
Definition bullet_line (finding : Finding) : string :=
  let file_info :=
    if String.eqb (file finding) EmptyString then EmptyString
    else " (" ++ file finding ++ ")" in
  "  • " ++ message finding ++ file_info.

Definition summary_lines (counts : list (Severity * nat)) : list string :=
  flat_map (fun entry =>
              if (0 <? snd entry)%nat
              then ["  " ++ icon (fst entry) ++ " " ++ severity_str (fst entry)
                      ++ ": " ++ nat_str (snd entry)]
              else [])
    counts.

Definition group_lines (fs : list Finding) (sev : Severity) : list string :=
  match filter (fun f => Severity_eqb (severity f) sev) fs with
  | [] => []
  | severity_findings =>
      (newline ++ severity_str sev ++ " SEVERITY:")
        :: map bullet_line severity_findings
  end.

Definition recommendations : list string :=
  [newline ++ "Recommendations:"; times 30 "-";
   "1. Address HIGH and MEDIUM severity findings immediately";
   "2. Review volume mounts for unnecessary host access";
   "3. Use specific image tags instead of 'latest'";
   "4. Implement proper user configurations";
   "5. Add security hardening options like 'no-new-privileges'";
   "6. Consider using secrets management for sensitive data"].

Definition no_issues_line : string :=
  newline ++ "🎉 No security issues found!".

Definition heading_lines (audit_result : AuditResult) : list string :=
  [newline ++ times 60 "="; "SECURITY AUDIT REPORT"; times 60 "=";
   "Files scanned: " ++ nat_str (total_files audit_result);
   "Total findings: " ++ nat_str (total_findings audit_result);
   EmptyString; "Findings by severity:"].

Definition detail_heading : list string :=
  [newline ++ "Detailed findings:"; times 60 "-"].

(** [print_report]: the texts of its [print] calls, in order. *)
Definition print_report (audit_result : AuditResult) : list string :=
  (heading_lines audit_result
   ++ summary_lines (summary audit_result)
   ++ match findings audit_result with
      | [] => [no_issues_line]
      | _ =>
          detail_heading
          ++ flat_map (group_lines (findings audit_result)) severities
          ++ recommendations
      end)%list.

(** A printed line of the detailed listing. *)
Definition is_bullet (printed : string) : bool := startswith "  • " printed.

(** The findings in the order of the detailed listing. *)
Definition grouped (fs : list Finding) : list Finding :=
  flat_map (fun sev => filter (has_severity sev) fs) severities.

Definition broad_access_finding (compose_file : string)
    (service_name : pyval) (host_path : string) : Finding :=
  mkFinding HIGH "Volume Security"
    ("Service '" ++ str service_name ++ "' has broad filesystem access: "
       ++ host_path)
    compose_file 0.

(** The environment gives [key] the value [value]: as the entry of a
    mapping, or as the list item [KEY=VALUE] that no later item of the list
    overrides. *)
Definition binds (environment : pyval) (key value : string) : Prop :=
  (exists d, environment = PDict d /\ lookup key d = Some (PStr value))
  \/ (exists before after,
        environment
        = PList (before ++ PStr (key ++ "=" ++ value) :: after)%list
        /\ count "="%char key = 0
        /\ forall s, In (PStr s) after -> ~ Prefix (key ++ "=") s).

(** Two services with environments in both forms; the second one holds a
    literal API key between two other items. *)
Definition doc_api_key_list : pyval :=
  PDict [(PStr "services",
          PDict [(PStr "web",
                  PDict [(PStr "image", PStr "nginx:1.25");
                         (PStr "environment",
                          PDict [(PStr "TZ", PStr "UTC")])]);
                 (PStr "api",
                  PDict [(PStr "image", PStr "ghcr.io/acme/api:2.1");
                         (PStr "environment",
                          PList [PStr "LOG_LEVEL=info";
                                 PStr "API_KEY=sk_live_abc123";
                                 PStr "TOKEN_URL=${TOKEN_URL}"])])])].

(** The service with the literal API key alone, and after a service that is
    declared by name only, [services: {db: , api: {...}}]. *)
Definition doc_api_key_alone : pyval :=
  PDict [(PStr "services",
          PDict [(PStr "api",
                  PDict [(PStr "image", PStr "ghcr.io/acme/api:2.1");
                         (PStr "environment",
                          PList [PStr "API_KEY=sk_live_abc123"])])])].

Definition doc_api_key_behind_bare_service : pyval :=
  PDict [(PStr "services",
          PDict [(PStr "db", PNone);
                 (PStr "api",
                  PDict [(PStr "image", PStr "ghcr.io/acme/api:2.1");
                         (PStr "environment",
                          PList [PStr "API_KEY=sk_live_abc123"])])])].

(** The literal API key replaced by a later item of the list. *)
Definition doc_api_key_overridden : pyval :=
  PDict [(PStr "services",
          PDict [(PStr "api",
                  PDict [(PStr "image", PStr "ghcr.io/acme/api:2.1");
                         (PStr "environment",
                          PList [PStr "API_KEY=sk_live_abc123";
                                 PStr "API_KEY=changeme"])])])].

(** A key with two secret-indicating substrings, in the list form. *)
Definition doc_auth_token_list : pyval :=
  PDict [(PStr "services",
          PDict [(PStr "proxy",
                  PDict [(PStr "image", PStr "traefik:3.0")]);
                 (PStr "api",
                  PDict [(PStr "image", PStr "ghcr.io/acme/api:2.1");
                         (PStr "environment",
                          PList [PStr "AUTH_TOKEN=s3cr3t";
                                 PStr "MODE=prod"])])])].

(** The same variable after a service whose environment is a list with a
    number in it, [environment: [8080]]. *)
Definition doc_auth_token_behind_numeric_item : pyval :=
  PDict [(PStr "services",
          PDict [(PStr "proxy",
                  PDict [(PStr "image", PStr "traefik:3.0");
                         (PStr "environment", PList [PInt 8080])]);
                 (PStr "api",
                  PDict [(PStr "image", PStr "ghcr.io/acme/api:2.1");
                         (PStr "environment",
                          PDict [(PStr "AUTH_TOKEN", PStr "s3cr3t")])])])].

(** Two services, the second with an untagged image. *)
Definition doc_untagged_image : pyval :=
  PDict [(PStr "services",
          PDict [(PStr "db", PDict [(PStr "image", PStr "postgres:16")]);
                 (PStr "web", PDict [(PStr "image", PStr "nginx")])])].

(** Two services, the second with an image of a registry outside the
    allowlist. *)
Definition doc_foreign_registry : pyval :=
  PDict [(PStr "services",
          PDict [(PStr "db", PDict [(PStr "image", PStr "postgres:16")]);
                 (PStr "app",
                  PDict [(PStr "image",
                          PStr "registry.example.org/app:1.0")])])].

(** Services with the [user] key in its several shapes. *)
Definition doc_users : pyval :=
  PDict [(PStr "services",
          PDict [(PStr "web",
                  PDict [(PStr "image", PStr "nginx:1.25");
                         (PStr "user", PStr "root")]);
                 (PStr "app",
                  PDict [(PStr "image", PStr "ghcr.io/acme/app:2.1");
                         (PStr "user", PStr "1000:1000")]);
                 (PStr "db",
                  PDict [(PStr "image", PStr "postgres:16")]);
                 (PStr "job",
                  PDict [(PStr "image", PStr "alpine:3.20");
                         (PStr "user", PInt 0)])])].

(** An untagged image behind a registry with a port, and an untagged image
    after a service whose [image:] key is null. *)
Definition doc_registry_port : pyval :=
  PDict [(PStr "services",
          PDict [(PStr "web",
                  PDict [(PStr "image", PStr "localhost:5000/nginx")])])].

Definition doc_untagged_behind_null_image : pyval :=
  PDict [(PStr "services",
          PDict [(PStr "db", PDict [(PStr "image", PNone)]);
                 (PStr "web", PDict [(PStr "image", PStr "nginx")])])].

(** An image of a registry whose name holds an allow-listed name, and an
    image of a foreign registry after a service whose [image:] key is
    null. *)
Definition doc_trusted_substring : pyval :=
  PDict [(PStr "services",
          PDict [(PStr "web",
                  PDict [(PStr "image", PStr "myquay.io/app:1.0")])])].

Definition doc_foreign_behind_null_image : pyval :=
  PDict [(PStr "services",
          PDict [(PStr "db", PDict [(PStr "image", PNone)]);
                 (PStr "app",
                  PDict [(PStr "image",
                          PStr "registry.example.org/app:1.0")])])].

(** * Properties *)

(** ** The embedding at work *)

Example split_examples :
  split colon "a:b" = ["a"; "b"]
  /\ split colon EmptyString = [EmptyString]
  /\ split colon ":" = [EmptyString; EmptyString]
  /\ split1 "="%char "a=b=c" = ["a"; "b=c"].
Proof. repeat split. Qed.

Example str_examples :
  str (PDict [(PStr "target", PInt 80); (PStr "published", PStr "8080")])
  = "{'target': 80, 'published': '8080'}"
  /\ str (PList [PInt 1; PStr "a"; PNone; PBool true]) = "[1, 'a', None, True]"
  /\ str (PInt (-5)) = "-5"
  /\ str (PStr "8080:80") = "8080:80".
Proof. repeat split. Qed.

Example port_num_examples :
  port_num (PStr "127.0.0.1:8080:80/tcp") = "80"
  /\ port_num (PStr "80:8080") = "8080"
  /\ port_num (PInt 443) = "443"
  /\ port_num (PDict [(PStr "target", PInt 80)]) = " 80}".
Proof. repeat split. Qed.

(** The socket mount is the only finding, it is HIGH, it is counted as HIGH
    in the summary, and the run still exits with status 0. *)
Example socket_mount_run :
  fst (run_audit [("docker-compose.yml", Ok doc_socket)] [])
  = Ok (mkResult
          [mkFinding HIGH "Volume Security"
             "Service 'agent' mounts dangerous path: /var/run/docker.sock"
             "docker-compose.yml" 0]
          [(HIGH, 1); (MEDIUM, 0); (LOW, 0); (INFO, 0); (ERROR, 0)] 1 1)
  /\ main [("docker-compose.yml", Ok doc_socket)] = 0%Z.
Proof. split; reflexivity. Qed.

(** A literal password is HIGH and not exempted: the run exits with 1. *)
Example password_run :
  fst (run_audit [("docker-compose.yml", Ok doc_password)] [])
  = Ok (mkResult
          [mkFinding HIGH "Secret Management"
             "Service 'db' may have hardcoded secret in POSTGRES_PASSWORD"
             "docker-compose.yml" 0]
          [(HIGH, 1); (MEDIUM, 0); (LOW, 0); (INFO, 0); (ERROR, 0)] 1 1)
  /\ main [("docker-compose.yml", Ok doc_password)] = 1%Z.
Proof. split; reflexivity. Qed.

(** The exemption reads the rendered message, so a service whose name
    contains a keyword exempts its own HIGH findings. *)
Example keyword_in_service_name_run :
  main [("docker-compose.yml",
         Ok (PDict [(PStr "services",
                     PDict [(PStr "portal",
                             PDict [(PStr "environment",
                                     PList [PStr "DB_PASSWORD=hunter2"])])])]))]
  = 0%Z.
Proof. reflexivity. Qed.

(** A file that cannot be read or parsed becomes one ERROR finding, and the
    next file is still audited. *)
Example unreadable_file_run :
  snd (run_audit [("a/docker-compose.yml",
                   Raise (OtherError "mapping values are not allowed here"));
                  ("docker-compose.yml", Ok doc_socket)] [])
  = [mkFinding ERROR "File Processing"
       "Failed to process a/docker-compose.yml: mapping values are not allowed here"
       "a/docker-compose.yml" 0;
     mkFinding HIGH "Volume Security"
       "Service 'agent' mounts dangerous path: /var/run/docker.sock"
       "docker-compose.yml" 0].
Proof. reflexivity. Qed.

(** ** Strings *)

Lemma startswith_Prefix (p s : string) :
  startswith p s = true <-> Prefix p s.
Proof.
  revert s; induction p as [|a p IH]; intros s; simpl.
  - split; [intros _; exists s; reflexivity | reflexivity].
  - destruct s as [|b s].
    + split; [discriminate | intros [x Hx]; discriminate].
    + rewrite andb_true_iff, IH. split.
      * intros [Hab [x Hx]]. apply Ascii.eqb_eq in Hab. subst.
        exists x. reflexivity.
      * intros [x Hx]. simpl in Hx. injection Hx as -> ->. split.
        -- apply Ascii.eqb_refl.
        -- exists x. reflexivity.
Qed.

Lemma contains_Substring (p s : string) :
  contains p s = true <-> Substring p s.
Proof.
  induction s as [|c s IH]; simpl.
  - rewrite orb_false_r, startswith_Prefix. split.
    + intros [b Hb]. exists EmptyString, b. exact Hb.
    + intros [a [b Hab]]. destruct a; [exists b; exact Hab | discriminate].
  - rewrite orb_true_iff, startswith_Prefix, IH. split.
    + intros [[b Hb] | [a [b Hab]]].
      * exists EmptyString, b. exact Hb.
      * exists (String c a), b. simpl. now rewrite Hab.
    + intros [a [b Hab]]. destruct a as [|c' a].
      * left. exists b. exact Hab.
      * right. simpl in Hab. injection Hab as -> ->. now exists a, b.
Qed.

Lemma endswith_Suffix (p s : string) :
  endswith p s = true <-> Suffix p s.
Proof.
  induction s as [|c s IH]; simpl.
  - rewrite orb_false_r. split.
    + intros H. apply String.eqb_eq in H. subst. now exists EmptyString.
    + intros [a Ha]. destruct a; simpl in Ha.
      * subst. reflexivity.
      * discriminate.
  - rewrite orb_true_iff, IH. split.
    + intros [H | [a Ha]].
      * apply String.eqb_eq in H. subst. now exists EmptyString.
      * exists (String c a). simpl. now rewrite Ha.
    + intros [a Ha]. destruct a as [|c' a]; simpl in Ha.
      * left. subst. apply String.eqb_refl.
      * right. injection Ha as -> ->. now exists a.
Qed.

Lemma mem_In (x : string) (l : list string) : mem x l = true <-> In x l.
Proof.
  unfold mem. rewrite existsb_exists. split.
  - intros [y [Hy He]]. apply String.eqb_eq in He. now subst.
  - intros H. exists x. split; [exact H | apply String.eqb_refl].
Qed.

(** ** The findings list only grows

    [res m] and [out m] are the outcome and the findings of [m] run on an
    empty list; [appends m] says that on any list [m] behaves the same and
    leaves what was there in place. *)

Lemma appends_ret A (a : A) : appends (ret a).
Proof. intros fs. unfold ret, res, out. simpl. now rewrite app_nil_r. Qed.

Lemma appends_lift A (r : result A) : appends (lift r).
Proof. intros fs. unfold lift, res, out. simpl. now rewrite app_nil_r. Qed.

Lemma appends_add_finding sev cat msg f : appends (add_finding sev cat msg f).
Proof. intros fs. reflexivity. Qed.

Lemma appends_emit f : appends (emit f).
Proof. apply appends_add_finding. Qed.

Lemma bind_run A B (m : M A) (k : A -> M B) :
  appends m -> (forall a, appends (k a)) ->
  forall fs,
    bind m k fs =
    match res m with
    | Ok a => (res (k a), (fs ++ out m ++ out (k a))%list)
    | Raise e => (Raise e, (fs ++ out m)%list)
    end.
Proof.
  intros Hm Hk fs. unfold bind. rewrite (Hm fs).
  destruct (res m) as [a|e]; [|reflexivity].
  rewrite (Hk a). now rewrite app_assoc.
Qed.

Lemma appends_bind A B (m : M A) (k : A -> M B) :
  appends m -> (forall a, appends (k a)) -> appends (bind m k).
Proof.
  intros Hm Hk fs. unfold res, out.
  rewrite (@bind_run _ _ m k Hm Hk fs), (@bind_run _ _ m k Hm Hk []).
  destruct (res m); reflexivity.
Qed.

Lemma appends_when b (m : M unit) : appends m -> appends (when b m).
Proof. destruct b; simpl; [trivial | intros _; apply appends_ret]. Qed.

Lemma appends_for_each A (xs : list A) (body : A -> M unit) :
  (forall x, appends (body x)) -> appends (for_each xs body).
Proof.
  intros Hb. induction xs as [|x xs IH]; simpl.
  - apply appends_ret.
  - apply appends_bind; [apply Hb | intros _; exact IH].
Qed.

Lemma tidy_ret A (a : A) : tidy (ret a).
Proof. split; [apply appends_ret | intros x []]. Qed.

Lemma tidy_lift A (r : result A) : tidy (lift r).
Proof. split; [apply appends_lift | intros x []]. Qed.

Lemma tidy_add_finding sev cat msg f :
  sev <> ERROR -> tidy (add_finding sev cat msg f).
Proof.
  intros Hs. split; [apply appends_add_finding|].
  intros x [<-|[]]. exact Hs.
Qed.

Lemma tidy_emit f : severity f <> ERROR -> tidy (emit f).
Proof. apply tidy_add_finding. Qed.

Lemma tidy_bind A B (m : M A) (k : A -> M B) :
  tidy m -> (forall a, tidy (k a)) -> tidy (bind m k).
Proof.
  intros [Ha Hc] Hk. split.
  - apply appends_bind; [exact Ha | intros a; apply Hk].
  - intros x. unfold out.
    rewrite (@bind_run _ _ m k Ha (fun a => proj1 (Hk a)) []).
    destruct (res m) as [a|e]; cbn [snd app]; [|apply Hc].
    intros Hx. apply in_app_or in Hx. destruct Hx as [Hx|Hx].
    + now apply Hc.
    + now apply (proj2 (Hk a)).
Qed.

Lemma tidy_when b (m : M unit) : tidy m -> tidy (when b m).
Proof. destruct b; simpl; [trivial | intros _; apply tidy_ret]. Qed.

Lemma tidy_for_each A (xs : list A) (body : A -> M unit) :
  (forall x, tidy (body x)) -> tidy (for_each xs body).
Proof.
  intros Hb. induction xs as [|x xs IH]; simpl.
  - apply tidy_ret.
  - apply tidy_bind; [apply Hb | intros _; exact IH].
Qed.

Create HintDb frame.

#[local] Hint Resolve tidy_ret tidy_lift : frame.

Ltac frame :=
  repeat first
    [ progress auto with frame
    | apply tidy_bind; [|intro]
    | apply tidy_when
    | apply tidy_for_each; intro
    | apply tidy_add_finding; discriminate
    | apply tidy_emit; discriminate
    | match goal with
      | |- tidy (let (_, _) := ?x in _) => destruct x
      | |- tidy (match ?x with _ => _ end) => destruct x
      | |- tidy (if ?b then _ else _) => destruct b
      | |- tidy (let _ := if ?b then _ else _ in _) => destruct b; cbv zeta
      end ].

Lemma tidy_over_services data body :
  (forall item, tidy (body item)) -> tidy (over_services data body).
Proof. intros H. unfold over_services. frame. Qed.

Lemma tidy_check_privileged_containers f d :
  tidy (check_privileged_containers f d).
Proof.
  apply tidy_over_services. intros item.
  unfold privileged_containers_service. frame.
Qed.

Lemma tidy_check_host_network_mode f d : tidy (check_host_network_mode f d).
Proof.
  apply tidy_over_services. intros item.
  unfold host_network_mode_service. frame.
Qed.

Lemma tidy_volume_mount f name v : tidy (volume_mount f name v).
Proof. unfold volume_mount. frame. Qed.

Lemma tidy_check_volume_mounts f d : tidy (check_volume_mounts f d).
Proof.
  apply tidy_over_services. intros item.
  unfold volume_mounts_service. frame; try apply tidy_volume_mount.
Qed.

Lemma tidy_environment_variable f name entry :
  tidy (environment_variable f name entry).
Proof. unfold environment_variable, secret_finding. frame. Qed.

Lemma tidy_check_environment_variables f d :
  tidy (check_environment_variables f d).
Proof.
  apply tidy_over_services. intros item.
  unfold environment_variables_service.
  frame; try apply tidy_environment_variable.
Qed.

Lemma tidy_check_user_configuration f d :
  tidy (check_user_configuration f d).
Proof.
  apply tidy_over_services. intros item.
  unfold user_configuration_service. frame.
Qed.

Lemma tidy_check_security_options f d : tidy (check_security_options f d).
Proof.
  apply tidy_over_services. intros item.
  unfold security_options_service. frame.
Qed.

Lemma tidy_check_network_security f d : tidy (check_network_security f d).
Proof.
  unfold check_network_security, network_security_service, external_network.
  frame.
Qed.

Lemma tidy_port_binding f name p : tidy (port_binding f name p).
Proof. unfold port_binding. frame. Qed.

Lemma tidy_port_exposure_service f item : tidy (port_exposure_service f item).
Proof. unfold port_exposure_service. frame; try apply tidy_port_binding. Qed.

Lemma tidy_check_port_exposure f d : tidy (check_port_exposure f d).
Proof. apply tidy_over_services. apply tidy_port_exposure_service. Qed.

Lemma tidy_check_restart_policies f d : tidy (check_restart_policies f d).
Proof.
  apply tidy_over_services. intros item.
  unfold restart_policies_service. frame.
Qed.

Lemma tidy_check_image_security f d : tidy (check_image_security f d).
Proof.
  apply tidy_over_services. intros item.
  unfold image_security_service. frame.
Qed.

(** Every registered check leaves earlier findings alone and adds no ERROR
    finding. *)
Lemma tidy_security_checks c f d : In c security_checks -> tidy (c f d).
Proof.
  unfold security_checks. simpl.
  intros [<-|[<-|[<-|[<-|[<-|[<-|[<-|[<-|[<-|[<-|[]]]]]]]]]]].
  - apply tidy_check_privileged_containers.
  - apply tidy_check_host_network_mode.
  - apply tidy_check_volume_mounts.
  - apply tidy_check_environment_variables.
  - apply tidy_check_user_configuration.
  - apply tidy_check_security_options.
  - apply tidy_check_network_security.
  - apply tidy_check_port_exposure.
  - apply tidy_check_restart_policies.
  - apply tidy_check_image_security.
Qed.

Lemma appends_security_checks c f d :
  In c security_checks -> appends (c f d).
Proof. intros H. apply (tidy_security_checks f d H). Qed.

Lemma appends_port_binding f name p : appends (port_binding f name p).
Proof. apply tidy_port_binding. Qed.

Lemma appends_port_exposure_service f item :
  appends (port_exposure_service f item).
Proof. apply tidy_port_exposure_service. Qed.

(** ** Loops *)

Lemma res_cases (m : M unit) : succeeds m \/ exists e, res m = Raise e.
Proof.
  unfold succeeds. destruct (res m) as [[]|e]; [now left | right; now exists e].
Qed.

Lemma for_each_nil A (body : A -> M unit) :
  res (for_each [] body) = Ok tt /\ out (for_each [] body) = [].
Proof. split; reflexivity. Qed.

Lemma for_each_cons A (x : A) xs (body : A -> M unit) :
  (forall y, appends (body y)) ->
  for_each (x :: xs) body [] =
  match res (body x) with
  | Ok _ => (res (for_each xs body),
             (out (body x) ++ out (for_each xs body))%list)
  | Raise e => (Raise e, out (body x))
  end.
Proof.
  intros Hb. simpl.
  rewrite (@bind_run _ _ (body x) (fun _ => for_each xs body) (Hb x)
             (fun _ => appends_for_each xs body Hb) []).
  reflexivity.
Qed.

(** A loop all of whose iterations return: the findings of the iterations,
    in order. *)
Lemma for_each_succeeds A (xs : list A) (body : A -> M unit) :
  (forall x, appends (body x)) ->
  Forall (fun x => succeeds (body x)) xs ->
  succeeds (for_each xs body)
  /\ out (for_each xs body) = flat_map (fun x => out (body x)) xs.
Proof.
  intros Hb Hall. induction Hall as [|x xs Hx _ [IHr IHo]].
  - split; reflexivity.
  - unfold succeeds, res, out. rewrite (for_each_cons x xs body Hb).
    rewrite Hx. simpl. split; [exact IHr | now rewrite IHo].
Qed.

(** A loop whose iteration [x] is the first to raise stops there. *)
Lemma for_each_raises A (pre : list A) x post (body : A -> M unit) e :
  (forall y, appends (body y)) ->
  Forall (fun y => succeeds (body y)) pre ->
  res (body x) = Raise e ->
  res (for_each (pre ++ x :: post) body) = Raise e
  /\ out (for_each (pre ++ x :: post) body)
     = (flat_map (fun y => out (body y)) pre ++ out (body x))%list.
Proof.
  intros Hb Hall Hx. induction Hall as [|y pre Hy _ [IHr IHo]].
  - unfold res, out. simpl app. rewrite (for_each_cons x post body Hb).
    rewrite Hx. split; reflexivity.
  - unfold res, out. simpl app.
    rewrite (for_each_cons y (pre ++ x :: post) body Hb).
    rewrite Hy. simpl. split; [exact IHr | now rewrite IHo, app_assoc].
Qed.

(** A loop that returns had only returning iterations. *)
Lemma for_each_succeeds_inv A (xs : list A) (body : A -> M unit) :
  (forall x, appends (body x)) ->
  succeeds (for_each xs body) ->
  Forall (fun x => succeeds (body x)) xs.
Proof.
  intros Hb. induction xs as [|x xs IH]; intros H; constructor.
  - unfold succeeds, res in H. rewrite (for_each_cons x xs body Hb) in H.
    unfold succeeds. destruct (res (body x)) as [[]|e]; [reflexivity|].
    discriminate H.
  - apply IH. unfold succeeds, res in H.
    rewrite (for_each_cons x xs body Hb) in H.
    destruct (res (body x)) as [[]|e]; [exact H | discriminate H].
Qed.

(** ** The per-file boundary *)

Lemma audit_try_audits checks f data fs :
  audits data ->
  audit_try checks f (Ok data) fs
  = for_each checks (fun c => c f data) fs.
Proof.
  intros [Ht Hs]. unfold audit_try, bind, lift. rewrite Ht, Hs. reflexivity.
Qed.

Lemma lookup_has k d : lookup k d = None <-> has k (PDict d) = Ok false.
Proof.
  simpl. induction d as [|[k' v] d IH]; simpl.
  - split; reflexivity.
  - destruct (eq_str k' k); simpl.
    + split; discriminate.
    + exact IH.
Qed.

Lemma audit_with_skipped checks f data fs :
  skipped data -> audit_with checks f (Ok data) fs = (Ok tt, fs).
Proof.
  intros [Ht | [d [-> Hd]]]; unfold audit_with, audit_try, bind, lift.
  - rewrite Ht. reflexivity.
  - apply lookup_has in Hd. rewrite Hd.
    destruct (truthy (PDict d)); reflexivity.
Qed.

Lemma audit_with_succeeds checks f data fs :
  (forall c, In c checks -> appends (c f data)) ->
  audits data ->
  Forall (fun c => succeeds (c f data)) checks ->
  audit_with checks f (Ok data) fs
  = (Ok tt, (fs ++ flat_map (fun c => out (c f data)) checks)%list).
Proof.
  intros Hap Ha Hall. unfold audit_with. rewrite audit_try_audits by exact Ha.
  revert fs. induction Hall as [|c cs Hc _ IH]; intros fs.
  - simpl. unfold ret. now rewrite app_nil_r.
  - simpl for_each. unfold bind.
    rewrite (Hap c (or_introl eq_refl) fs). rewrite Hc.
    rewrite IH by (intros c' Hc'; apply Hap; now right).
    simpl. now rewrite app_assoc.
Qed.

Lemma audit_with_raises pre c post f data e fs :
  (forall c', In c' (pre ++ [c]) -> appends (c' f data)) ->
  audits data ->
  Forall (fun c' => succeeds (c' f data)) pre ->
  res (c f data) = Raise e ->
  audit_with (pre ++ c :: post) f (Ok data) fs
  = (Ok tt,
     (fs ++ flat_map (fun c' => out (c' f data)) pre ++ out (c f data)
         ++ [processing_error f e])%list).
Proof.
  intros Hap Ha Hall Hc. unfold audit_with. rewrite audit_try_audits by exact Ha.
  revert fs. induction Hall as [|c0 cs Hc0 _ IH]; intros fs.
  - simpl. unfold bind. rewrite (Hap c (or_introl eq_refl) fs). rewrite Hc.
    unfold emit, add_finding. simpl. now rewrite <- app_assoc.
  - simpl app. simpl for_each. unfold bind at 1.
    rewrite (Hap c0 (or_introl eq_refl) fs). rewrite Hc0.
    rewrite IH by (intros c' Hc'; apply Hap; now right).
    simpl. now rewrite !app_assoc.
Qed.

(** ** The exit-status gate *)

Lemma Severity_eqb_eq a b : Severity_eqb a b = true <-> a = b.
Proof. destruct a, b; simpl; split; congruence. Qed.

Lemma critical_loop fs acc :
  fold_left
    (fun critical finding =>
       match severity finding with
       | HIGH => if exempted finding then critical
                 else (critical ++ [finding])%list
       | _ => critical
       end) fs acc
  = (acc ++ filter blocking fs)%list.
Proof.
  revert acc. induction fs as [|f fs IH]; intros acc; simpl.
  - now rewrite app_nil_r.
  - rewrite IH. unfold blocking, is_high.
    destruct (severity f); simpl; try reflexivity.
    destruct (exempted f); simpl; [reflexivity | now rewrite <- app_assoc].
Qed.

Lemma critical_issues_filter r :
  critical_issues r = filter blocking (findings r).
Proof. unfold critical_issues. now rewrite critical_loop. Qed.

Lemma exempted_keyword f :
  exempted f = true <->
  exists k, In k exemption_keywords /\ Substring k (lower (message f)).
Proof.
  unfold exempted. rewrite existsb_exists.
  split; intros [k [Hk H]]; exists k; split; trivial;
    now apply contains_Substring.
Qed.

Lemma filter_blocking_high fs :
  filter blocking (filter is_high fs) = filter blocking fs.
Proof.
  induction fs as [|f fs IH]; simpl; [reflexivity|].
  unfold blocking at 2. destruct (is_high f) eqn:Hh; simpl.
  - unfold blocking at 1. rewrite Hh. simpl. now rewrite IH.
  - exact IH.
Qed.

Lemma run_audit_returns files fs :
  exists r, run_audit files fs = (Ok r, findings r)
            /\ total_findings r = List.length (findings r)
            /\ total_files r = List.length files.
Proof.
  unfold run_audit, bind.
  assert (H : forall fs0, exists fs1,
             for_each files
               (fun cf => audit_compose_file (fst cf) (snd cf)) fs0
             = (Ok tt, fs1)).
  { induction files as [|[f l] files IH]; intros fs0; simpl.
    - now exists fs0.
    - unfold bind, audit_compose_file, audit_with. simpl.
      destruct (audit_try security_checks f l fs0) as [[u|e] fs'].
      + apply IH.
      + unfold emit, add_finding. apply IH. }
  destruct (H fs) as [fs1 ->].
  exists (mkResult fs1
            (fold_left (fun counts f => bump (severity f) counts) fs1
               severity_counts0)
            (List.length files) (List.length fs1)).
  repeat split.
Qed.

(** C1.  The exit status is 0 exactly when every HIGH finding of the report
    has a message that contains, once lower-cased, one of the keywords
    docker.sock, host network, port, privileged; it is 0 or 1; it is the
    same for two reports with the same HIGH findings, whatever their
    MEDIUM, LOW, INFO and ERROR findings; and the status of a run is the
    status of the report that run builds. *)
Theorem exit_status_gate (results : AuditResult) :
  (exit_status results = 0%Z <->
   forall f, In f (findings results) -> severity f = HIGH ->
     exists k, In k exemption_keywords /\ Substring k (lower (message f)))
  /\ (exit_status results = 0%Z \/ exit_status results = 1%Z)
  /\ (forall results',
        filter is_high (findings results') = filter is_high (findings results) ->
        exit_status results' = exit_status results)
  /\ (forall compose_files, exists report,
        fst (run_audit compose_files []) = Ok report
        /\ main compose_files = exit_status report).
Proof.
  repeat split.
  - unfold exit_status. rewrite critical_issues_filter.
    intros H f Hin Hsev.
    apply exempted_keyword.
    destruct (exempted f) eqn:He; [reflexivity|].
    assert (Hb : In f (filter blocking (findings results))).
    { apply filter_In. split; [exact Hin|].
      unfold blocking, is_high. rewrite Hsev, He. reflexivity. }
    destruct (filter blocking (findings results)); [destruct Hb | discriminate].
  - unfold exit_status. rewrite critical_issues_filter. intros H.
    destruct (filter blocking (findings results)) as [|f fs] eqn:Hf;
      [reflexivity|].
    assert (Hb : In f (filter blocking (findings results)))
      by (rewrite Hf; now left).
    apply filter_In in Hb. destruct Hb as [Hin Hb].
    unfold blocking in Hb. apply andb_true_iff in Hb. destruct Hb as [Hh Hne].
    apply Severity_eqb_eq in Hh.
    specialize (H f Hin Hh). apply exempted_keyword in H.
    rewrite H in Hne. discriminate.
  - unfold exit_status. destruct (critical_issues results); auto.
  - intros r' Heq. unfold exit_status. rewrite !critical_issues_filter.
    rewrite <- (filter_blocking_high (findings r')),
            <- (filter_blocking_high (findings results)), Heq.
    reflexivity.
  - intros files. destruct (run_audit_returns files []) as [r [Hr _]].
    exists r. unfold main. rewrite Hr. split; reflexivity.
Qed.

(** ** Documents without services *)

(** C8.  A file that parses to a false value (an empty document) or to a
    mapping without a [services] key adds nothing to the findings; the
    report of a run over that file alone has no finding, a total of 0 and
    an ERROR count of 0. *)
Theorem no_services_no_findings (compose_file : string) (data : pyval)
    (Hskip : skipped data) :
  (forall fs, audit_compose_file compose_file (Ok data) fs = (Ok tt, fs))
  /\ exists report,
       run_audit [(compose_file, Ok data)] [] = (Ok report, [])
       /\ findings report = []
       /\ total_findings report = 0
       /\ total_files report = 1
       /\ count_of ERROR (summary report) = 0
       /\ forall f, In f (findings report) -> severity f <> ERROR.
Proof.
  split.
  - intros fs. now apply audit_with_skipped.
  - unfold run_audit, bind. simpl. unfold bind.
    unfold audit_compose_file. rewrite audit_with_skipped by exact Hskip.
    simpl. eexists. split; [reflexivity|]. simpl.
    repeat split. intros f [].
Qed.

Lemma no_services_no_findings_witness :
  skipped doc_no_services
  /\ audit_compose_file "docker-compose.yml" (Ok doc_no_services) []
     = (Ok tt, []).
Proof.
  assert (H : skipped doc_no_services).
  { right. eexists. split; reflexivity. }
  split; [exact H|].
  apply (proj1 (no_services_no_findings "docker-compose.yml" H)).
Defined.

(** ** A rule that raises *)

Lemma audit_with_loaded_independent checks checks' f loaded fs :
  (forall data, loaded = Ok data -> ~ audits data) ->
  audit_with checks f loaded fs = audit_with checks' f loaded fs.
Proof.
  intros H. unfold audit_with, audit_try, bind, lift.
  destruct loaded as [data|e]; [|reflexivity].
  specialize (H data eq_refl). unfold audits in H.
  destruct (truthy data); simpl; [|reflexivity].
  destruct (has "services" data) as [[|]|e]; simpl; try reflexivity.
  exfalso. apply H. split; reflexivity.
Qed.

Lemma audits_dec data : audits data \/ ~ audits data.
Proof.
  unfold audits. destruct (truthy data).
  - destruct (has "services" data) as [[|]|e].
    + left. split; reflexivity.
    + right. intros [_ H]. discriminate.
    + right. intros [_ H]. discriminate.
  - right. intros [H _]. discriminate.
Qed.

Lemma filter_none A (p : A -> bool) l :
  (forall x, In x l -> p x = false) -> filter p l = [].
Proof.
  induction l as [|x l IH]; intros H; simpl; [reflexivity|].
  rewrite (H x (or_introl eq_refl)). apply IH.
  intros y Hy. apply H. now right.
Qed.

(** C3, as the code has it.  When a check raises on a document, the
    exception is caught once, around the whole file: the findings of the
    checks that ran before it and the findings the failing check had
    already added are kept, none of them an ERROR; exactly one ERROR
    finding, of category File Processing and naming the file, is appended;
    the checks after the failing one are not run; and the audit of the file
    itself returns normally. *)
Theorem rule_failure_ends_file_audit
    (compose_file : string) (data : pyval) (pre post : list check)
    (c : check) (e : exn) (fs : list Finding)
    (Hchecks : security_checks = (pre ++ c :: post)%list)
    (Hdata : audits data)
    (Hpre : Forall (fun c' => succeeds (c' compose_file data)) pre)
    (Hc : res (c compose_file data) = Raise e) :
  let kept :=
    (flat_map (fun c' => out (c' compose_file data)) pre
     ++ out (c compose_file data))%list in
  audit_compose_file compose_file (Ok data) fs
  = (Ok tt, (fs ++ kept ++ [processing_error compose_file e])%list)
  /\ filter is_error (kept ++ [processing_error compose_file e])
     = [processing_error compose_file e]
  /\ category (processing_error compose_file e) = "File Processing"
  /\ file (processing_error compose_file e) = compose_file.
Proof.
  intros kept. subst kept.
  assert (Hin : forall c', In c' (pre ++ [c]) -> In c' security_checks).
  { intros c' Hc'. rewrite Hchecks. rewrite in_app_iff in *.
    destruct Hc' as [H|[<-|[]]]; [now left|]. right. now left. }
  split; [|split; [|split; reflexivity]].
  - unfold audit_compose_file. rewrite Hchecks, <- app_assoc.
    apply audit_with_raises; trivial.
    intros c' Hc'. apply appends_security_checks. now apply Hin.
  - assert (Hk : filter is_error
                   (flat_map (fun c' => out (c' compose_file data)) pre
                    ++ out (c compose_file data)) = []).
    { apply filter_none.
      intros x Hx. unfold is_error.
      apply not_true_iff_false. rewrite Severity_eqb_eq.
      assert (Hc' : exists c', In c' (pre ++ [c])
                               /\ In x (out (c' compose_file data))).
      { apply in_app_or in Hx. destruct Hx as [Hx|Hx].
        - apply in_flat_map in Hx. destruct Hx as [c' [Hc' Hx]].
          exists c'. split; [apply in_or_app; now left | exact Hx].
        - exists c. split; [apply in_or_app; right; now left | exact Hx]. }
      destruct Hc' as [c' [Hc' Hx']].
      apply (proj2 (@tidy_security_checks c' compose_file data
                      (Hin c' Hc')) x Hx'). }
    rewrite filter_app, Hk. reflexivity.
Qed.

Lemma rule_failure_ends_file_audit_witness :
  audit_compose_file "docker-compose.yml" (Ok doc_null_image) []
  = (Ok tt,
     ((flat_map (fun c' => out (c' "docker-compose.yml" doc_null_image))
         (removelast security_checks)
       ++ out (check_image_security "docker-compose.yml" doc_null_image))
      ++ [processing_error "docker-compose.yml"
            (AttributeError "'NoneType' object has no attribute 'endswith'")])
     %list).
Proof.
  refine (proj1 (@rule_failure_ends_file_audit "docker-compose.yml"
           doc_null_image (removelast security_checks) []
           check_image_security
           (AttributeError "'NoneType' object has no attribute 'endswith'") []
           _ _ _ _)).
  - reflexivity.
  - split; reflexivity.
  - repeat constructor.
  - reflexivity.
Defined.

(** C3 fails as stated: on [doc_null_network] the network check raises
    after six checks have run; the audit ends with the ERROR finding, and
    the LOW finding that the later image check gives on this document is
    missing. *)
Lemma rule_failure_skips_remaining_rules :
  let f := "docker-compose.yml" in
  let e := AttributeError "'NoneType' object has no attribute 'get'" in
  res (check_network_security f doc_null_network) = Raise e
  /\ filter is_error (out (audit_compose_file f (Ok doc_null_network)))
     = [processing_error f e]
  /\ (exists pre, security_checks
        = (pre ++ [check_network_security; check_port_exposure;
                   check_restart_policies; check_image_security])%list)
  /\ succeeds (check_image_security f doc_null_network)
  /\ In (unpinned_finding f (PStr "web"))
        (out (check_image_security f doc_null_network))
  /\ ~ In (unpinned_finding f (PStr "web"))
          (out (audit_compose_file f (Ok doc_null_network))).
Proof.
  cbv zeta. split; [reflexivity|]. split; [reflexivity|].
  split; [exists (firstn 6 security_checks); reflexivity|].
  split; [reflexivity|].
  split; [left; reflexivity|].
  vm_compute. intros H.
  repeat (destruct H as [H|H]; [discriminate H|]). exact H.
Qed.

(** ** Order of the checks *)

(** C9, as the code has it.  For a document on which no check raises, any
    reordering of the checks gives the same findings up to order; and every
    check, run after any findings, leaves them in place and adds the
    findings it gives on the document alone. *)
Theorem rule_order_irrelevant_without_errors
    (compose_file : string) (loaded : result pyval) (checks : list check)
    (fs : list Finding)
    (Hperm : Permutation security_checks checks)
    (Hok : forall data, loaded = Ok data ->
           Forall (fun c => succeeds (c compose_file data)) security_checks) :
  Permutation (snd (audit_compose_file compose_file loaded fs))
              (snd (audit_with checks compose_file loaded fs))
  /\ forall c data fs', In c checks ->
       c compose_file data fs'
       = (res (c compose_file data),
          (fs' ++ out (c compose_file data))%list).
Proof.
  assert (Hin : forall c, In c checks -> In c security_checks).
  { intros c Hc. apply Permutation_in with (l := checks); trivial.
    now apply Permutation_sym. }
  split.
  - unfold audit_compose_file.
    destruct loaded as [data|e].
    + destruct (audits_dec data) as [Ha|Hn].
      * rewrite !audit_with_succeeds; trivial.
        -- cbn [snd]. apply Permutation_app_head.
           now apply Permutation_flat_map.
        -- intros c Hc. apply appends_security_checks. now apply Hin.
        -- apply (Permutation_Forall Hperm). now apply Hok.
        -- intros c Hc. now apply appends_security_checks.
        -- now apply Hok.
      * rewrite (audit_with_loaded_independent security_checks checks).
        -- apply Permutation_refl.
        -- intros d Hd. injection Hd as <-. exact Hn.
    + rewrite (audit_with_loaded_independent security_checks checks).
      * apply Permutation_refl.
      * intros d Hd. discriminate.
  - intros c data fs' Hc.
    apply (@appends_security_checks c compose_file data (Hin c Hc)).
Qed.

Lemma rule_order_irrelevant_without_errors_witness :
  Permutation
    (snd (audit_compose_file "docker-compose.yml" (Ok doc_plain) []))
    (snd (audit_with (rev security_checks) "docker-compose.yml"
            (Ok doc_plain) [])).
Proof.
  apply (@rule_order_irrelevant_without_errors "docker-compose.yml"
           (Ok doc_plain) (rev security_checks) []).
  - apply Permutation_rev.
  - intros data H. injection H as <-. repeat constructor.
Defined.

(** C9 fails as stated: on [doc_null_network] the order of the source
    gives five findings and the reversed order gives three. *)
Lemma rule_order_changes_findings :
  Permutation security_checks (rev security_checks)
  /\ List.length
       (out (audit_compose_file "docker-compose.yml" (Ok doc_null_network)))
     = 5
  /\ List.length
       (out (audit_with (rev security_checks) "docker-compose.yml"
               (Ok doc_null_network)))
     = 3
  /\ ~ Permutation
         (out (audit_compose_file "docker-compose.yml" (Ok doc_null_network)))
         (out (audit_with (rev security_checks) "docker-compose.yml"
                 (Ok doc_null_network))).
Proof.
  split; [apply Permutation_rev|]. split; [reflexivity|].
  split; [reflexivity|].
  intros H. apply Permutation_length in H. vm_compute in H. discriminate H.
Qed.

(** ** Splitting *)

Lemma split_not_nil sep s : split sep s <> [].
Proof.
  destruct s as [|c s]; simpl; [discriminate|].
  destruct (Ascii.eqb c sep); [discriminate|].
  destruct (split sep s); discriminate.
Qed.

Lemma split_no_sep sep s : count sep s = 0 -> split sep s = [s].
Proof.
  induction s as [|c s IH]; simpl; [reflexivity|].
  destruct (Ascii.eqb c sep); simpl; [discriminate|].
  intros H. now rewrite (IH H).
Qed.

Lemma last_cons_not_nil A (x : A) l d : l <> [] -> last (x :: l) d = last l d.
Proof. destruct l; [congruence | reflexivity]. Qed.

Lemma last_app_not_nil A (l l' : list A) d :
  l' <> [] -> last (l ++ l') d = last l' d.
Proof.
  intros H. induction l as [|x l IH]; simpl; [reflexivity|].
  rewrite <- IH. destruct (l ++ l')%list eqn:E; [|reflexivity].
  apply app_eq_nil in E. destruct E as [_ E]. congruence.
Qed.

Lemma removelast_cons_not_nil A (x : A) l :
  l <> [] -> removelast (x :: l) = x :: removelast l.
Proof. destruct l; [congruence | reflexivity]. Qed.

(** Text without separator appended to [a] lands in the last piece. *)
Lemma split_app_no_sep sep a b :
  count sep b = 0 ->
  split sep (a ++ b)
  = (removelast (split sep a) ++ [(final (split sep a) ++ b)%string])%list.
Proof.
  intros Hb. unfold final. induction a as [|c a IH]; simpl.
  - now apply split_no_sep.
  - destruct (Ascii.eqb c sep).
    + rewrite IH, last_cons_not_nil, removelast_cons_not_nil
        by apply split_not_nil.
      reflexivity.
    + rewrite IH. destruct (split sep a) as [|w [|w' ws]] eqn:Hs.
      * now destruct (@split_not_nil _ _ Hs).
      * reflexivity.
      * reflexivity.
Qed.

Lemma final_split_app_no_sep sep a b :
  count sep b = 0 ->
  final (split sep (a ++ b)) = final (split sep a) ++ b.
Proof.
  intros Hb. rewrite split_app_no_sep by exact Hb.
  unfold final. now rewrite last_last.
Qed.

Lemma split_app_sep sep a b :
  split sep (a ++ String sep b) = (split sep a ++ split sep b)%list.
Proof.
  induction a as [|c a IH]; simpl.
  - now rewrite Ascii.eqb_refl.
  - destruct (Ascii.eqb c sep).
    + now rewrite IH.
    + rewrite IH. destruct (split sep a) as [|w ws] eqn:Hs.
      * now destruct (@split_not_nil _ _ Hs).
      * reflexivity.
Qed.

Lemma final_split_app_sep sep a b :
  final (split sep (a ++ String sep b)) = final (split sep b).
Proof.
  rewrite split_app_sep. unfold final.
  destruct (split sep b) as [|w ws] eqn:Hs.
  - now destruct (@split_not_nil _ _ Hs).
  - rewrite <- Hs. apply last_app_not_nil. rewrite Hs. discriminate.
Qed.

Lemma first_split_app_sep sep a b :
  count sep a = 0 -> first (split sep (a ++ String sep b)) = a.
Proof.
  intros Ha. rewrite split_app_sep, (@split_no_sep _ _ Ha). reflexivity.
Qed.

Lemma first_split_Prefix sep s : Prefix (first (split sep s)) s.
Proof.
  induction s as [|c s [b Hb]]; simpl.
  - now exists EmptyString.
  - destruct (Ascii.eqb c sep).
    + now exists (String c s).
    + destruct (split sep s) as [|w ws]; simpl in *.
      * exists s. reflexivity.
      * exists b. unfold first. simpl. now rewrite <- Hb.
Qed.

Lemma split_singleton sep s w : split sep s = [w] -> w = s.
Proof.
  revert w. induction s as [|c s IH]; simpl; intros w H.
  - congruence.
  - destruct (Ascii.eqb c sep).
    + injection H as _ H. now destruct (@split_not_nil _ _ H).
    + destruct (split sep s) as [|w' ws] eqn:Hs.
      * now destruct (@split_not_nil _ _ Hs).
      * injection H as <- ->. now rewrite (IH w' eq_refl).
Qed.

Lemma final_split_Suffix sep s : Suffix (final (split sep s)) s.
Proof.
  unfold final. induction s as [|c s [a Ha]]; simpl.
  - now exists EmptyString.
  - destruct (Ascii.eqb c sep).
    + rewrite last_cons_not_nil by apply split_not_nil.
      exists (String c a). simpl. now rewrite <- Ha.
    + destruct (split sep s) as [|w [|w' ws]] eqn:Hs.
      * now destruct (@split_not_nil _ _ Hs).
      * apply split_singleton in Hs. subst w. now exists EmptyString.
      * change (last (String c w :: w' :: ws) EmptyString)
          with (last (w :: w' :: ws) EmptyString).
        exists (String c a). cbn [append]. now rewrite <- Ha.
Qed.

Lemma count_Substring sep s :
  count sep s = 0 <-> ~ Substring (String sep EmptyString) s.
Proof.
  rewrite <- contains_Substring.
  induction s as [|c s IH]; simpl.
  - split; [discriminate | reflexivity].
  - rewrite (Ascii.eqb_sym c sep).
    destruct (Ascii.eqb sep c); simpl.
    + split; [discriminate | intros H; now destruct H].
    + exact IH.
Qed.

Lemma append_assoc (a b c : string) : (a ++ b) ++ c = a ++ b ++ c.
Proof. induction a as [|x a IH]; simpl; [reflexivity | now rewrite IH]. Qed.

Lemma append_nil_r (a : string) : a ++ EmptyString = a.
Proof. induction a as [|x a IH]; simpl; [reflexivity | now rewrite IH]. Qed.

Lemma Substring_Suffix p c s : Substring p c -> Suffix c s -> Substring p s.
Proof.
  intros [a [b ->]] [a' ->]. exists (a' ++ a), b. now rewrite append_assoc.
Qed.

Lemma Substring_Prefix p c s : Substring p c -> Prefix c s -> Substring p s.
Proof.
  intros [a [b ->]] [b' ->]. exists a, (b ++ b'). now rewrite !append_assoc.
Qed.

Lemma Substring_refl s : Substring s s.
Proof. exists EmptyString, EmptyString. simpl. now rewrite append_nil_r. Qed.

Lemma any_of_pure A (g : A -> bool) l :
  any_of (fun x => Ok (g x)) l = Ok (existsb g l).
Proof.
  induction l as [|x l IH]; simpl; [reflexivity|].
  destruct (g x); simpl; [reflexivity | exact IH].
Qed.

(** ** Image references *)

Lemma unpinned_PStr image : unpinned (PStr image) = Ok (unpinned_str image).
Proof.
  unfold unpinned, unpinned_str. simpl.
  destruct (endswith ":latest" image); reflexivity.
Qed.

Lemma untrusted_PStr image : untrusted (PStr image) = Ok (untrusted_str image).
Proof.
  unfold untrusted, untrusted_str.
  change (has "/" (PStr image)) with (Ok (contains "/" image)).
  destruct (contains "/" image); [|reflexivity].
  change (fun reg => has reg (PStr image))
    with (fun reg => Ok (contains reg image)).
  now rewrite any_of_pure.
Qed.

(** The findings of the image check for one service with a string image. *)
Lemma image_security_service_out f name cfg image :
  get (PDict cfg) "image" (PStr EmptyString) = Ok (PStr image) ->
  image_security_service f (name, PDict cfg) []
  = (Ok tt,
     ((if unpinned_str image then [unpinned_finding f name] else [])
      ++ (if untrusted_str image then [untrusted_finding f name] else []))
     %list).
Proof.
  intros H. unfold image_security_service, bind, lift.
  rewrite H, unpinned_PStr, untrusted_PStr.
  destruct (unpinned_str image), (untrusted_str image); reflexivity.
Qed.

Lemma unpinned_str_iff image :
  unpinned_str image = true <->
  Suffix ":latest" image \/ ~ Substring ":" image.
Proof.
  unfold unpinned_str.
  rewrite orb_true_iff, negb_true_iff, endswith_Suffix,
    <- not_true_iff_false, contains_Substring.
  reflexivity.
Qed.

Lemma untrusted_str_iff image :
  untrusted_str image = true <->
  Substring "/" image
  /\ forall reg, In reg trusted_registries -> ~ Substring reg image.
Proof.
  unfold untrusted_str.
  rewrite andb_true_iff, negb_true_iff, contains_Substring,
    <- not_true_iff_false, existsb_exists.
  split; intros [Hs Hn]; split; trivial.
  - intros reg Hin Hsub. apply Hn. exists reg. split; trivial.
    now apply contains_Substring.
  - intros [reg [Hin Hc]]. apply (Hn reg Hin). now apply contains_Substring.
Qed.

Lemma unpinned_str_tag image :
  unpinned_str image = true ->
  spec_image_tag image = None \/ spec_image_tag image = Some "latest".
Proof.
  intros H. apply unpinned_str_iff in H. unfold spec_image_tag.
  destruct H as [[a ->] | Hn].
  - right.
    rewrite (@final_split_app_no_sep slash a ":latest" eq_refl).
    assert (Hc : contains ":" (final (split slash a) ++ ":latest") = true).
    { apply contains_Substring. exists (final (split slash a)), "latest".
      reflexivity. }
    rewrite Hc.
    change ":latest" with (String colon "latest").
    now rewrite final_split_app_sep.
  - left.
    destruct (contains ":" (final (split slash image))) eqn:Hc; [|reflexivity].
    exfalso. apply Hn. apply contains_Substring in Hc.
    apply (Substring_Suffix Hc). apply final_split_Suffix.
Qed.

Lemma untrusted_str_registry image :
  untrusted_str image = true ->
  exists r, spec_image_registry image = Some r /\ ~ In r trusted_registries.
Proof.
  intros H. apply untrusted_str_iff in H. destruct H as [Hs Hn].
  unfold spec_image_registry.
  apply contains_Substring in Hs. rewrite Hs.
  eexists. split; [reflexivity|].
  intros Hin. apply (Hn _ Hin).
  apply (Substring_Prefix (Substring_refl _)). apply first_split_Prefix.
Qed.

(** The unpinned-tag finding is emitted exactly on the textual test. *)
Lemma unpinned_tag_finding_exact f name cfg image :
  get (PDict cfg) "image" (PStr EmptyString) = Ok (PStr image) ->
  In (unpinned_finding f name) (out (image_security_service f (name, PDict cfg)))
  <-> Suffix ":latest" image \/ ~ Substring ":" image.
Proof.
  intros H. unfold out. rewrite (image_security_service_out f name H).
  cbn [snd]. rewrite <- unpinned_str_iff.
  destruct (unpinned_str image), (untrusted_str image); simpl;
    split; intros Hx; try reflexivity; try discriminate Hx;
    try (left; reflexivity);
    repeat (destruct Hx as [Hx|Hx]; try discriminate Hx); try destruct Hx.
Qed.

(** ** Services of a document *)

Lemma over_services_run data body services :
  (forall item, appends (body item)) ->
  get data "services" (PDict []) = Ok (PDict services) ->
  over_services data body [] = for_each services body [].
Proof.
  intros Hb Hg. unfold over_services, bind, lift. rewrite Hg. reflexivity.
Qed.

(** When a check returns, its findings are those of the services in order,
    so every finding of every service is among them. *)
Lemma over_services_covers data body services :
  (forall item, appends (body item)) ->
  get data "services" (PDict []) = Ok (PDict services) ->
  succeeds (over_services data body) ->
  out (over_services data body)
  = flat_map (fun item => out (body item)) services
  /\ forall item x, In item services -> In x (out (body item)) ->
       In x (out (over_services data body)).
Proof.
  intros Hb Hg Hs.
  assert (Hall : Forall (fun item => succeeds (body item)) services).
  { apply for_each_succeeds_inv; [exact Hb|].
    unfold succeeds, res in *. now rewrite <- (@over_services_run data body services Hb Hg). }
  assert (Ho : out (over_services data body)
               = flat_map (fun item => out (body item)) services).
  { unfold out at 1. rewrite (@over_services_run data body services Hb Hg).
    apply (@for_each_succeeds _ services body Hb Hall). }
  split; [exact Ho|].
  intros item x Hi Hx. rewrite Ho. apply in_flat_map. now exists item.
Qed.

(** A check that returns went through every service, and its findings are
    those of the services before a given one, its own, and those of the
    services after it. *)
Lemma over_services_returns data body services :
  (forall item, appends (body item)) ->
  get data "services" (PDict []) = Ok (PDict services) ->
  succeeds (over_services data body) ->
  Forall (fun item => succeeds (body item)) services.
Proof.
  intros Hb Hg Hs.
  apply for_each_succeeds_inv; [exact Hb|].
  unfold succeeds, res in *.
  now rewrite <- (@over_services_run data body services Hb Hg).
Qed.

Lemma over_services_at data body before item after :
  (forall item, appends (body item)) ->
  get data "services" (PDict []) = Ok (PDict (before ++ item :: after)%list) ->
  succeeds (over_services data body) ->
  succeeds (body item)
  /\ out (over_services data body)
     = (flat_map (fun i => out (body i)) before
        ++ out (body item)
        ++ flat_map (fun i => out (body i)) after)%list.
Proof.
  intros Hb Hg Hs.
  pose proof (@over_services_returns data body _ Hb Hg Hs) as Hall.
  destruct (@over_services_covers data body _ Hb Hg Hs) as [Ho _].
  split.
  - rewrite Forall_forall in Hall. apply Hall. apply in_elt.
  - rewrite Ho, flat_map_app. reflexivity.
Qed.


(** ** Secrets in the environment *)

Lemma hardcoded_iff value :
  hardcoded (PStr value) = true <->
  ~ Prefix "${" value /\ value <> EmptyString
  /\ ~ In (lower value) placeholders.
Proof.
  unfold hardcoded.
  rewrite !andb_true_iff, !negb_true_iff, <- !not_true_iff_false,
    startswith_Prefix, mem_In, Nat.ltb_lt.
  split; intros [H1 [H2 H3]]; repeat split; trivial.
  - intros ->. simpl in H2. lia.
  - destruct value; [congruence | simpl; lia].
Qed.

Lemma pattern_loop f name key value pats fs :
  for_each pats (fun pattern =>
    k <- lift (lower_of (PStr key)) ;;
    when (contains (lower pattern) k)
      (when (hardcoded value) (secret_finding f name (PStr key)))) fs
  = (Ok tt,
     (fs ++ if hardcoded value
            then repeat (secret_management_finding f name (PStr key))
                   (List.length
                      (filter (fun pattern =>
                                 contains (lower pattern) (lower key)) pats))
            else [])%list).
Proof.
  destruct (hardcoded value);
    revert fs; induction pats as [|p pats IH]; intros fs;
    try (simpl; unfold ret; now rewrite app_nil_r);
    cbn [for_each]; unfold bind at 1; unfold bind at 1; unfold lift at 1;
    cbn [lower_of filter];
    destruct (contains (lower p) (lower key)); cbn [when]; unfold ret;
    rewrite ?IH; try reflexivity.
  unfold secret_finding at 1, add_finding. rewrite IH.
  cbn [List.length repeat]. now rewrite <- app_assoc.
Qed.

(** The findings of one environment entry with a string key. *)
Lemma environment_variable_out f name key value :
  environment_variable f name (PStr key, value) []
  = (Ok tt,
     if hardcoded value
     then repeat (secret_management_finding f name (PStr key))
            (matching_patterns key)
     else []).
Proof.
  unfold environment_variable. rewrite pattern_loop. reflexivity.
Qed.

Lemma environment_service_run f name cfg environment env_vars :
  get (PDict cfg) "environment" (PDict []) = Ok environment ->
  env_vars_of environment = Ok env_vars ->
  environment_variables_service f (name, PDict cfg) []
  = for_each env_vars (environment_variable f name) [].
Proof.
  intros Hg He. unfold environment_variables_service, bind, lift.
  now rewrite Hg, He.
Qed.

(** A mapping environment with string keys: the check returns, and its
    findings are those of the entries, in order. *)
Lemma environment_mapping_by_entry f name cfg d :
  get (PDict cfg) "environment" (PDict []) = Ok (PDict d) ->
  Forall (fun entry => exists key, fst entry = PStr key) d ->
  succeeds (environment_variables_service f (name, PDict cfg))
  /\ out (environment_variables_service f (name, PDict cfg))
     = flat_map (fun entry => out (environment_variable f name entry)) d.
Proof.
  intros Hg Hkeys.
  assert (Hall : Forall (fun entry =>
                   succeeds (environment_variable f name entry)) d).
  { apply Forall_forall. intros [k v] Hin.
    rewrite Forall_forall in Hkeys. destruct (Hkeys _ Hin) as [key Hk].
    simpl in Hk. subst k. unfold succeeds, res.
    now rewrite environment_variable_out. }
  destruct (@for_each_succeeds _ d (environment_variable f name)
              (fun entry => proj1 (tidy_environment_variable f name entry))
              Hall) as [Hs Ho].
  unfold succeeds, res, out in *.
  rewrite (@environment_service_run f name cfg (PDict d) d Hg eq_refl).
  split; assumption.
Qed.

(** ** Volume mounts *)

Lemma contains_app_sep (c : ascii) a b :
  contains (String c EmptyString) (a ++ String c b) = true.
Proof. apply contains_Substring. now exists a, b. Qed.

(** The short form grades the severity: HIGH for the socket, MEDIUM for the
    other sensitive paths. *)
Lemma short_form_mount_severity f name source target :
  In source dangerous_mounts ->
  out (volume_mount f name (PStr (source ++ ":" ++ target)))
  = [dangerous_mount_finding
       (if String.eqb source "/var/run/docker.sock" then HIGH else MEDIUM)
       f name source].
Proof.
  intros Hin. unfold out, volume_mount.
  change (source ++ ":" ++ target) with (source ++ String colon target).
  change ":" with (String colon EmptyString).
  rewrite contains_app_sep. cbn [when].
  simpl in Hin.
  repeat (destruct Hin as [<-|Hin];
          [rewrite first_split_app_sep by reflexivity; reflexivity|]).
  destruct Hin.
Qed.

(** The long form does not: every sensitive source is reported HIGH. *)
Lemma long_form_mount_severity f name d source :
  lookup "source" d = Some (PStr source) ->
  In source dangerous_mounts ->
  out (volume_mount f name (PDict d))
  = [dangerous_mount_finding HIGH f name source].
Proof.
  intros Hl Hin. unfold out, volume_mount, bind, lift, get. rewrite Hl.
  assert (Hs : in_strs (PStr source) dangerous_mounts = true).
  { unfold in_strs. apply existsb_exists. exists source. split; trivial.
    apply String.eqb_refl. }
  rewrite Hs. reflexivity.
Qed.

(** C2 on the code: the same bind mount of [/proc] is reported MEDIUM when
    written in the short form and HIGH when written in the long form. *)
Theorem long_form_proc_mount_is_high :
  check_volume_mounts "docker-compose.yml" doc_proc_short_form []
  = (Ok tt,
     [dangerous_mount_finding MEDIUM "docker-compose.yml" (PStr "monitor")
        "/proc"])
  /\ check_volume_mounts "docker-compose.yml" doc_proc_long_form []
     = (Ok tt,
        [dangerous_mount_finding HIGH "docker-compose.yml" (PStr "monitor")
           "/proc"]).
Proof. split; reflexivity. Qed.

(** ** Port bindings *)

Lemma port_binding_out f name port :
  port_binding f name port []
  = (Ok tt,
     (match port with
      | PStr p => if all_interfaces p
                  then [all_interfaces_finding f name p] else []
      | _ => []
      end
      ++ (if mem (port_num port) dangerous_ports
          then [sensitive_port_finding f name (port_num port)] else []))
     %list).
Proof.
  unfold port_binding, bind.
  destruct port as [| b | z | p | l | d]; cbn [ret when];
    try (destruct (mem _ dangerous_ports); reflexivity).
  destruct (all_interfaces p); cbn [when ret];
    destruct (mem _ dangerous_ports); reflexivity.
Qed.

Lemma all_interfaces_iff p :
  all_interfaces p = true <->
  Prefix "0.0.0.0:" p \/ count colon p = 0 \/ count colon p = 1.
Proof.
  unfold all_interfaces.
  rewrite !orb_true_iff, startswith_Prefix, Nat.eqb_eq, negb_true_iff,
    <- not_true_iff_false, contains_Substring.
  change ":" with (String colon EmptyString).
  rewrite <- count_Substring. tauto.
Qed.

Lemma digits_no_sep sep d :
  (nat_of_ascii sep <? 48)%nat || (57 <? nat_of_ascii sep)%nat = true ->
  count sep (NilEmpty.string_of_uint d) = 0.
Proof.
  intros Hsep. induction d as [|d IH|d IH|d IH|d IH|d IH|d IH|d IH|d IH|d IH|d IH];
    cbn [NilEmpty.string_of_uint count]; [reflexivity|..]; rewrite IH;
    match goal with
    | |- (if Ascii.eqb ?c sep then _ else _) + _ = _ =>
        destruct (Ascii.eqb_spec c sep) as [<-|_]; [discriminate Hsep|reflexivity]
    end.
Qed.

Lemma int_str_no_sep sep z :
  sep = colon \/ sep = slash -> count sep (int_str z) = 0.
Proof.
  intros Hsep.
  assert (Hd : forall d, count sep (NilZero.string_of_uint d) = 0).
  { intros d. unfold NilZero.string_of_uint.
    destruct d; try (apply digits_no_sep; destruct Hsep; subst; reflexivity).
    destruct Hsep; subst; reflexivity. }
  unfold int_str, NilZero.string_of_int.
  destruct (Z.to_int z) as [d|d].
  - apply Hd.
  - simpl. rewrite Hd. destruct Hsep; subst; reflexivity.
Qed.

Lemma port_num_no_sep p :
  count colon p = 0 -> count slash p = 0 ->
  first (split slash (final (split colon p))) = p.
Proof.
  intros Hc Hs. rewrite (@split_no_sep colon p Hc). unfold final. simpl.
  now rewrite (@split_no_sep slash p Hs).
Qed.

(** The port number the code looks up: the text after the last [:], up to
    the first [/]. *)
Lemma port_num_int z : port_num (PInt z) = int_str z.
Proof.
  unfold port_num. change (str (PInt z)) with (int_str z).
  apply port_num_no_sep; apply int_str_no_sep; auto.
Qed.

Lemma port_num_bare container proto :
  count colon container = 0 -> count slash container = 0 ->
  count colon proto = 0 ->
  port_num (PStr container) = container
  /\ port_num (PStr (container ++ "/" ++ proto)) = container.
Proof.
  intros Hc Hs Hp. unfold port_num. cbn [str]. split.
  - now apply port_num_no_sep.
  - change (container ++ "/" ++ proto)
      with (container ++ String slash proto).
    assert (H : count colon (container ++ String slash proto) = 0).
    { clear Hs. induction container as [|c s IH]; simpl in *.
      - exact Hp.
      - destruct (Ascii.eqb c colon); [discriminate|]. now apply IH. }
    rewrite (@split_no_sep colon _ H). unfold final. cbn [last].
    now apply first_split_app_sep.
Qed.

Lemma port_num_host_container host container proto :
  count colon container = 0 -> count slash container = 0 ->
  count colon proto = 0 ->
  port_num (PStr (host ++ ":" ++ container)) = container
  /\ port_num (PStr (host ++ ":" ++ container ++ "/" ++ proto)) = container.
Proof.
  intros Hc Hs Hp. unfold port_num. cbn [str].
  change (host ++ ":" ++ container) with (host ++ String colon container).
  change (host ++ ":" ++ container ++ "/" ++ proto)
    with (host ++ String colon (container ++ "/" ++ proto)).
  rewrite !final_split_app_sep.
  exact (port_num_bare container proto Hc Hs Hp).
Qed.

Lemma port_binding_succeeds f name port : succeeds (port_binding f name port).
Proof. unfold succeeds, res. now rewrite port_binding_out. Qed.

Lemma port_exposure_service_covers f name cfg ports port x :
  get (PDict cfg) "ports" (PList []) = Ok (PList ports) ->
  In port ports ->
  In x (out (port_binding f name port)) ->
  succeeds (port_exposure_service f (name, PDict cfg))
  /\ In x (out (port_exposure_service f (name, PDict cfg))).
Proof.
  intros Hg Hin Hx.
  assert (Hrun : port_exposure_service f (name, PDict cfg) []
                 = for_each ports (port_binding f name) []).
  { unfold port_exposure_service, bind, lift. now rewrite Hg. }
  destruct (@for_each_succeeds _ ports (port_binding f name)
              (appends_port_binding f name)) as [Hs Ho].
  { apply Forall_forall. intros p _. apply port_binding_succeeds. }
  unfold succeeds, res, out in *. rewrite Hrun. split; [exact Hs|].
  rewrite Ho. apply in_flat_map. now exists port.
Qed.

(** C4, as the code has it.  Let the port check return on a document, and
    take a port entry of one of its services.  A string entry with at most
    one [:], or one that starts with [0.0.0.0:], yields the MEDIUM Network
    Security all-interfaces finding; an integer entry never does: it adds
    the sensitive-port finding when its decimal text is in the list and
    nothing otherwise.  An entry whose text after the last [:], cut at the
    first [/], is in the sensitive list yields the MEDIUM Network Security
    sensitive-port finding; that text is the integer itself, the bare
    string, or the container part of [host:container[/proto]]. *)
Theorem exposed_port_findings
    (compose_file : string) (data : pyval) (services : list (pyval * pyval))
    (service_name : pyval) (service_config : list (pyval * pyval))
    (ports : list pyval) (port : pyval)
    (Hservices : get data "services" (PDict []) = Ok (PDict services))
    (Hreturns : succeeds (check_port_exposure compose_file data))
    (Hservice : In (service_name, PDict service_config) services)
    (Hports : get (PDict service_config) "ports" (PList [])
              = Ok (PList ports))
    (Hport : In port ports) :
  let emitted := out (check_port_exposure compose_file data) in
  (forall p, port = PStr p ->
     (count colon p <= 1 \/ Prefix "0.0.0.0:" p) ->
     In (all_interfaces_finding compose_file service_name p) emitted)
  /\ (forall z, port = PInt z ->
        out (port_binding compose_file service_name port)
        = if mem (int_str z) dangerous_ports
          then [sensitive_port_finding compose_file service_name (int_str z)]
          else [])
  /\ (In (port_num port) dangerous_ports ->
        In (sensitive_port_finding compose_file service_name (port_num port))
           emitted)
  /\ (forall host container proto,
        count colon container = 0 -> count slash container = 0 ->
        count colon proto = 0 ->
        port = PStr container \/ port = PStr (container ++ "/" ++ proto)
        \/ port = PStr (host ++ ":" ++ container)
        \/ port = PStr (host ++ ":" ++ container ++ "/" ++ proto) ->
        port_num port = container)
  /\ (forall z, port = PInt z -> port_num port = int_str z).
Proof.
  intros emitted.
  assert (Hcover : forall x,
            In x (out (port_binding compose_file service_name port)) ->
            In x emitted).
  { intros x Hx. subst emitted.
    destruct (@over_services_covers data
                (port_exposure_service compose_file) services
                (appends_port_exposure_service compose_file)
                Hservices Hreturns) as [_ Hc].
    apply (Hc (service_name, PDict service_config) x Hservice).
    apply (@port_exposure_service_covers compose_file service_name
             service_config ports port x Hports Hport Hx). }
  split; [|split; [|split; [|split]]].
  - intros p -> Hp. apply Hcover. unfold out. rewrite port_binding_out.
    cbn [snd]. apply in_or_app. left.
    assert (Ha : all_interfaces p = true).
    { apply all_interfaces_iff. destruct Hp as [Hp|Hp]; [|now left].
      right. lia. }
    rewrite Ha. now left.
  - intros z ->. unfold out. rewrite port_binding_out. cbn [snd app].
    now rewrite port_num_int.
  - intros Hin. apply Hcover. unfold out. rewrite port_binding_out.
    cbn [snd]. apply in_or_app. right.
    apply mem_In in Hin. rewrite Hin. now left.
  - intros host container proto Hc Hs Hp [ -> | [ -> | [ -> | -> ] ] ].
    + apply (port_num_bare container proto Hc Hs Hp).
    + apply (port_num_bare container proto Hc Hs Hp).
    + apply (port_num_host_container host container proto Hc Hs Hp).
    + apply (port_num_host_container host container proto Hc Hs Hp).
  - intros z ->. apply port_num_int.
Qed.

Lemma exposed_port_findings_witness :
  In (all_interfaces_finding "docker-compose.yml" (PStr "web") "8080:80")
     (out (check_port_exposure "docker-compose.yml" doc_ports))
  /\ In (sensitive_port_finding "docker-compose.yml" (PStr "web") "80")
        (out (check_port_exposure "docker-compose.yml" doc_ports)).
Proof.
  pose proof (@exposed_port_findings "docker-compose.yml" doc_ports
                _ (PStr "web") _ _ (PStr "8080:80")
                eq_refl eq_refl (or_introl eq_refl) eq_refl
                (or_introl eq_refl)) as H.
  cbv zeta in H. destruct H as [H1 [_ [H3 _]]]. split.
  - apply (H1 "8080:80" eq_refl). left. simpl. lia.
  - apply H3. simpl. tauto.
Defined.

(** C4 fails as stated: the integer entry [8080] names no host interface,
    yet the check returns without any finding. *)
Lemma integer_port_not_reported :
  spec_no_host_interface (PInt 8080) = true
  /\ check_port_exposure "docker-compose.yml" doc_int_port [] = (Ok tt, [])
  /\ ~ exists x, In x (out (check_port_exposure "docker-compose.yml"
                             doc_int_port))
                 /\ severity x = MEDIUM.
Proof.
  split; [reflexivity|]. split; [reflexivity|].
  intros [x [[] _]].
Qed.

(** The sensitive-port test reads the last component only: a sensitive host
    port published on the loopback interface gives no finding. *)
Remark loopback_host_port_not_reported :
  out (port_binding "docker-compose.yml" (PStr "web")
         (PStr "127.0.0.1:22:2222")) = [].
Proof. reflexivity. Qed.

(** * Further properties of the auditor *)

(** ** What the checks can emit *)

Lemma emits_ret A P (a : A) : emits P (ret a).
Proof. split; [apply appends_ret | intros x []]. Qed.

Lemma emits_lift A P (r : result A) : emits P (lift r).
Proof. split; [apply appends_lift | intros x []]. Qed.

Lemma emits_add_finding (P : Finding -> Prop) sev cat msg f :
  P (mkFinding sev cat msg f 0) -> emits P (add_finding sev cat msg f).
Proof.
  intros Hp. split; [apply appends_add_finding|].
  intros x [<-|[]]. exact Hp.
Qed.

Lemma emits_bind A B P (m : M A) (k : A -> M B) :
  emits P m -> (forall a, emits P (k a)) -> emits P (bind m k).
Proof.
  intros [Ha Hc] Hk. split.
  - apply appends_bind; [exact Ha | intros a; apply Hk].
  - intros x. unfold out.
    rewrite (@bind_run _ _ m k Ha (fun a => proj1 (Hk a)) []).
    destruct (res m) as [a|e]; cbn [snd app]; [|apply Hc].
    intros Hx. apply in_app_or in Hx. destruct Hx as [Hx|Hx].
    + now apply Hc.
    + now apply (proj2 (Hk a)).
Qed.

Lemma emits_when P b (m : M unit) : emits P m -> emits P (when b m).
Proof. destruct b; simpl; [trivial | intros _; apply emits_ret]. Qed.

Lemma emits_for_each A P (xs : list A) (body : A -> M unit) :
  (forall x, emits P (body x)) -> emits P (for_each xs body).
Proof.
  intros Hb. induction xs as [|x xs IH]; simpl.
  - apply emits_ret.
  - apply emits_bind; [apply Hb | intros _; exact IH].
Qed.

Lemma emits_weaken A (P Q : Finding -> Prop) (m : M A) :
  (forall x, P x -> Q x) -> emits P m -> emits Q m.
Proof. intros H [Ha Hp]. split; [exact Ha | intros x Hx; auto]. Qed.

Lemma emits_over_services P data body :
  (forall item, emits P (body item)) -> emits P (over_services data body).
Proof.
  intros H. unfold over_services.
  apply emits_bind; [apply emits_lift | intros services].
  apply emits_bind; [apply emits_lift | intros its].
  now apply emits_for_each.
Qed.

Lemma lower_app a b : lower (a ++ b) = lower a ++ lower b.
Proof. induction a as [|c a IH]; simpl; [reflexivity | now rewrite IH]. Qed.

(** A message that mentions privileged mode is exempted by the gate. *)
Lemma privileged_message_exempted x pre post :
  message x = pre ++ "privileged" ++ post -> exempted x = true.
Proof.
  intros H. apply exempted_keyword. exists "privileged".
  split; [simpl; tauto|].
  rewrite H, !lower_app. exists (lower pre), (lower post). reflexivity.
Qed.

Lemma privileged_not_blocking x pre post :
  message x = pre ++ "privileged" ++ post -> blocking x = false.
Proof.
  intros H. unfold blocking.
  rewrite (privileged_message_exempted x pre post H). apply andb_false_r.
Qed.

Lemma not_blocking_unless_high x : severity x <> HIGH -> blocking x = false.
Proof.
  intros H. unfold blocking, is_high.
  destruct (severity x); try reflexivity. congruence.
Qed.

Ltac label :=
  unfold labelled; cbn [file line severity category];
  split; [reflexivity|]; split; [reflexivity|];
  split; [simpl; tauto|];
  first
    [ intros _; simpl; tauto
    | intros Hb; rewrite not_blocking_unless_high in Hb
        by (cbn [severity]; discriminate);
      discriminate Hb ].

Ltac shape :=
  repeat first
    [ apply emits_ret
    | apply emits_lift
    | apply emits_bind; [|intro]
    | apply emits_when
    | apply emits_for_each; intro
    | apply emits_add_finding; label
    | match goal with
      | |- emits _ (let (_, _) := ?x in _) => destruct x
      | |- emits _ (match ?x with _ => _ end) => destruct x
      | |- emits _ (if ?b then _ else _) => destruct b
      | |- emits _ (let _ := if ?b then _ else _ in _) => destruct b; cbv zeta
      end ].

Lemma emits_privileged_containers f d :
  emits (labelled f [(HIGH, "Container Security");
                     (MEDIUM, "Container Security")])
    (check_privileged_containers f d).
Proof.
  apply emits_over_services. intros [name cfg].
  unfold privileged_containers_service.
  apply emits_bind; [apply emits_lift | intros privileged].
  apply emits_bind.
  { apply emits_when. apply emits_add_finding.
    unfold labelled; cbn [file line severity category].
    repeat split; [simpl; tauto|].
    intros Hb.
    rewrite (@privileged_not_blocking _
               ("Service '" ++ str name ++ "' runs in ") " mode") in Hb.
    - discriminate Hb.
    - cbn [message]. rewrite !append_assoc. reflexivity. }
  intros _.
  apply emits_bind; [apply emits_lift | intros cap_add].
  apply emits_bind; [apply emits_lift | intros caps].
  apply emits_bind; [shape|intros _].
  apply emits_bind; [apply emits_lift | intros command].
  apply emits_when. apply emits_add_finding.
  unfold labelled; cbn [file line severity category].
  repeat split; [simpl; tauto|].
  intros Hb.
  rewrite (@privileged_not_blocking _
             ("Service '" ++ str name ++ "' uses --") " in command") in Hb.
  - discriminate Hb.
  - cbn [message]. rewrite !append_assoc. reflexivity.
Qed.

Lemma emits_host_network_mode f d :
  emits (labelled f [(MEDIUM, "Network Security")])
    (check_host_network_mode f d).
Proof.
  apply emits_over_services. intros item.
  unfold host_network_mode_service. shape.
Qed.

Lemma emits_volume_mounts f d :
  emits (labelled f [(HIGH, "Volume Security"); (MEDIUM, "Volume Security")])
    (check_volume_mounts f d).
Proof.
  apply emits_over_services. intros item.
  unfold volume_mounts_service, volume_mount. shape.
Qed.

Lemma emits_environment_variables f d :
  emits (labelled f [(HIGH, "Secret Management")])
    (check_environment_variables f d).
Proof.
  apply emits_over_services. intros item.
  unfold environment_variables_service, environment_variable, secret_finding.
  shape.
Qed.

Lemma emits_user_configuration f d :
  emits (labelled f [(MEDIUM, "Container Security");
                     (LOW, "Container Security")])
    (check_user_configuration f d).
Proof.
  apply emits_over_services. intros item.
  unfold user_configuration_service. shape.
Qed.

Lemma emits_security_options f d :
  emits (labelled f [(LOW, "Container Security");
                     (INFO, "Container Security")])
    (check_security_options f d).
Proof.
  apply emits_over_services. intros item.
  unfold security_options_service. shape.
Qed.

Lemma emits_network_security f d :
  emits (labelled f [(LOW, "Network Security"); (INFO, "Network Security")])
    (check_network_security f d).
Proof.
  unfold check_network_security, network_security_service, external_network.
  shape.
Qed.

Lemma emits_port_exposure f d :
  emits (labelled f [(MEDIUM, "Network Security")]) (check_port_exposure f d).
Proof.
  apply emits_over_services. intros item.
  unfold port_exposure_service, port_binding. shape.
Qed.

Lemma emits_restart_policies f d :
  emits (labelled f [(LOW, "Container Security")])
    (check_restart_policies f d).
Proof.
  apply emits_over_services. intros item.
  unfold restart_policies_service. shape.
Qed.

Lemma emits_image_security f d :
  emits (labelled f [(LOW, "Image Security"); (MEDIUM, "Image Security")])
    (check_image_security f d).
Proof.
  apply emits_over_services. intros item.
  unfold image_security_service, emit, unpinned_finding, untrusted_finding.
  shape.
Qed.

Lemma labelled_weaken f L L' x :
  incl L L' -> labelled f L x -> labelled f L' x.
Proof.
  intros Hi [H1 [H2 [H3 H4]]]. repeat split; trivial. now apply Hi.
Qed.

(** X1.  Each check uses its own severities and one category: the
    privileged check HIGH or MEDIUM Container Security, the host-network
    and port checks MEDIUM Network Security, the volume check HIGH or
    MEDIUM Volume Security, the environment check HIGH Secret Management,
    the user check MEDIUM or LOW and the security-options check LOW or INFO
    Container Security, the network check LOW or INFO Network Security, the
    restart check LOW Container Security, the image check LOW or MEDIUM
    Image Security.  Every finding carries the path of the audited file
    and line 0. *)
Theorem labels_of_each_check (compose_file : string) (data : pyval)
    (x : Finding) :
  let by_check (c : check) (labels : list (Severity * string)) :=
    In x (out (c compose_file data)) ->
    In (severity x, category x) labels
    /\ file x = compose_file /\ line x = 0%Z in
  by_check check_privileged_containers
    [(HIGH, "Container Security"); (MEDIUM, "Container Security")]
  /\ by_check check_host_network_mode [(MEDIUM, "Network Security")]
  /\ by_check check_volume_mounts
       [(HIGH, "Volume Security"); (MEDIUM, "Volume Security")]
  /\ by_check check_environment_variables [(HIGH, "Secret Management")]
  /\ by_check check_user_configuration
       [(MEDIUM, "Container Security"); (LOW, "Container Security")]
  /\ by_check check_security_options
       [(LOW, "Container Security"); (INFO, "Container Security")]
  /\ by_check check_network_security
       [(LOW, "Network Security"); (INFO, "Network Security")]
  /\ by_check check_port_exposure [(MEDIUM, "Network Security")]
  /\ by_check check_restart_policies [(LOW, "Container Security")]
  /\ by_check check_image_security
       [(LOW, "Image Security"); (MEDIUM, "Image Security")].
Proof.
  cbv zeta.
  assert (H : forall (c : check) L,
            emits (labelled compose_file L) (c compose_file data) ->
            In x (out (c compose_file data)) ->
            In (severity x, category x) L
            /\ file x = compose_file /\ line x = 0%Z).
  { intros c L [_ He] Hx. destruct (He x Hx) as [H1 [H2 [H3 _]]]. auto. }
  repeat match goal with |- _ /\ _ => split end; intros Hx.
  all: first
    [ apply (H _ _ (emits_privileged_containers compose_file data) Hx)
    | apply (H _ _ (emits_host_network_mode compose_file data) Hx)
    | apply (H _ _ (emits_volume_mounts compose_file data) Hx)
    | apply (H _ _ (emits_environment_variables compose_file data) Hx)
    | apply (H _ _ (emits_user_configuration compose_file data) Hx)
    | apply (H _ _ (emits_security_options compose_file data) Hx)
    | apply (H _ _ (emits_network_security compose_file data) Hx)
    | apply (H _ _ (emits_port_exposure compose_file data) Hx)
    | apply (H _ _ (emits_restart_policies compose_file data) Hx)
    | apply (H _ _ (emits_image_security compose_file data) Hx) ].
Qed.

(** ** The run as a whole *)

Lemma emits_security_checks c f d :
  In c security_checks -> emits (labelled f rule_labels) (c f d).
Proof.
  unfold security_checks. simpl.
  intros [<-|[<-|[<-|[<-|[<-|[<-|[<-|[<-|[<-|[<-|[]]]]]]]]]]];
    eapply emits_weaken;
    try (intros x; apply labelled_weaken);
    try first
      [ apply emits_privileged_containers
      | apply emits_host_network_mode
      | apply emits_volume_mounts
      | apply emits_environment_variables
      | apply emits_user_configuration
      | apply emits_security_options
      | apply emits_network_security
      | apply emits_port_exposure
      | apply emits_restart_policies
      | apply emits_image_security ];
    intros p Hp; simpl in Hp; simpl;
    repeat (destruct Hp as [<-|Hp]; [tauto|]); destruct Hp.
Qed.

Lemma emits_for_each_in A P (xs : list A) (body : A -> M unit) :
  (forall x, In x xs -> emits P (body x)) -> emits P (for_each xs body).
Proof.
  induction xs as [|x xs IH]; intros Hb; simpl.
  - apply emits_ret.
  - apply emits_bind; [apply Hb; now left | intros _].
    apply IH. intros y Hy. apply Hb. now right.
Qed.

Lemma emits_audit_try P f loaded :
  (forall c d, In c security_checks -> emits P (c f d)) ->
  emits P (audit_try security_checks f loaded).
Proof.
  intros H. unfold audit_try.
  apply emits_bind; [apply emits_lift | intros data].
  destruct (negb (truthy data)); [apply emits_ret|].
  apply emits_bind; [apply emits_lift | intros b].
  destruct (negb b); [apply emits_ret|].
  apply emits_for_each_in. intros c Hc. now apply H.
Qed.

(** One file: what the [try] block added, then the ERROR finding when it
    raised. *)
Lemma audit_compose_file_run f loaded fs :
  audit_compose_file f loaded fs
  = (Ok tt,
     (fs ++ out (audit_try security_checks f loaded)
         ++ match res (audit_try security_checks f loaded) with
            | Raise e => [processing_error f e]
            | Ok _ => []
            end)%list).
Proof.
  assert (Ha : appends (audit_try security_checks f loaded)).
  { apply (@emits_audit_try (fun _ => True)). intros c d Hc.
    split; [now apply appends_security_checks | trivial]. }
  unfold audit_compose_file, audit_with. rewrite (Ha fs).
  destruct (res (audit_try security_checks f loaded)) as [u|e].
  - now rewrite app_nil_r.
  - unfold emit, add_finding. cbn. now rewrite <- app_assoc.
Qed.

Lemma file_findings_run cf :
  file_findings cf
  = (out (audit_try security_checks (fst cf) (snd cf))
     ++ if raised cf
        then match res (audit_try security_checks (fst cf) (snd cf)) with
             | Raise e => [processing_error (fst cf) e]
             | Ok _ => []
             end
        else [])%list.
Proof.
  unfold file_findings, out at 1, raised.
  rewrite audit_compose_file_run. cbn [snd app].
  destruct (res (audit_try security_checks (fst cf) (snd cf))); reflexivity.
Qed.

Lemma run_audit_findings files fs0 :
  snd (run_audit files fs0) = (fs0 ++ flat_map file_findings files)%list.
Proof.
  unfold run_audit, bind.
  assert (H : forall fs,
             for_each files
               (fun cf => audit_compose_file (fst cf) (snd cf)) fs
             = (Ok tt, (fs ++ flat_map file_findings files)%list)).
  { induction files as [|cf files IH]; intros fs; simpl.
    - unfold ret. now rewrite app_nil_r.
    - unfold bind. rewrite audit_compose_file_run.
      rewrite IH. unfold file_findings at 2, out.
      rewrite audit_compose_file_run. cbn [snd app].
      now rewrite <- !app_assoc. }
  rewrite H. reflexivity.
Qed.

(** X2.  A run never raises.  Its findings are the findings the auditor
    already held followed, file by file in the order of the list, by what
    the audit of each file gives on its own; the report counts the files
    and the findings. *)
Theorem run_audit_file_by_file
    (compose_files : list (string * result pyval)) (fs0 : list Finding) :
  exists report,
    run_audit compose_files fs0 = (Ok report, findings report)
    /\ findings report
       = (fs0 ++ flat_map file_findings compose_files)%list
    /\ total_files report = List.length compose_files
    /\ total_findings report
       = List.length fs0
         + list_sum (map (fun cf => List.length (file_findings cf))
                       compose_files).
Proof.
  destruct (run_audit_returns compose_files fs0) as [r [Hr [Ht Hf]]].
  exists r. split; [exact Hr|].
  assert (Hfs : findings r
                = (fs0 ++ flat_map file_findings compose_files)%list).
  { rewrite <- run_audit_findings. now rewrite Hr. }
  split; [exact Hfs|]. split; [exact Hf|].
  rewrite Ht, Hfs, length_app. f_equal.
  clear. induction compose_files as [|cf l IH]; simpl; [reflexivity|].
  now rewrite length_app, IH.
Qed.

Lemma run_audit_run files fs0 :
  run_audit files fs0
  = let fs := (fs0 ++ flat_map file_findings files)%list in
    (Ok (mkResult fs
           (fold_left (fun counts f => bump (severity f) counts) fs
              severity_counts0)
           (List.length files) (List.length fs)),
     fs).
Proof.
  cbv zeta. unfold run_audit, bind.
  assert (H : forall fs,
             for_each files
               (fun cf => audit_compose_file (fst cf) (snd cf)) fs
             = (Ok tt, (fs ++ flat_map file_findings files)%list)).
  { induction files as [|cf files IH]; intros fs; simpl.
    - unfold ret. now rewrite app_nil_r.
    - unfold bind. rewrite audit_compose_file_run.
      rewrite IH. unfold file_findings at 2, out.
      rewrite audit_compose_file_run. cbn [snd app].
      now rewrite <- !app_assoc. }
  rewrite H. reflexivity.
Qed.

Lemma run_audit_report files fs0 :
  exists report,
    run_audit files fs0 = (Ok report, findings report)
    /\ findings report = (fs0 ++ flat_map file_findings files)%list
    /\ summary report
       = fold_left (fun counts f => bump (severity f) counts)
           (findings report) severity_counts0
    /\ total_files report = List.length files
    /\ total_findings report = List.length (findings report).
Proof.
  rewrite run_audit_run. cbv zeta.
  exists (mkResult (fs0 ++ flat_map file_findings files)
            (fold_left (fun counts f => bump (severity f) counts)
               (fs0 ++ flat_map file_findings files) severity_counts0)
            (List.length files)
            (List.length (fs0 ++ flat_map file_findings files))).
  repeat split.
Qed.

Lemma bump_keys sev counts : map fst (bump sev counts) = map fst counts.
Proof.
  induction counts as [|[s n] counts IH]; simpl; [reflexivity|].
  destruct (Severity_eqb s sev); simpl; [reflexivity | now rewrite IH].
Qed.

Lemma count_of_bump s sev counts :
  NoDup (map fst counts) -> In sev (map fst counts) ->
  count_of s (bump sev counts)
  = count_of s counts + (if Severity_eqb sev s then 1 else 0).
Proof.
  induction counts as [|[k n] counts IH]; simpl; intros Hnd Hin.
  - destruct Hin.
  - inversion Hnd as [|? ? Hk Hnd']; subst.
    destruct (Severity_eqb k sev) eqn:Hks.
    + apply Severity_eqb_eq in Hks. subst k. simpl.
      destruct (Severity_eqb sev s); lia.
    + simpl. destruct Hin as [->|Hin].
      * assert (Severity_eqb sev sev = true) by now apply Severity_eqb_eq.
        congruence.
      * rewrite (IH Hnd' Hin).
        destruct (Severity_eqb k s) eqn:Hk_s; [|reflexivity].
        apply Severity_eqb_eq in Hk_s. subst k.
        destruct (Severity_eqb sev s) eqn:Hss; [|lia].
        apply Severity_eqb_eq in Hss. subst sev.
        assert (Severity_eqb s s = true) by now apply Severity_eqb_eq.
        congruence.
Qed.

Lemma count_of_tally s fs counts :
  map fst counts = map fst severity_counts0 ->
  count_of s
    (fold_left (fun counts f => bump (severity f) counts) fs counts)
  = count_of s counts + List.length (filter (has_severity s) fs).
Proof.
  revert counts. induction fs as [|f fs IH]; intros counts Hk; simpl.
  - lia.
  - rewrite IH by (now rewrite bump_keys).
    rewrite count_of_bump.
    + unfold has_severity. destruct (Severity_eqb (severity f) s); simpl; lia.
    + rewrite Hk. simpl. repeat constructor; simpl; intuition discriminate.
    + rewrite Hk. simpl. destruct (severity f); tauto.
Qed.

Lemma tally_keys fs counts :
  map fst (fold_left (fun counts f => bump (severity f) counts) fs counts)
  = map fst counts.
Proof.
  revert counts. induction fs as [|f fs IH]; intros counts; simpl.
  - reflexivity.
  - now rewrite IH, bump_keys.
Qed.

Lemma severity_partition fs :
  List.length fs
  = List.length (filter (has_severity HIGH) fs)
    + List.length (filter (has_severity MEDIUM) fs)
    + List.length (filter (has_severity LOW) fs)
    + List.length (filter (has_severity INFO) fs)
    + List.length (filter (has_severity ERROR) fs).
Proof.
  unfold has_severity.
  induction fs as [|f fs IH]; cbn [filter List.length]; [reflexivity|].
  destruct (severity f); cbn [Severity_eqb List.length]; lia.
Qed.

(** X3.  In the report of a run, the summary has the five severities in
    the order HIGH, MEDIUM, LOW, INFO, ERROR; the count of each severity is
    the number of findings of that severity; and the five counts add up to
    [total_findings]. *)
Theorem summary_counts_findings
    (compose_files : list (string * result pyval)) (fs0 : list Finding) :
  exists report,
    run_audit compose_files fs0 = (Ok report, findings report)
    /\ map fst (summary report) = [HIGH; MEDIUM; LOW; INFO; ERROR]
    /\ (forall sev,
          count_of sev (summary report)
          = List.length (filter (has_severity sev) (findings report)))
    /\ total_findings report
       = count_of HIGH (summary report) + count_of MEDIUM (summary report)
         + count_of LOW (summary report) + count_of INFO (summary report)
         + count_of ERROR (summary report).
Proof.
  destruct (run_audit_report compose_files fs0)
    as [r [Hr [Hf [Hs [Hn Ht]]]]].
  exists r. split; [exact Hr|].
  split; [rewrite Hs; now rewrite tally_keys|].
  assert (H : forall sev,
            count_of sev (summary r)
            = List.length (filter (has_severity sev) (findings r))).
  { intros sev. rewrite Hs, count_of_tally by reflexivity.
    destruct sev; reflexivity. }
  split; [exact H|].
  rewrite !H, Ht. apply severity_partition.
Qed.

Lemma audit_try_no_error f loaded x :
  In x (out (audit_try security_checks f loaded)) -> severity x <> ERROR.
Proof.
  apply (proj2 (@emits_audit_try (fun x => severity x <> ERROR) f loaded
                  (fun c d Hc => @tidy_security_checks c f d Hc))).
Qed.

Lemma file_errors cf :
  List.length (filter (has_severity ERROR) (file_findings cf))
  = if raised cf then 1 else 0.
Proof.
  rewrite file_findings_run, filter_app, length_app.
  rewrite (@filter_none _ (has_severity ERROR)
             (out (audit_try security_checks (fst cf) (snd cf)))).
  - unfold raised.
    destruct (res (audit_try security_checks (fst cf) (snd cf)));
      reflexivity.
  - intros x Hx. unfold has_severity. apply not_true_iff_false.
    rewrite Severity_eqb_eq. now apply (@audit_try_no_error (fst cf) (snd cf)).
Qed.

(** X4.  A file adds exactly one ERROR finding when its [try] block ends in
    the [except] clause and none otherwise, so in a run of a fresh auditor
    the ERROR count is the number of such files and never exceeds
    [total_files]; a file that cannot be opened or parsed adds that ERROR
    finding and nothing else. *)
Theorem error_count_is_failed_files
    (compose_files : list (string * result pyval)) :
  exists report,
    run_audit compose_files [] = (Ok report, findings report)
    /\ count_of ERROR (summary report)
       = List.length (filter raised compose_files)
    /\ count_of ERROR (summary report) <= total_files report
    /\ forall f e,
         raised (f, Raise e) = true
         /\ file_findings (f, Raise e) = [processing_error f e].
Proof.
  destruct (run_audit_report compose_files [])
    as [r [Hr [Hf [Hs [Hn Ht]]]]].
  exists r. split; [exact Hr|].
  rewrite Hs, count_of_tally, Hf, Hn by reflexivity.
  cbn [app].
  assert (H : List.length
                (filter (has_severity ERROR)
                   (flat_map file_findings compose_files))
              = List.length (filter raised compose_files)).
  { clear. induction compose_files as [|cf l IH]; simpl; [reflexivity|].
    rewrite filter_app, length_app, file_errors, IH.
    destruct (raised cf); reflexivity. }
  split; [simpl; exact H|]. split.
  - simpl. rewrite H. apply filter_length_le.
  - intros f e. split; reflexivity.
Qed.

Lemma file_findings_labelled cf x :
  In x (file_findings cf) ->
  labelled (fst cf) rule_labels x
  \/ exists e, x = processing_error (fst cf) e.
Proof.
  rewrite file_findings_run. intros Hx. apply in_app_or in Hx.
  destruct Hx as [Hx|Hx].
  - left. revert x Hx.
    apply (proj2 (@emits_audit_try (labelled (fst cf) rule_labels)
                    (fst cf) (snd cf)
                    (fun c d Hc => @emits_security_checks c (fst cf) d Hc))).
  - right. destruct (raised cf); [|destruct Hx].
    destruct (res (audit_try security_checks (fst cf) (snd cf))) as [u|e];
      [destruct Hx|].
    destruct Hx as [<-|[]]. now exists e.
Qed.

Lemma run_findings_labelled files x :
  In x (flat_map file_findings files) ->
  exists cf, In cf files
             /\ (labelled (fst cf) rule_labels x
                 \/ exists e, x = processing_error (fst cf) e).
Proof.
  intros Hx. apply in_flat_map in Hx. destruct Hx as [cf [Hcf Hx]].
  exists cf. split; [exact Hcf|]. now apply file_findings_labelled.
Qed.

(** X5.  In a run of a fresh auditor, every critical issue is a HIGH
    finding of category Volume Security or Secret Management: findings of
    the privileged-container check are always exempted, and no other check
    emits HIGH.  So a run that exits with status 1 has found such a
    finding. *)
Theorem critical_issues_are_mounts_or_secrets
    (compose_files : list (string * result pyval)) :
  exists report,
    run_audit compose_files [] = (Ok report, findings report)
    /\ (forall x, In x (critical_issues report) ->
          In x (findings report)
          /\ severity x = HIGH
          /\ (category x = "Volume Security"
              \/ category x = "Secret Management"))
    /\ (main compose_files = 1%Z ->
        exists x, In x (findings report)
                  /\ severity x = HIGH
                  /\ (category x = "Volume Security"
                      \/ category x = "Secret Management")).
Proof.
  destruct (run_audit_report compose_files [])
    as [r [Hr [Hf [Hs [Hn Ht]]]]].
  exists r. split; [exact Hr|].
  assert (Hc : forall x, In x (critical_issues r) ->
            In x (findings r) /\ severity x = HIGH
            /\ (category x = "Volume Security"
                \/ category x = "Secret Management")).
  { intros x Hx. rewrite critical_issues_filter in Hx.
    apply filter_In in Hx. destruct Hx as [Hin Hb].
    split; [exact Hin|]. split.
    - unfold blocking in Hb. apply andb_true_iff in Hb.
      now apply Severity_eqb_eq, (proj1 Hb).
    - rewrite Hf in Hin. cbn [app] in Hin.
      destruct (run_findings_labelled compose_files x Hin)
        as [cf [_ [[_ [_ [_ Hl]]] | [e ->]]]].
      + now apply Hl.
      + discriminate Hb. }
  split; [exact Hc|].
  intros Hm. unfold main in Hm. rewrite Hr in Hm. cbn [fst] in Hm.
  unfold exit_status in Hm.
  destruct (critical_issues r) as [|x xs] eqn:Hx; [discriminate Hm|].
  exists x. apply Hc. now left.
Qed.

(** X6.  Every finding in the report of a run of a fresh auditor names one
    of the audited files and has line 0. *)
Theorem findings_name_an_audited_file
    (compose_files : list (string * result pyval)) :
  exists report,
    run_audit compose_files [] = (Ok report, findings report)
    /\ forall x, In x (findings report) ->
         In (file x) (map fst compose_files) /\ line x = 0%Z.
Proof.
  destruct (run_audit_report compose_files [])
    as [r [Hr [Hf [Hs [Hn Ht]]]]].
  exists r. split; [exact Hr|].
  intros x Hx. rewrite Hf in Hx. cbn [app] in Hx.
  destruct (run_findings_labelled compose_files x Hx)
    as [cf [Hcf [[H1 [H2 _]] | [e ->]]]].
  - split; [|exact H2]. rewrite H1. now apply in_map.
  - split; [|reflexivity]. cbn [file processing_error]. now apply in_map.
Qed.

(** ** Service by service *)

Lemma for_each_when_add A (l : list A) (g : A -> bool) sev cat
    (msg : A -> string) f fs :
  for_each l (fun x => when (g x) (add_finding sev cat (msg x) f)) fs
  = (Ok tt,
     (fs ++ map (fun x => mkFinding sev cat (msg x) f 0) (filter g l))%list).
Proof.
  revert fs. induction l as [|x l IH]; intros fs; simpl.
  - unfold ret. now rewrite app_nil_r.
  - unfold bind. destruct (g x); simpl.
    + unfold add_finding at 1. rewrite IH. now rewrite <- app_assoc.
    + unfold ret. now rewrite IH.
Qed.

Lemma and_regroup3 (A B C : Prop) : (A /\ B) /\ C -> A /\ B /\ C.
Proof. tauto. Qed.

Lemma and_regroup5 (A B C D E : Prop) :
  (A /\ B /\ C /\ D) /\ E -> A /\ B /\ C /\ D /\ E.
Proof. tauto. Qed.

Lemma privileged_containers_service_appends f item :
  appends (privileged_containers_service f item).
Proof.
  destruct item as [name cfg].
  unfold privileged_containers_service.
  repeat first
    [ apply appends_bind; [|intro]
    | apply appends_lift
    | apply appends_when
    | apply appends_add_finding
    | apply appends_for_each; intro ].
Qed.

Lemma volume_mounts_service_appends f item :
  appends (volume_mounts_service f item).
Proof.
  assert (H : tidy (volume_mounts_service f item)).
  { unfold volume_mounts_service. frame; try apply tidy_volume_mount. }
  exact (proj1 H).
Qed.

Lemma security_options_service_appends f item :
  appends (security_options_service f item).
Proof.
  assert (H : tidy (security_options_service f item)).
  { unfold security_options_service. frame. }
  exact (proj1 H).
Qed.

(** A service with a list of volumes on which the check returns: its
    findings are those of the entries, in order. *)
Lemma volume_mounts_service_by_entry f name cfg volumes :
  get (PDict cfg) "volumes" (PList []) = Ok (PList volumes) ->
  succeeds (volume_mounts_service f (name, PDict cfg)) ->
  out (volume_mounts_service f (name, PDict cfg))
  = flat_map (fun v => out (volume_mount f name v)) volumes.
Proof.
  intros Hg Hs.
  assert (Hrun : volume_mounts_service f (name, PDict cfg) []
                 = for_each volumes (volume_mount f name) []).
  { unfold volume_mounts_service, bind, lift. now rewrite Hg. }
  assert (Hall : Forall (fun v => succeeds (volume_mount f name v)) volumes).
  { apply for_each_succeeds_inv;
      [intros v; apply tidy_volume_mount|].
    unfold succeeds, res in *. now rewrite <- Hrun. }
  unfold out at 1. rewrite Hrun.
  apply (@for_each_succeeds _ volumes (volume_mount f name)
           (fun v => proj1 (tidy_volume_mount f name v)) Hall).
Qed.

(** The findings of the volume check around the volumes of one service. *)
Lemma volume_check_at f data before name cfg after volumes :
  get data "services" (PDict [])
  = Ok (PDict (before ++ (name, PDict cfg) :: after)%list) ->
  succeeds (check_volume_mounts f data) ->
  get (PDict cfg) "volumes" (PList []) = Ok (PList volumes) ->
  out (check_volume_mounts f data)
  = (flat_map (fun item => out (volume_mounts_service f item)) before
     ++ flat_map (fun v => out (volume_mount f name v)) volumes
     ++ flat_map (fun item => out (volume_mounts_service f item)) after)%list.
Proof.
  intros Hg Hs Hv.
  destruct (@over_services_at data (volume_mounts_service f) before
              (name, PDict cfg) after (volume_mounts_service_appends f)
              Hg Hs) as [Hsvc Ho].
  unfold check_volume_mounts. rewrite Ho.
  now rewrite (@volume_mounts_service_by_entry f name cfg volumes Hv Hsvc).
Qed.

(** X7.  For a service whose [cap_add] is a list, the privileged check
    returns and emits, in this order: the HIGH privileged-mode finding when
    [privileged] is true; one MEDIUM finding for every occurrence in the
    list of one of the four dangerous capability names, repeats included;
    and the HIGH command finding when [command] is a string that contains
    [--privileged].  A [command] given as a list is not inspected.  When
    [cap_add] is null the check raises after the privileged-mode finding.
    When the check returns on a document, the findings of the service stand
    in its output between those of the services before and after. *)
Theorem privileged_service_findings
    (compose_file : string) (service_name : pyval)
    (service_config : list (pyval * pyval)) (privileged command : pyval) :
  get (PDict service_config) "privileged" (PBool false) = Ok privileged ->
  get (PDict service_config) "command" (PStr EmptyString) = Ok command ->
  let run := privileged_containers_service compose_file
               (service_name, PDict service_config) in
  let mode :=
    if truthy privileged
    then [mkFinding HIGH "Container Security"
            ("Service '" ++ str service_name ++ "' runs in privileged mode")
            compose_file 0]
    else [] in
  (forall caps,
     get (PDict service_config) "cap_add" (PList []) = Ok (PList caps) ->
     run []
     = (Ok tt,
        (mode
         ++ map (fun cap =>
                   mkFinding MEDIUM "Container Security"
                     ("Service '" ++ str service_name
                        ++ "' has dangerous capability: " ++ str cap)
                     compose_file 0)
              (filter (fun cap => in_strs cap dangerous_caps) caps)
         ++ match command with
            | PStr s =>
                if contains "--privileged" s
                then [mkFinding HIGH "Container Security"
                        ("Service '" ++ str service_name
                           ++ "' uses --privileged in command")
                        compose_file 0]
                else []
            | _ => []
            end)%list))
  /\ (get (PDict service_config) "cap_add" (PList []) = Ok PNone ->
      run [] = (Raise (TypeError "'NoneType' object is not iterable"), mode))
  /\ (forall data before after,
        get data "services" (PDict [])
        = Ok (PDict (before
                     ++ (service_name, PDict service_config) :: after)%list) ->
        succeeds (check_privileged_containers compose_file data) ->
        out (check_privileged_containers compose_file data)
        = (flat_map (fun item =>
                       out (privileged_containers_service compose_file item))
             before
           ++ out run
           ++ flat_map (fun item =>
                          out (privileged_containers_service compose_file
                                 item))
                after)%list).
Proof.
  intros Hp Hc run mode. apply and_regroup3. split.
  2:{ intros data before after Hg Hs. subst run.
      apply (@over_services_at data
               (privileged_containers_service compose_file) before
               (service_name, PDict service_config) after
               (privileged_containers_service_appends compose_file) Hg Hs). }
  subst run mode.
  unfold privileged_containers_service, bind, lift.
  rewrite Hp. split.
  - intros caps Hcaps. rewrite Hcaps. cbn [iter].
    assert (Hmode : forall fs,
              when (truthy privileged)
                (add_finding HIGH "Container Security"
                   ("Service '" ++ str service_name
                      ++ "' runs in privileged mode") compose_file) fs
              = (Ok tt,
                 (fs ++ if truthy privileged
                        then [mkFinding HIGH "Container Security"
                                ("Service '" ++ str service_name
                                   ++ "' runs in privileged mode")
                                compose_file 0]
                        else [])%list)).
    { intros fs. destruct (truthy privileged); simpl.
      - reflexivity.
      - unfold ret. now rewrite app_nil_r. }
    rewrite Hmode, for_each_when_add, Hc. cbn [app].
    destruct command as [| b | z | s | l | d]; cbn [when ret];
      try (now rewrite app_nil_r).
    destruct (contains "--privileged" s); cbn [when ret].
    + unfold add_finding. now rewrite <- app_assoc.
    + now rewrite !app_nil_r.
  - intros Hcaps. rewrite Hcaps.
    destruct (truthy privileged); reflexivity.
Qed.

Lemma privileged_service_findings_witness :
  List.length
    (out (privileged_containers_service "docker-compose.yml"
            (PStr "vpn",
             PDict [(PStr "cap_add",
                     PList [PStr "NET_ADMIN"; PStr "CHOWN";
                            PStr "NET_ADMIN"]);
                    (PStr "command",
                     PList [PStr "--privileged"])])))
  = 2.
Proof.
  pose proof (@privileged_service_findings "docker-compose.yml" (PStr "vpn")
                [(PStr "cap_add",
                  PList [PStr "NET_ADMIN"; PStr "CHOWN"; PStr "NET_ADMIN"]);
                 (PStr "command", PList [PStr "--privileged"])]
                (PBool false) (PList [PStr "--privileged"])
                eq_refl eq_refl) as H.
  cbv zeta in H. destruct H as [H _].
  unfold out. rewrite (H _ eq_refl). reflexivity.
Defined.

(** X8.  A volume entry never makes the check raise and yields at most one
    finding; a string without [:] and an entry that is neither a string nor
    a mapping yield none.  So on a service whose [volumes] is a list the
    check returns with at most as many findings as there are entries; and
    when the check returns on a document, the findings of the entries of
    such a service stand in its output, in order, between those of the
    services before and after. *)
Theorem volume_mount_at_most_one
    (compose_file : string) (service_name volume : pyval) :
  succeeds (volume_mount compose_file service_name volume)
  /\ List.length (out (volume_mount compose_file service_name volume)) <= 1
  /\ (forall v, volume = PStr v -> ~ Substring ":" v ->
        out (volume_mount compose_file service_name volume) = [])
  /\ (forall cfg volumes,
        get (PDict cfg) "volumes" (PList []) = Ok (PList volumes) ->
        succeeds (volume_mounts_service compose_file
                    (service_name, PDict cfg))
        /\ List.length
             (out (volume_mounts_service compose_file
                     (service_name, PDict cfg)))
           <= List.length volumes)
  /\ (forall data before cfg after volumes,
        get data "services" (PDict [])
        = Ok (PDict (before ++ (service_name, PDict cfg) :: after)%list) ->
        succeeds (check_volume_mounts compose_file data) ->
        get (PDict cfg) "volumes" (PList []) = Ok (PList volumes) ->
        out (check_volume_mounts compose_file data)
        = (flat_map (fun item =>
                       out (volume_mounts_service compose_file item)) before
           ++ flat_map (fun v =>
                          out (volume_mount compose_file service_name v))
                volumes
           ++ flat_map (fun item =>
                          out (volume_mounts_service compose_file item))
                after)%list).
Proof.
  assert (Hone : forall v,
            succeeds (volume_mount compose_file service_name v)
            /\ List.length (out (volume_mount compose_file service_name v))
               <= 1).
  { intros v. unfold succeeds, res, out.
    destruct v as [| b | z | s | l | d]; try (split; [reflexivity|simpl; lia]).
    - unfold volume_mount.
      destruct (contains ":" s); [|split; [reflexivity|simpl; lia]].
      cbv zeta. generalize (first (split colon s)) as h. intros h.
      unfold dangerous_mounts. cbn [for_each].
      repeat match goal with
             | |- context [String.eqb h ?d] =>
                 destruct (String.eqb_spec h d) as [->|_];
                   [vm_compute; split; [reflexivity|lia]|]
             end.
      destruct (startswith "/home" h); vm_compute; split;
        try reflexivity; lia.
    - unfold volume_mount, bind, lift. cbn [get].
      destruct (in_strs _ dangerous_mounts); split; try reflexivity;
        simpl; lia. }
  split; [apply Hone|]. split; [apply Hone|]. split; [|split].
  3:{ intros data before cfg after volumes Hg Hs Hv.
      apply (@volume_check_at compose_file data before service_name cfg
               after volumes Hg Hs Hv). }
  - intros v -> Hv. unfold out, volume_mount.
    destruct (contains ":" v) eqn:Hc; [|reflexivity].
    apply contains_Substring in Hc. contradiction.
  - intros cfg volumes Hg.
    assert (Hrun : volume_mounts_service compose_file
                     (service_name, PDict cfg) []
                   = for_each volumes
                       (volume_mount compose_file service_name) []).
    { unfold volume_mounts_service, bind, lift. now rewrite Hg. }
    destruct (@for_each_succeeds _ volumes
                (volume_mount compose_file service_name)
                (fun v => proj1 (tidy_volume_mount compose_file
                                   service_name v)))
      as [Hs Ho].
    { apply Forall_forall. intros v _. apply Hone. }
    unfold succeeds, res, out in *. rewrite Hrun. split; [exact Hs|].
    rewrite Ho. clear -Hone. induction volumes as [|v vs IH]; simpl; [lia|].
    rewrite length_app. pose proof (proj2 (Hone v)) as Hv.
    unfold out in Hv. lia.
Qed.

Lemma any_of_map A B (t : B -> result bool) (g : A -> B) l :
  any_of t (map g l) = any_of (fun x => t (g x)) l.
Proof.
  induction l as [|x l IH]; simpl; [reflexivity|].
  destruct (t (g x)) as [[|]|e]; [reflexivity | exact IH | reflexivity].
Qed.

Lemma any_of_ext A (t t' : A -> result bool) l :
  (forall x, t x = t' x) -> any_of t l = any_of t' l.
Proof.
  intros H. induction l as [|x l IH]; simpl; [reflexivity|].
  rewrite H. destruct (t' x) as [[|]|e]; [reflexivity | exact IH | reflexivity].
Qed.

Lemma contains_single p c :
  2 <= String.length p -> contains p (String c EmptyString) = false.
Proof.
  destruct p as [|a [|b p]]; simpl; intros H.
  - lia.
  - lia.
  - now rewrite andb_false_r.
Qed.

Lemma any_of_chars (t : pyval -> result bool) s :
  (forall c, t (PStr (String c EmptyString)) = Ok false) ->
  any_of t (chars s) = Ok false.
Proof.
  intros H. induction s as [|c s IH]; simpl; [reflexivity|].
  now rewrite H.
Qed.

(** The two tests of the security-options check on string options. *)
Lemma security_options_on_strings f name cfg os :
  get (PDict cfg) "security_opt" (PList []) = Ok (PList (map PStr os)) ->
  security_options_service f (name, PDict cfg) []
  = (Ok tt,
     ((if existsb (contains "no-new-privileges:true") os then []
       else [missing_no_new_privileges_finding f name])
      ++ (if existsb (fun o => contains "apparmor" (lower o)
                               || contains "selinux" (lower o)) os
          then [] else [missing_profile_finding f name]))%list).
Proof.
  intros Hg. unfold security_options_service, bind, lift.
  rewrite Hg. cbn [iter].
  rewrite any_of_map.
  rewrite (@any_of_ext _ _
             (fun o => Ok (contains "no-new-privileges:true" o)) os)
    by reflexivity.
  rewrite any_of_pure, any_of_map.
  rewrite (@any_of_ext _ _
             (fun o => Ok (contains "apparmor" (lower o)
                           || contains "selinux" (lower o))) os).
  2:{ intros o. cbn [lower_of].
      destruct (contains "apparmor" (lower o)); reflexivity. }
  rewrite any_of_pure.
  destruct (existsb (contains "no-new-privileges:true") os),
    (existsb (fun o => contains "apparmor" (lower o)
                       || contains "selinux" (lower o)) os);
    reflexivity.
Qed.

(** X9.  For a service whose [security_opt] is a list of strings the check
    returns with at most two findings: the LOW finding exactly when no
    option contains the text [no-new-privileges:true], and the INFO finding
    exactly when no option contains [apparmor] or [selinux] in any letter
    case.  When the check returns on a document, the findings of the
    service stand in its output between those of the services before and
    after. *)
Theorem security_options_findings
    (compose_file : string) (service_name : pyval)
    (service_config : list (pyval * pyval)) (options : list string)
    (Hoptions : get (PDict service_config) "security_opt" (PList [])
                = Ok (PList (map PStr options))) :
  let run := security_options_service compose_file
               (service_name, PDict service_config) in
  succeeds run
  /\ List.length (out run) <= 2
  /\ (In (missing_no_new_privileges_finding compose_file service_name)
         (out run)
      <-> forall o, In o options -> ~ Substring "no-new-privileges:true" o)
  /\ (In (missing_profile_finding compose_file service_name) (out run)
      <-> forall o, In o options ->
            ~ Substring "apparmor" (lower o)
            /\ ~ Substring "selinux" (lower o))
  /\ (forall data before after,
        get data "services" (PDict [])
        = Ok (PDict (before
                     ++ (service_name, PDict service_config) :: after)%list) ->
        succeeds (check_security_options compose_file data) ->
        out (check_security_options compose_file data)
        = (flat_map (fun item =>
                       out (security_options_service compose_file item))
             before
           ++ out run
           ++ flat_map (fun item =>
                          out (security_options_service compose_file item))
                after)%list).
Proof.
  intros run. apply and_regroup5. split.
  2:{ intros data before after Hg Hs. subst run.
      apply (@over_services_at data (security_options_service compose_file)
               before (service_name, PDict service_config) after
               (security_options_service_appends compose_file) Hg Hs). }
  subst run. unfold succeeds, res, out.
  rewrite (@security_options_on_strings compose_file service_name
             service_config options Hoptions).
  cbn [fst snd].
  assert (H1 : existsb (contains "no-new-privileges:true") options = false
               <-> forall o, In o options ->
                     ~ Substring "no-new-privileges:true" o).
  { rewrite <- not_true_iff_false, existsb_exists. split.
    - intros H o Ho Hs. apply H. exists o. split; [exact Ho|].
      now apply contains_Substring.
    - intros H [o [Ho Hc]]. apply (H o Ho). now apply contains_Substring. }
  assert (H2 : existsb (fun o => contains "apparmor" (lower o)
                                 || contains "selinux" (lower o)) options
               = false
               <-> forall o, In o options ->
                     ~ Substring "apparmor" (lower o)
                     /\ ~ Substring "selinux" (lower o)).
  { rewrite <- not_true_iff_false, existsb_exists. split.
    - intros H o Ho. split; intros Hs; apply H; exists o;
        (split; [exact Ho|]); apply orb_true_iff;
        [left|right]; now apply contains_Substring.
    - intros H [o [Ho Hc]]. destruct (H o Ho) as [Ha Hb].
      apply orb_true_iff in Hc.
      destruct Hc as [Hc|Hc]; apply contains_Substring in Hc; auto. }
  split; [reflexivity|].
  destruct (existsb (contains "no-new-privileges:true") options) eqn:E1,
    (existsb (fun o => contains "apparmor" (lower o)
                       || contains "selinux" (lower o)) options) eqn:E2;
    cbn [app List.length]; (split; [lia|]); rewrite <- H1, <- H2;
    split; split; intros H; try reflexivity; try discriminate H;
    try (simpl; tauto);
    repeat (destruct H as [H|H]; try discriminate H); try destruct H.
Qed.

Lemma security_options_findings_witness :
  In (missing_profile_finding "docker-compose.yml" (PStr "web"))
     (out (security_options_service "docker-compose.yml"
             (PStr "web",
              PDict [(PStr "security_opt",
                      PList [PStr "no-new-privileges:true"])])))
  <-> forall o, In o ["no-new-privileges:true"] ->
        ~ Substring "apparmor" (lower o) /\ ~ Substring "selinux" (lower o).
Proof.
  apply (@security_options_findings "docker-compose.yml" (PStr "web")
           [(PStr "security_opt", PList [PStr "no-new-privileges:true"])]
           ["no-new-privileges:true"] eq_refl).
Defined.

(** X10.  When [security_opt] is written as one string instead of a list,
    the check walks over its characters: whatever the string says, also
    [no-new-privileges:true] itself, both the LOW and the INFO finding are
    emitted.  When the check returns on a document, the two findings stand
    in its output between those of the services before and after. *)
Theorem security_opt_as_one_string
    (compose_file : string) (service_name : pyval)
    (service_config : list (pyval * pyval)) (option : string)
    (Hoption : get (PDict service_config) "security_opt" (PList [])
               = Ok (PStr option)) :
  security_options_service compose_file (service_name, PDict service_config) []
  = (Ok tt,
     [missing_no_new_privileges_finding compose_file service_name;
      missing_profile_finding compose_file service_name])
  /\ (forall data before after,
        get data "services" (PDict [])
        = Ok (PDict (before
                     ++ (service_name, PDict service_config) :: after)%list) ->
        succeeds (check_security_options compose_file data) ->
        out (check_security_options compose_file data)
        = (flat_map (fun item =>
                       out (security_options_service compose_file item))
             before
           ++ [missing_no_new_privileges_finding compose_file service_name;
               missing_profile_finding compose_file service_name]
           ++ flat_map (fun item =>
                          out (security_options_service compose_file item))
                after)%list).
Proof.
  assert (Hrun :
    security_options_service compose_file
      (service_name, PDict service_config) []
    = (Ok tt,
       [missing_no_new_privileges_finding compose_file service_name;
        missing_profile_finding compose_file service_name])).
  2:{ split; [exact Hrun|]. intros data before after Hg Hs.
      destruct (@over_services_at data
                  (security_options_service compose_file) before
                  (service_name, PDict service_config) after
                  (security_options_service_appends compose_file) Hg Hs)
        as [_ Ho].
      unfold check_security_options. rewrite Ho. unfold out at 2.
      now rewrite Hrun. }
  unfold security_options_service, bind, lift.
  rewrite Hoption. cbn [iter].
  rewrite any_of_chars.
  2:{ intros c. cbn [has]. rewrite contains_single; [reflexivity|simpl; lia]. }
  rewrite any_of_chars.
  2:{ intros c. cbn [lower_of lower].
      rewrite !contains_single; [reflexivity|simpl; lia|simpl; lia]. }
  reflexivity.
Qed.

Lemma security_opt_as_one_string_witness :
  List.length
    (out (security_options_service "docker-compose.yml"
            (PStr "web",
             PDict [(PStr "security_opt", PStr "no-new-privileges:true")])))
  = 2.
Proof.
  unfold out.
  rewrite (proj1
             (@security_opt_as_one_string "docker-compose.yml" (PStr "web")
                [(PStr "security_opt", PStr "no-new-privileges:true")]
                "no-new-privileges:true" eq_refl)).
  reflexivity.
Defined.

(** ** Malformed manifests *)

Lemma network_security_service_appends f item :
  appends (network_security_service f item).
Proof.
  apply (@emits_weaken _ (labelled f [(LOW, "Network Security")])
           (fun _ => True)); [trivial|].
  unfold network_security_service. shape.
Qed.

Lemma external_network_appends f item : appends (external_network f item).
Proof.
  apply (@emits_weaken _ (labelled f [(INFO, "Network Security")])
           (fun _ => True)); [trivial|].
  unfold external_network. shape.
Qed.

Lemma external_network_mapping f name cfg :
  succeeds (external_network f (name, PDict cfg)).
Proof.
  unfold succeeds, res, external_network, bind, lift. cbn [get].
  destruct (truthy _); reflexivity.
Qed.

(** X11.  A network declared by name only has a null configuration.  When
    the network check reaches it, after the services and after the
    networks declared before it with a mapping, it raises the
    AttributeError of [None.get]; the findings emitted so far are kept.
    In the audit of the file, when the six checks before the network check
    return, the file ends with the ERROR finding for that exception and
    the port, restart and image checks are not run. *)
Theorem bare_network_declaration_raises
    (compose_file : string) (data : pyval)
    (services before after : list (pyval * pyval)) (network_name : pyval)
    (Hservices : get data "services" (PDict []) = Ok (PDict services))
    (Hnetworks : get data "networks" (PDict [])
                 = Ok (PDict (before ++ (network_name, PNone) :: after)))
    (Hservice : Forall (fun item =>
                  succeeds (network_security_service compose_file item))
                  services)
    (Hbefore : Forall (fun item => exists cfg, snd item = PDict cfg) before) :
  let e := AttributeError "'NoneType' object has no attribute 'get'" in
  let kept :=
    (flat_map (fun item => out (network_security_service compose_file item))
       services
     ++ flat_map (fun item => out (external_network compose_file item))
          before)%list in
  check_network_security compose_file data [] = (Raise e, kept)
  /\ (audits data ->
      Forall (fun c => succeeds (c compose_file data))
        (firstn 6 security_checks) ->
      audit_compose_file compose_file (Ok data) []
      = (Ok tt,
         (flat_map (fun c => out (c compose_file data))
            (firstn 6 security_checks)
          ++ kept ++ [processing_error compose_file e])%list)).
Proof.
  intros e kept.
  assert (Hrun : check_network_security compose_file data []
                 = (Raise e, kept)).
  { unfold check_network_security, bind, lift.
    rewrite Hservices, Hnetworks. cbn [items].
    destruct (@for_each_succeeds _ services
                (network_security_service compose_file)
                (network_security_service_appends compose_file) Hservice)
      as [Hs Ho].
    unfold succeeds, res, out in Hs, Ho.
    destruct (for_each services (network_security_service compose_file) [])
      as [r fs] eqn:E. cbn [fst snd] in Hs, Ho. subst r fs.
    assert (Hb : Forall (fun item =>
                   succeeds (external_network compose_file item)) before).
    { apply Forall_forall. intros [n c] Hin.
      rewrite Forall_forall in Hbefore.
      destruct (Hbefore _ Hin) as [cfg Hc]. simpl in Hc. subst c.
      apply external_network_mapping. }
    destruct (@for_each_raises _ before (network_name, PNone) after
                (external_network compose_file) e
                (external_network_appends compose_file) Hb eq_refl)
      as [Hr Ho'].
    rewrite (@appends_for_each _ (before ++ (network_name, PNone) :: after)
               (external_network compose_file)
               (external_network_appends compose_file)).
    rewrite Hr, Ho'. unfold kept.
    change (out (external_network compose_file (network_name, PNone)))
      with (@nil Finding).
    now rewrite app_nil_r. }
  split; [exact Hrun|].
  intros Ha Hsix.
  unfold audit_compose_file.
  change (audit_with security_checks compose_file (Ok data) [])
    with (audit_with
            (firstn 6 security_checks
             ++ check_network_security
                :: [check_port_exposure; check_restart_policies;
                    check_image_security])%list
            compose_file (Ok data) []).
  etransitivity.
  - apply (@audit_with_raises (firstn 6 security_checks)
             check_network_security
             [check_port_exposure; check_restart_policies;
              check_image_security]
             compose_file data e []); trivial.
    + intros c Hc. apply appends_security_checks.
      simpl in Hc. simpl. tauto.
    + unfold res. now rewrite Hrun.
  - cbn [app]. unfold out at 2. now rewrite Hrun.
Qed.

Lemma bare_network_declaration_raises_witness :
  check_network_security "docker-compose.yml" doc_two_networks []
  = (Raise (AttributeError "'NoneType' object has no attribute 'get'"),
     [mkFinding INFO "Network Security"
        "Network 'proxy' is external - ensure it's properly secured"
        "docker-compose.yml" 0]).
Proof.
  refine (proj1 (@bare_network_declaration_raises "docker-compose.yml"
                   doc_two_networks _
                   [(PStr "proxy", PDict [(PStr "external", PBool true)])]
                   [] (PStr "frontend") eq_refl eq_refl _ _)).
  - repeat constructor.
  - repeat constructor. eexists. reflexivity.
Defined.

Lemma get_services_audits data services :
  get data "services" (PDict []) = Ok (PDict services) ->
  services <> [] -> audits data.
Proof.
  intros Hg Hne. destruct data as [| b | z | s | l | d]; try discriminate Hg.
  cbn [get] in Hg. destruct (lookup "services" d) as [x|] eqn:Hl.
  - split.
    + destruct d; [discriminate Hl | reflexivity].
    + destruct (has "services" (PDict d)) as [[|]|e] eqn:Hh;
        [reflexivity | | discriminate Hh].
      apply lookup_has in Hh. congruence.
  - injection Hg as <-. congruence.
Qed.

Lemma privileged_service_not_mapping f name cfg :
  (forall d, cfg <> PDict d) ->
  ~ succeeds (privileged_containers_service f (name, cfg)).
Proof.
  intros Hn. unfold succeeds, res, privileged_containers_service, bind, lift.
  destruct cfg as [| b | z | s | l | d]; try discriminate.
  now destruct (Hn d).
Qed.

(** X12.  A service whose body is not a mapping (a service declared by name
    only is null) stops the audit of its file in the first check: the
    privileged check raises, its findings for the services before are
    kept, one ERROR finding follows, and no other check contributes. *)
Theorem service_without_mapping_ends_audit
    (compose_file : string) (data : pyval) (services : list (pyval * pyval))
    (service_name service_config : pyval)
    (Hservices : get data "services" (PDict []) = Ok (PDict services))
    (Hservice : In (service_name, service_config) services)
    (Hconfig : forall d, service_config <> PDict d) :
  exists e,
    res (check_privileged_containers compose_file data) = Raise e
    /\ audit_compose_file compose_file (Ok data) []
       = (Ok tt,
          (out (check_privileged_containers compose_file data)
           ++ [processing_error compose_file e])%list).
Proof.
  assert (Ha : audits data).
  { apply (get_services_audits data Hservices). intros ->. destruct Hservice. }
  destruct (res_cases (check_privileged_containers compose_file data))
    as [Hs | [e He]].
  - exfalso.
    apply (@privileged_service_not_mapping compose_file service_name
             service_config Hconfig).
    assert (Hall : Forall (fun item =>
                     succeeds (privileged_containers_service
                                 compose_file item)) services).
    { apply for_each_succeeds_inv.
      - apply privileged_containers_service_appends.
      - unfold succeeds, res in *. unfold check_privileged_containers in Hs.
        now rewrite (@over_services_run data _ services
                       (privileged_containers_service_appends compose_file)
                       Hservices) in Hs. }
    rewrite Forall_forall in Hall. now apply Hall.
  - exists e. split; [exact He|].
    unfold audit_compose_file.
    change security_checks
      with ([] ++ check_privileged_containers :: tl security_checks)%list.
    etransitivity.
    + apply (@audit_with_raises [] check_privileged_containers
               (tl security_checks) compose_file data e []); trivial.
      intros c [<-|[]]. apply appends_security_checks. now left.
    + reflexivity.
Qed.

Lemma service_without_mapping_ends_audit_witness :
  exists e,
    res (check_privileged_containers "docker-compose.yml" doc_bare_service)
    = Raise e
    /\ audit_compose_file "docker-compose.yml" (Ok doc_bare_service) []
       = (Ok tt,
          (out (check_privileged_containers "docker-compose.yml"
                  doc_bare_service)
           ++ [processing_error "docker-compose.yml" e])%list).
Proof.
  apply (@service_without_mapping_ends_audit "docker-compose.yml"
           doc_bare_service _ (PStr "db") PNone eq_refl).
  - right. left. reflexivity.
  - discriminate.
Defined.

Lemma user_configuration_service_out f name cfg :
  user_configuration_service f (name, PDict cfg) []
  = (Ok tt,
     match lookup "user" cfg with
     | Some (PStr u) =>
         if String.eqb u "root" || String.eqb u "0"
         then [runs_as_root_finding f name] else []
     | Some PNone | None => [no_user_finding f name]
     | Some _ => []
     end).
Proof.
  unfold user_configuration_service, bind, lift. cbn [get].
  destruct (lookup "user" cfg) as [[| b | z | u | l | d]|]; try reflexivity.
  cbn [eq_str]. destruct (String.eqb u "root" || String.eqb u "0"); reflexivity.
Qed.

Lemma user_configuration_service_appends f item :
  appends (user_configuration_service f item).
Proof.
  apply (@emits_weaken _ (labelled f [(MEDIUM, "Container Security");
                                      (LOW, "Container Security")])
           (fun _ => True)); [trivial|].
  unfold user_configuration_service. shape.
Qed.

(** ** The environment in list form *)

Lemma split1_app_sep sep k v :
  count sep k = 0 -> split1 sep (k ++ String sep v) = [k; v].
Proof.
  induction k as [|c k IH]; simpl.
  - now rewrite Ascii.eqb_refl.
  - destruct (Ascii.eqb c sep); [discriminate|].
    intros H. now rewrite (IH H).
Qed.

Lemma lookup_assign k v d k0 :
  lookup k0 (assign k v d)
  = if String.eqb k k0 then Some v else lookup k0 d.
Proof.
  induction d as [|[k' v'] d IH]; simpl.
  - reflexivity.
  - destruct (eq_str k' k) eqn:Hk; simpl.
    + destruct k' as [| | | s | |]; try discriminate Hk.
      simpl in Hk. apply String.eqb_eq in Hk. subst s. simpl.
      destruct (String.eqb k k0); reflexivity.
    + destruct (eq_str k' k0) eqn:Hk0; [|exact IH].
      destruct k' as [| | | s | |]; try discriminate Hk0.
      simpl in Hk, Hk0. apply String.eqb_eq in Hk0. subst s.
      now rewrite String.eqb_sym, Hk.
Qed.

Lemma assign_keys k v d :
  map fst (assign k v d)
  = if existsb (fun key => eq_str key k) (map fst d)
    then map fst d else (map fst d ++ [PStr k])%list.
Proof.
  induction d as [|[k' v'] d IH]; simpl; [reflexivity|].
  destruct (eq_str k' k); simpl; [reflexivity|].
  rewrite IH. destruct (existsb _ (map fst d)); reflexivity.
Qed.

Lemma env_of_list_entries kvs d :
  Forall (fun kv => count "="%char (fst kv) = 0) kvs ->
  env_of_list (map env_entry kvs) d
  = Ok (fold_left (fun env kv => assign (fst kv) (PStr (snd kv)) env) kvs d).
Proof.
  intros H. revert d. induction H as [|[k v] kvs Hk _ IH]; intros d.
  - reflexivity.
  - cbn [map env_of_list fold_left fst snd].
    change (env_entry (k, v)) with (PStr (k ++ String "="%char v)).
    cbn [has split1_of].
    change "=" with (String "="%char EmptyString) at 1.
    rewrite contains_app_sep, (@split1_app_sep _ k v Hk).
    cbn [unpack2]. apply IH.
Qed.

Lemma lookup_assigned k kvs d :
  lookup k (fold_left (fun env kv => assign (fst kv) (PStr (snd kv)) env)
              kvs d)
  = match last_binding k kvs with
    | Some v => Some (PStr v)
    | None => lookup k d
    end.
Proof.
  revert d. induction kvs as [|[k' v] kvs IH]; intros d; simpl.
  - reflexivity.
  - rewrite IH. destruct (last_binding k kvs); [reflexivity|].
    rewrite lookup_assign. destruct (String.eqb k' k); reflexivity.
Qed.

Lemma assigned_keys kvs d :
  NoDup (map fst d) ->
  (forall key, In key (map fst d) -> exists k, key = PStr k) ->
  let env := fold_left (fun env kv => assign (fst kv) (PStr (snd kv)) env)
               kvs d in
  NoDup (map fst env)
  /\ (forall key, In key (map fst env) ->
        In key (map fst d) \/ exists k, key = PStr k /\ In k (map fst kvs))
  /\ List.length env <= List.length d + List.length kvs.
Proof.
  revert d. induction kvs as [|[k v] kvs IH]; intros d Hnd Hkeys; cbv zeta.
  - simpl. repeat split; trivial; [tauto | lia].
  - cbn [fold_left fst snd].
    assert (Hk : map fst (assign k (PStr v) d) = map fst d
                 \/ (map fst (assign k (PStr v) d)
                     = (map fst d ++ [PStr k])%list
                     /\ ~ In (PStr k) (map fst d))).
    { rewrite assign_keys.
      destruct (existsb (fun key => eq_str key k) (map fst d)) eqn:E;
        [now left|right]. split; [reflexivity|].
      intros Hin. apply not_true_iff_false in E. apply E.
      apply existsb_exists. exists (PStr k). split; [exact Hin|].
      apply String.eqb_refl. }
    assert (Hnd' : NoDup (map fst (assign k (PStr v) d))).
    { destruct Hk as [->|[-> Hn]]; [exact Hnd|].
      apply NoDup_app; [exact Hnd | repeat constructor; intros [] |].
      intros x Hx [<-|[]]. contradiction. }
    assert (Hlen : List.length (assign k (PStr v) d) <= S (List.length d)).
    { rewrite <- (length_map fst (assign k (PStr v) d)),
        <- (length_map fst d).
      destruct Hk as [->|[-> _]]; [lia|]. rewrite length_app. simpl. lia. }
    destruct (IH (assign k (PStr v) d) Hnd') as [H1 [H2 H3]].
    { intros key Hin. destruct Hk as [Hk|[Hk _]]; rewrite Hk in Hin.
      - now apply Hkeys.
      - apply in_app_or in Hin. destruct Hin as [Hin|[<-|[]]].
        + now apply Hkeys.
        + now exists k. }
    cbv zeta in H1, H2, H3. split; [exact H1|]. split.
    + intros key Hin. destruct (H2 key Hin) as [Hin'|[k0 [-> Hk0]]].
      * destruct Hk as [Hk|[Hk _]]; rewrite Hk in Hin'.
        -- now left.
        -- apply in_app_or in Hin'. destruct Hin' as [Hin'|[<-|[]]].
           ++ now left.
           ++ right. exists k. split; [reflexivity|]. now left.
      * right. exists k0. split; [reflexivity|]. now right.
    + cbn [List.length]. lia.
Qed.

(** X14.  An environment written as a list of [KEY=VALUE] strings, with no
    [=] inside the keys, becomes a mapping in which every key occurs once
    and carries the value of its last entry; the value is everything after
    the first [=], so it may itself contain [=].  An entry without [=] is
    skipped. *)
Theorem env_list_last_entry_wins (kvs : list (string * string))
    (Hkeys : Forall (fun kv => count "="%char (fst kv) = 0) kvs) :
  exists env_vars,
    env_vars_of (PList (map env_entry kvs)) = Ok env_vars
    /\ (forall k, lookup k env_vars = option_map PStr (last_binding k kvs))
    /\ NoDup (map fst env_vars)
    /\ (forall key, In key (map fst env_vars) ->
          exists k, key = PStr k /\ In k (map fst kvs))
    /\ List.length env_vars <= List.length kvs
    /\ (forall bare rest d,
          ~ Substring "=" bare ->
          env_of_list (PStr bare :: rest) d = env_of_list rest d).
Proof.
  exists (fold_left (fun env kv => assign (fst kv) (PStr (snd kv)) env)
            kvs []).
  split; [now apply env_of_list_entries|].
  split.
  { intros k. rewrite lookup_assigned.
    destruct (last_binding k kvs); reflexivity. }
  destruct (@assigned_keys kvs [] (NoDup_nil _)) as [H1 [H2 H3]].
  { intros key []. }
  cbv zeta in H1, H2, H3.
  split; [exact H1|]. split.
  { intros key Hin. destruct (H2 key Hin) as [[]|H]. exact H. }
  split; [simpl in H3; lia|].
  intros bare rest d Hb. cbn [env_of_list has].
  destruct (contains "=" bare) eqn:Hc; [|reflexivity].
  apply contains_Substring in Hc. contradiction.
Qed.

Lemma env_list_last_entry_wins_witness :
  exists env_vars,
    env_vars_of (PList [PStr "API_KEY=${API_KEY}"; PStr "MODE=a=b";
                        PStr "API_KEY=sk_live_abc123"])
    = Ok env_vars
    /\ lookup "API_KEY" env_vars = Some (PStr "sk_live_abc123")
    /\ lookup "MODE" env_vars = Some (PStr "a=b")
    /\ List.length env_vars <= 3.
Proof.
  destruct (@env_list_last_entry_wins
              [("API_KEY", "${API_KEY}"); ("MODE", "a=b");
               ("API_KEY", "sk_live_abc123")])
    as [env [H1 [H2 [_ [_ [H5 _]]]]]].
  - repeat constructor.
  - exists env. split; [exact H1|]. split; [apply (H2 "API_KEY")|].
    split; [apply (H2 "MODE") | exact H5].
Defined.

(** ** The list of compose files *)

Lemma ascii_compare_refl a : Ascii.compare a a = Eq.
Proof. unfold Ascii.compare. apply N.compare_refl. Qed.

Lemma ascii_compare_trans a b c :
  Ascii.compare a b = Lt -> Ascii.compare b c = Lt -> Ascii.compare a c = Lt.
Proof.
  unfold Ascii.compare. rewrite !N.compare_lt_iff. apply N.lt_trans.
Qed.

Lemma string_compare_refl s : String.compare s s = Eq.
Proof.
  induction s as [|a s IH]; simpl; [reflexivity|].
  now rewrite ascii_compare_refl.
Qed.

Lemma string_compare_trans s t u :
  String.compare s t = Lt -> String.compare t u = Lt ->
  String.compare s u = Lt.
Proof.
  revert t u. induction s as [|a s IH]; intros [|b t] [|c u]; simpl;
    try discriminate; try reflexivity.
  destruct (Ascii.compare a b) eqn:Hab; try discriminate;
    destruct (Ascii.compare b c) eqn:Hbc; try discriminate; intros H1 H2.
  - apply Ascii.compare_eq_iff in Hab, Hbc. subst.
    rewrite ascii_compare_refl. now apply (IH t u).
  - apply Ascii.compare_eq_iff in Hab. subst. now rewrite Hbc.
  - apply Ascii.compare_eq_iff in Hbc. subst. now rewrite Hab.
  - now rewrite (@ascii_compare_trans a b c Hab Hbc).
Qed.

Lemma path_compare_refl p : path_compare p p = Eq.
Proof.
  induction p as [|a p IH]; simpl; [reflexivity|].
  now rewrite string_compare_refl.
Qed.

Lemma path_compare_eq p q : path_compare p q = Eq -> p = q.
Proof.
  revert q. induction p as [|a p IH]; intros [|b q]; simpl;
    try discriminate; try reflexivity.
  destruct (String.compare a b) eqn:Hab; try discriminate.
  intros H. apply String.compare_eq_iff in Hab. subst.
  now rewrite (IH q H).
Qed.

Lemma path_compare_antisym p q :
  path_compare p q = CompOpp (path_compare q p).
Proof.
  revert q. induction p as [|a p IH]; intros [|b q]; simpl; try reflexivity.
  rewrite (String.compare_antisym a b).
  destruct (String.compare b a); simpl; [apply IH | reflexivity | reflexivity].
Qed.

Lemma path_lt_trans p q r : path_lt p q -> path_lt q r -> path_lt p r.
Proof.
  unfold path_lt. revert q r.
  induction p as [|a p IH]; intros [|b q] [|c r]; simpl;
    try discriminate; try reflexivity.
  destruct (String.compare a b) eqn:Hab; try discriminate;
    destruct (String.compare b c) eqn:Hbc; try discriminate; intros H1 H2.
  - apply String.compare_eq_iff in Hab, Hbc. subst.
    rewrite string_compare_refl. now apply (IH q r).
  - apply String.compare_eq_iff in Hab. subst. now rewrite Hbc.
  - apply String.compare_eq_iff in Hbc. subst. now rewrite Hab.
  - now rewrite (@string_compare_trans a b c Hab Hbc).
Qed.

Lemma path_lt_irrefl p : ~ path_lt p p.
Proof. unfold path_lt. now rewrite path_compare_refl. Qed.

Lemma path_leb_cases p q :
  path_leb p q = true /\ (p = q \/ path_lt p q)
  \/ path_leb p q = false /\ path_lt q p.
Proof.
  unfold path_leb, path_lt. rewrite (path_compare_antisym q p).
  destruct (path_compare p q) eqn:H; simpl.
  - left. split; [reflexivity|]. left. now apply path_compare_eq.
  - left. split; [reflexivity|]. now right.
  - right. split; reflexivity.
Qed.

Lemma insert_path_In p l x : In x (insert_path p l) <-> x = p \/ In x l.
Proof.
  induction l as [|q l IH]; simpl.
  - intuition.
  - destruct (path_leb p q); simpl; rewrite ?IH; intuition.
Qed.

Lemma sorted_In l x : In x (sorted l) <-> In x l.
Proof.
  induction l as [|p l IH]; simpl; [reflexivity|].
  rewrite insert_path_In, IH. intuition.
Qed.

Lemma insert_path_sorted p l :
  ~ In p l -> StronglySorted path_lt l ->
  StronglySorted path_lt (insert_path p l).
Proof.
  intros Hn Hs. induction Hs as [|q l Hs IH Hq]; simpl.
  - repeat constructor.
  - destruct (path_leb_cases p q) as [[-> [Heq|Hlt]] | [-> Hlt]].
    + subst. exfalso. apply Hn. now left.
    + constructor; [now constructor|]. constructor; [exact Hlt|].
      rewrite Forall_forall in *. intros x Hx.
      apply (@path_lt_trans p q x Hlt). now apply Hq.
    + constructor.
      * apply IH. intros Hin. apply Hn. now right.
      * rewrite Forall_forall in *. intros x Hx.
        apply insert_path_In in Hx. destruct Hx as [->|Hx]; [exact Hlt|].
        now apply Hq.
Qed.

Lemma sorted_strongly l : NoDup l -> StronglySorted path_lt (sorted l).
Proof.
  intros Hnd. induction Hnd as [|p l Hn _ IH]; simpl; [constructor|].
  apply insert_path_sorted; [|exact IH]. now rewrite sorted_In.
Qed.

(** Two strictly increasing lists with the same members are equal. *)
Lemma strictly_sorted_unique l l' :
  StronglySorted path_lt l -> StronglySorted path_lt l' ->
  (forall x, In x l <-> In x l') -> l = l'.
Proof.
  intros Hl. revert l'. induction Hl as [|p l Hs IH Hp]; intros l' Hl' Heq.
  - destruct l' as [|q l']; [reflexivity|].
    destruct (proj2 (Heq q) (or_introl eq_refl)).
  - destruct Hl' as [|q l' Hs' Hq].
    + destruct (proj1 (Heq p) (or_introl eq_refl)).
    + rewrite Forall_forall in Hp, Hq.
      assert (Hpq : p = q).
      { destruct (proj1 (Heq p) (or_introl eq_refl)) as [<-|Hin];
          [reflexivity|].
        destruct (proj2 (Heq q) (or_introl eq_refl)) as [<-|Hin'];
          [reflexivity|].
        exfalso. apply (@path_lt_irrefl p).
        apply (@path_lt_trans p q p); [now apply Hp | now apply Hq]. }
      subst q. f_equal. apply IH; [exact Hs'|].
      intros x. split; intros Hx.
      * destruct (proj1 (Heq x) (or_intror Hx)) as [<-|H]; [|exact H].
        exfalso. apply (@path_lt_irrefl p). now apply Hp.
      * destruct (proj2 (Heq x) (or_intror Hx)) as [<-|H]; [|exact H].
        exfalso. apply (@path_lt_irrefl p). now apply Hq.
Qed.

Lemma strictly_sorted_NoDup l : StronglySorted path_lt l -> NoDup l.
Proof.
  intros H. induction H as [|p l _ IH Hp]; constructor; [|exact IH].
  intros Hin. rewrite Forall_forall in Hp.
  apply (@path_lt_irrefl p). now apply Hp.
Qed.

(** X15.  The list of compose files holds exactly the paths matched by one
    of the three patterns; it is strictly increasing in the order of
    paths, so a file matched by several patterns is listed, and audited,
    once; and it is the only such list, whatever order the set gives. *)
Theorem compose_files_sorted_without_repeats (glob : string -> list path) :
  let files := find_compose_files glob in
  StronglySorted path_lt files
  /\ NoDup files
  /\ (forall p, In p files <-> exists pattern, In pattern patterns
                                               /\ In p (glob pattern))
  /\ List.length files <= List.length (flat_map glob patterns)
  /\ (forall l, StronglySorted path_lt l ->
        (forall p, In p l <-> In p (flat_map glob patterns)) ->
        l = files).
Proof.
  intros files. subst files. unfold find_compose_files.
  assert (Hs : StronglySorted path_lt
                 (sorted (nodup path_eq_dec (flat_map glob patterns)))).
  { apply sorted_strongly. apply NoDup_nodup. }
  assert (Hin : forall p,
            In p (sorted (nodup path_eq_dec (flat_map glob patterns)))
            <-> In p (flat_map glob patterns)).
  { intros p. now rewrite sorted_In, nodup_In. }
  split; [exact Hs|]. split; [now apply strictly_sorted_NoDup|]. split.
  { intros p. rewrite Hin, in_flat_map. reflexivity. }
  split.
  { apply NoDup_incl_length; [now apply strictly_sorted_NoDup|].
    intros p Hp. now apply Hin. }
  intros l Hl Hmem. apply strictly_sorted_unique; trivial.
  intros p. now rewrite Hmem, Hin.
Qed.

Example find_compose_files_example :
  find_compose_files glob_example
  = [["docker-compose.yml"]; ["media"; "docker-compose.arr.yml"];
     ["media"; "docker-compose.yml"]]
  /\ map path_str (find_compose_files glob_example)
     = ["docker-compose.yml"; "media/docker-compose.arr.yml";
        "media/docker-compose.yml"].
Proof. split; reflexivity. Qed.

(** ** The printed report *)

Lemma group_lines_bullets fs sev :
  filter is_bullet (group_lines fs sev)
  = map bullet_line (filter (has_severity sev) fs).
Proof.
  unfold group_lines, has_severity.
  assert (H : forall l, filter is_bullet (map bullet_line l)
                        = map bullet_line l).
  { induction l as [|f l IH]; simpl; [reflexivity|].
    now rewrite IH. }
  destruct (filter (fun f => Severity_eqb (severity f) sev) fs) as [|f l];
    [reflexivity|].
  change (filter is_bullet
            ((newline ++ severity_str sev ++ " SEVERITY:")
               :: map bullet_line (f :: l)))
    with (filter is_bullet (map bullet_line (f :: l))).
  apply H.
Qed.

Lemma summary_lines_no_bullet counts :
  filter is_bullet (summary_lines counts) = [].
Proof.
  unfold summary_lines. induction counts as [|[sev n] counts IH];
    [reflexivity|].
  cbn [flat_map fst snd]. rewrite filter_app, IH, app_nil_r.
  destruct (0 <? n)%nat; [|reflexivity]. destruct sev; reflexivity.
Qed.

Lemma grouped_Permutation fs : Permutation (grouped fs) fs.
Proof.
  unfold grouped, severities, has_severity. cbn [flat_map].
  rewrite app_nil_r.
  induction fs as [|f fs IH]; [reflexivity|].
  cbn [filter]. apply Permutation_sym.
  destruct (severity f); cbn [Severity_eqb app].
  - constructor. now apply Permutation_sym.
  - apply Permutation_cons_app. now apply Permutation_sym.
  - rewrite app_assoc. apply Permutation_cons_app.
    rewrite <- app_assoc. now apply Permutation_sym.
  - rewrite !app_assoc. apply Permutation_cons_app.
    rewrite <- !app_assoc. now apply Permutation_sym.
  - rewrite !app_assoc. apply Permutation_cons_app.
    rewrite <- !app_assoc. now apply Permutation_sym.
Qed.

(** X16.  The printed report lists every finding exactly once: its bullet
    lines are the findings grouped by severity in the order HIGH, MEDIUM,
    LOW, INFO, ERROR, each group in the order of the report, and nothing
    else is printed as a bullet.  The line saying that no issue was found
    is printed exactly when the report has no finding. *)
Theorem report_lists_every_finding_once (audit_result : AuditResult) :
  filter is_bullet (print_report audit_result)
  = map bullet_line (grouped (findings audit_result))
  /\ Permutation (grouped (findings audit_result)) (findings audit_result)
  /\ List.length (filter is_bullet (print_report audit_result))
     = List.length (findings audit_result)
  /\ (In no_issues_line (print_report audit_result)
      <-> findings audit_result = []).
Proof.
  assert (Hb : filter is_bullet (print_report audit_result)
               = map bullet_line (grouped (findings audit_result))).
  { unfold print_report. rewrite !filter_app, summary_lines_no_bullet.
    change (filter is_bullet (heading_lines audit_result))
      with (@nil string).
    cbn [app].
    destruct (findings audit_result) as [|f fs] eqn:Hf; [reflexivity|].
    rewrite !filter_app.
    change (filter is_bullet detail_heading) with (@nil string).
    change (filter is_bullet recommendations) with (@nil string).
    rewrite app_nil_r. cbn [app].
    unfold grouped, severities. cbn [flat_map].
    rewrite !filter_app, !map_app, !group_lines_bullets. reflexivity. }
  split; [exact Hb|]. split; [apply grouped_Permutation|]. split.
  { rewrite Hb, length_map. apply Permutation_length, grouped_Permutation. }
  unfold print_report. split.
  - intros Hin. destruct (findings audit_result) as [|f fs] eqn:Hf;
      [reflexivity|].
    exfalso.
    apply in_app_or in Hin. destruct Hin as [Hin|Hin].
    { unfold heading_lines in Hin.
      repeat (destruct Hin as [Hin|Hin]; [discriminate Hin|]).
      destruct Hin. }
    apply in_app_or in Hin. destruct Hin as [Hin|Hin].
    { unfold summary_lines in Hin. apply in_flat_map in Hin.
      destruct Hin as [[sev n] [_ Hin]]. cbn [fst snd] in Hin.
      destruct (0 <? n)%nat; [|destruct Hin].
      destruct Hin as [Hin|[]]. destruct sev; discriminate Hin. }
    apply in_app_or in Hin. destruct Hin as [Hin|Hin].
    { destruct Hin as [Hin|[Hin|[]]]; discriminate Hin. }
    apply in_app_or in Hin. destruct Hin as [Hin|Hin].
    + apply in_flat_map in Hin. destruct Hin as [sev [_ Hin]].
      unfold group_lines in Hin.
      destruct (filter _ (f :: fs)) as [|g gs]; [destruct Hin|].
      destruct Hin as [Hin|Hin].
      * destruct sev; discriminate Hin.
      * apply in_map_iff in Hin. destruct Hin as [x [Hx _]].
        discriminate Hx.
    + unfold recommendations in Hin.
      repeat (destruct Hin as [Hin|Hin]; [discriminate Hin|]).
      destruct Hin.
  - intros ->. apply in_or_app. right. apply in_or_app. right. now left.
Qed.

(** ** Broad mounts and the exemption by message text *)

(** X17.  A short-form mount whose host part is [/] or starts with [/home]
    (as text: [/homework] too) yields exactly one finding, the HIGH Volume
    Security broad-access finding; the same source written in the long form
    yields nothing.  When the check returns on a document, the finding of
    the short form stands in its output between the findings of the entries
    and services before and after. *)
Theorem broad_filesystem_mount
    (compose_file : string) (service_name : pyval) (host target : string)
    (Hhost : count colon host = 0)
    (Hbroad : host = "/" \/ Prefix "/home" host) :
  out (volume_mount compose_file service_name (PStr (host ++ ":" ++ target)))
  = [broad_access_finding compose_file service_name host]
  /\ (forall rest,
       out (volume_mount compose_file service_name
              (PDict ((PStr "source", PStr host) :: rest)))
       = [])
  /\ (forall data before cfg after volumes_before volumes_after,
        get data "services" (PDict [])
        = Ok (PDict (before ++ (service_name, PDict cfg) :: after)%list) ->
        succeeds (check_volume_mounts compose_file data) ->
        get (PDict cfg) "volumes" (PList [])
        = Ok (PList (volumes_before
                     ++ PStr (host ++ ":" ++ target) :: volumes_after)%list) ->
        out (check_volume_mounts compose_file data)
        = (flat_map (fun item =>
                       out (volume_mounts_service compose_file item)) before
           ++ (flat_map (fun v =>
                           out (volume_mount compose_file service_name v))
                 volumes_before
               ++ [broad_access_finding compose_file service_name host]
               ++ flat_map (fun v =>
                              out (volume_mount compose_file service_name v))
                    volumes_after)
           ++ flat_map (fun item =>
                          out (volume_mounts_service compose_file item))
                after)%list).
Proof.
  assert (Hb : String.eqb host "/" || startswith "/home" host = true).
  { apply orb_true_iff. destruct Hbroad as [->|H]; [now left|right].
    now apply startswith_Prefix. }
  assert (Hnd : forall d, In d dangerous_mounts -> String.eqb host d = false).
  { intros d Hd. apply String.eqb_neq. intros ->.
    simpl in Hd.
    destruct Hbroad as [H|[b H]];
      repeat (destruct Hd as [<-|Hd]; [discriminate H|]); destruct Hd. }
  assert (Hshort :
    out (volume_mount compose_file service_name
           (PStr (host ++ ":" ++ target)))
    = [broad_access_finding compose_file service_name host]).
  2:{ split; [exact Hshort|]. apply and_comm. split.
      { intros data before cfg after volumes_before volumes_after Hg Hs Hv.
        rewrite (@volume_check_at compose_file data before service_name cfg
                   after _ Hg Hs Hv).
        rewrite flat_map_app. cbn [flat_map]. rewrite Hshort.
        now rewrite <- !app_assoc. }
      intros rest. unfold out, volume_mount, bind, lift.
      cbn [get lookup eq_str].
      change (String.eqb "source" "source") with true. cbv iota.
      assert (Hs : in_strs (PStr host) dangerous_mounts = false).
      { unfold in_strs. apply not_true_iff_false. intros H.
        apply existsb_exists in H. destruct H as [d [Hd He]].
        cbn [eq_str] in He. rewrite (Hnd d Hd) in He. discriminate He. }
      rewrite Hs. reflexivity. }
  unfold out, volume_mount.
  change (host ++ ":" ++ target) with (host ++ String colon target).
  change ":" with (String colon EmptyString).
  rewrite contains_app_sep. cbn [when]. cbv zeta.
  rewrite (@first_split_app_sep colon host target Hhost).
  unfold dangerous_mounts in *. cbn [for_each]. unfold bind.
  rewrite !Hnd by (simpl; tauto). cbn [when ret].
  rewrite Hb. reflexivity.
Qed.

Lemma broad_filesystem_mount_witness :
  out (volume_mount "docker-compose.yml" (PStr "sync")
         (PStr ("/home/alice/data" ++ ":" ++ "/data")))
  = [broad_access_finding "docker-compose.yml" (PStr "sync")
       "/home/alice/data"].
Proof.
  refine (proj1 (@broad_filesystem_mount "docker-compose.yml" (PStr "sync")
                   "/home/alice/data" "/data" eq_refl _)).
  right. exists "/alice/data". reflexivity.
Defined.

Lemma service_message_exempted x name rest k :
  message x = "Service '" ++ name ++ rest ->
  In k exemption_keywords -> Substring k (lower name) ->
  exempted x = true.
Proof.
  intros Hm Hk [a [b Hs]]. apply exempted_keyword. exists k.
  split; [exact Hk|]. rewrite Hm, !lower_app, Hs.
  exists (lower "Service '" ++ a), (b ++ lower rest).
  now rewrite !append_assoc.
Qed.

(** X18.  The gate reads the rendered message, and every HIGH message of
    the volume and environment checks starts with the service name: when
    the name contains, in any letter case, one of the four keywords (as
    [port] in portainer), the dangerous-mount, broad-access and
    hardcoded-secret findings of that service are exempted and cannot make
    the run fail. *)
Theorem keyword_in_service_name_exempts
    (compose_file : string) (service_name : pyval) (keyword : string)
    (Hkeyword : In keyword exemption_keywords)
    (Hname : Substring keyword (lower (str service_name))) :
  (forall env_key,
     blocking (secret_management_finding compose_file service_name env_key)
     = false)
  /\ (forall sev path,
        blocking (dangerous_mount_finding sev compose_file service_name path)
        = false)
  /\ (forall host_path,
        blocking (broad_access_finding compose_file service_name host_path)
        = false).
Proof.
  assert (H : forall x rest,
            message x = "Service '" ++ str service_name ++ rest ->
            blocking x = false).
  { intros x rest Hm. unfold blocking.
    rewrite (@service_message_exempted x (str service_name) rest keyword
               Hm Hkeyword Hname).
    apply andb_false_r. }
  split; [|split].
  - intros env_key. eapply H. reflexivity.
  - intros sev path. eapply H. reflexivity.
  - intros host_path. eapply H. reflexivity.
Qed.

Lemma keyword_in_service_name_exempts_witness :
  blocking (secret_management_finding "docker-compose.yml" (PStr "Portainer")
              (PStr "ADMIN_PASSWORD"))
  = false.
Proof.
  refine (proj1 (@keyword_in_service_name_exempts "docker-compose.yml"
                   (PStr "Portainer") "port" _ _) (PStr "ADMIN_PASSWORD")).
  - simpl. tauto.
  - exists EmptyString, "ainer". reflexivity.
Defined.

(** * One service within a check that returns *)

(** What a check reports for a service is stated on the check itself: the
    services of the document are split around the service in question, and
    the findings of the check are those of the services before it, its own,
    and those of the services after it. *)

(** ** The environment check *)

Lemma environment_variables_service_appends f item :
  appends (environment_variables_service f item).
Proof.
  assert (H : tidy (environment_variables_service f item)).
  { unfold environment_variables_service.
    frame; try apply tidy_environment_variable. }
  exact (proj1 H).
Qed.

(** A service on which the check returns: its environment was read, and its
    findings are those of the variables, in order. *)
Lemma environment_service_returns f name cfg environment :
  get (PDict cfg) "environment" (PDict []) = Ok environment ->
  succeeds (environment_variables_service f (name, PDict cfg)) ->
  exists env_vars,
    env_vars_of environment = Ok env_vars
    /\ out (environment_variables_service f (name, PDict cfg))
       = flat_map (fun entry => out (environment_variable f name entry))
           env_vars.
Proof.
  intros Hg Hs.
  destruct (env_vars_of environment) as [env_vars|e] eqn:He.
  - exists env_vars. split; [reflexivity|].
    pose proof (@environment_service_run f name cfg environment env_vars
                  Hg He) as Hrun.
    assert (Hall : Forall (fun entry =>
                     succeeds (environment_variable f name entry)) env_vars).
    { apply for_each_succeeds_inv;
        [intros entry; apply tidy_environment_variable|].
      unfold succeeds, res in *. now rewrite <- Hrun. }
    unfold out at 1. rewrite Hrun.
    apply (@for_each_succeeds _ env_vars (environment_variable f name)
             (fun entry => proj1 (tidy_environment_variable f name entry))
             Hall).
  - exfalso.
    unfold succeeds, res, environment_variables_service, bind, lift in Hs.
    rewrite Hg, He in Hs. discriminate Hs.
Qed.

Lemma lookup_split k d v :
  lookup k d = Some v ->
  exists before after,
    d = (before ++ (PStr k, v) :: after)%list /\ lookup k before = None.
Proof.
  induction d as [|[k' v'] d IH]; simpl; [discriminate|].
  destruct (eq_str k' k) eqn:Hk.
  - intros H. injection H as ->.
    destruct k' as [| | | s | |]; try discriminate Hk.
    simpl in Hk. apply String.eqb_eq in Hk. subst s.
    exists [], d. split; reflexivity.
  - intros H. destruct (IH H) as [b [a [-> Hb]]].
    exists ((k', v') :: b), a. split; [reflexivity|].
    simpl. now rewrite Hk.
Qed.

(** [s.split(sep, 1)] on a string that contains the separator: the text
    before the first separator and the text after it. *)
Lemma split1_contains sep s :
  contains (String sep EmptyString) s = true ->
  exists k v,
    split1 sep s = [k; v] /\ s = k ++ String sep v /\ count sep k = 0.
Proof.
  induction s as [|c s IH]; cbn [contains startswith split1 count].
  - discriminate.
  - rewrite (Ascii.eqb_sym sep c). destruct (Ascii.eqb c sep) eqn:Hc.
    + intros _. apply Ascii.eqb_eq in Hc. subst c.
      exists EmptyString, s. repeat split.
    + cbn [andb orb]. intros H. destruct (IH H) as [k [v [Hs [-> Hk]]]].
      exists (String c k), v. rewrite Hs. cbn [count append].
      rewrite Hc. repeat split. exact Hk.
Qed.

Lemma env_of_list_app l1 l2 d :
  env_of_list (l1 ++ l2) d
  = match env_of_list l1 d with
    | Ok d1 => env_of_list l2 d1
    | Raise e => Raise e
    end.
Proof.
  revert d. induction l1 as [|x l1 IH]; intros d; [reflexivity|].
  cbn [app env_of_list].
  destruct (has "=" x) as [[|]|e]; [|apply IH|reflexivity].
  destruct (split1_of x "="%char) as [parts|e]; [|reflexivity].
  destruct (unpack2 parts) as [[k v]|e]; [apply IH|reflexivity].
Qed.

(** Items that do not start with [KEY=] leave the value of [KEY] alone. *)
Lemma env_of_list_keeps k l d d' :
  env_of_list l d = Ok d' ->
  (forall s, In (PStr s) l -> ~ Prefix (k ++ "=") s) ->
  lookup k d' = lookup k d.
Proof.
  revert d. induction l as [|x l IH]; intros d H Hl.
  - simpl in H. now injection H as ->.
  - cbn [env_of_list] in H.
    destruct (has "=" x) as [[|]|e] eqn:Hh; [| |discriminate H].
    + destruct x as [| b | z | s | l0 | d0];
        cbn [split1_of] in H; try discriminate H.
      cbn [has] in Hh. injection Hh as Hc.
      destruct (@split1_contains "="%char s Hc) as [key [v [Hs [-> Hk]]]].
      rewrite Hs in H. cbn [unpack2] in H.
      rewrite (IH _ H) by (intros s' Hin; apply Hl; now right).
      rewrite lookup_assign.
      destruct (String.eqb_spec key k) as [->|]; [|reflexivity].
      exfalso. apply (Hl (k ++ String "="%char v)); [now left|].
      exists v. now rewrite append_assoc.
    + apply (IH _ H). intros s' Hin. apply Hl. now right.
Qed.

(** What [env_vars] holds for a key the environment binds. *)
Lemma binds_env_vars environment key value env_vars :
  binds environment key value ->
  env_vars_of environment = Ok env_vars ->
  lookup key env_vars = Some (PStr value).
Proof.
  intros [[d [-> Hd]] | [b [a [-> [Hk Ha]]]]] He; cbn [env_vars_of] in He.
  - now injection He as <-.
  - rewrite env_of_list_app in He.
    destruct (env_of_list b []) as [d1|e]; [|discriminate He].
    cbn [env_of_list has split1_of append] in He.
    rewrite contains_app_sep, (@split1_app_sep _ key value Hk) in He.
    cbn [unpack2] in He.
    rewrite (@env_of_list_keeps key a _ env_vars He Ha).
    now rewrite lookup_assign, String.eqb_refl.
Qed.

(** The findings of the environment check around one bound variable. *)
Lemma bound_variable_findings f data before name cfg after environment
    key value :
  get data "services" (PDict [])
  = Ok (PDict (before ++ (name, PDict cfg) :: after)%list) ->
  succeeds (check_environment_variables f data) ->
  get (PDict cfg) "environment" (PDict []) = Ok environment ->
  binds environment key value ->
  exists env_before env_after,
    env_vars_of environment
    = Ok (env_before ++ (PStr key, PStr value) :: env_after)%list
    /\ lookup key env_before = None
    /\ out (check_environment_variables f data)
       = (flat_map (fun item => out (environment_variables_service f item))
            before
          ++ (flat_map (fun entry => out (environment_variable f name entry))
                env_before
              ++ out (environment_variable f name (PStr key, PStr value))
              ++ flat_map
                   (fun entry => out (environment_variable f name entry))
                   env_after)
          ++ flat_map (fun item => out (environment_variables_service f item))
               after)%list.
Proof.
  intros Hg Hs He Hb.
  destruct (@over_services_at data (environment_variables_service f) before
              (name, PDict cfg) after
              (environment_variables_service_appends f) Hg Hs)
    as [Hsvc Ho].
  destruct (@environment_service_returns f name cfg environment He Hsvc)
    as [env_vars [Hv Hout]].
  pose proof (@binds_env_vars environment key value env_vars Hb Hv) as Hl.
  destruct (@lookup_split key env_vars (PStr value) Hl)
    as [eb [ea [-> Hnone]]].
  exists eb, ea. split; [exact Hv|]. split; [exact Hnone|].
  unfold check_environment_variables.
  rewrite Ho, Hout, flat_map_app. reflexivity.
Qed.

Lemma hardcoded_variable_out f name key value :
  ~ Prefix "${" value -> value <> EmptyString ->
  ~ In (lower value) placeholders ->
  out (environment_variable f name (PStr key, PStr value))
  = repeat (secret_management_finding f name (PStr key))
      (matching_patterns key).
Proof.
  intros H1 H2 H3.
  assert (Hh : hardcoded (PStr value) = true)
    by (apply hardcoded_iff; auto).
  unfold out. now rewrite environment_variable_out, Hh.
Qed.

Lemma singleton_split A (x y : A) (l1 l2 : list A) :
  (l1 ++ x :: l2)%list = [y] -> l1 = [] /\ l2 = [].
Proof.
  destruct l1 as [|a l1]; simpl; intros H.
  - injection H as _ ->. split; reflexivity.
  - injection H as _ H. destruct l1; discriminate H.
Qed.

(** C5, as the code has it.  Let the environment check return on a
    document, and take a service of it whose environment, a list of
    [KEY=VALUE] items or a mapping, binds [API_KEY] to a value, among any
    other variables.  The findings of the check are those of the services
    before, those of the variables before, what the variable itself yields,
    those of the variables after and those of the services after.  For the
    value [${SECRET_KEY}] the variable yields nothing; for the value
    [sk_live_abc123] it yields exactly one finding, of severity HIGH and
    category Secret Management.  When the document has that one service and
    the environment that one variable, this is all the check reports. *)
Theorem api_key_reference_and_literal
    (compose_file : string) (data : pyval)
    (before after : list (pyval * pyval))
    (service_name : pyval) (service_config : list (pyval * pyval))
    (environment : pyval) (value : string)
    (Hservices : get data "services" (PDict [])
                 = Ok (PDict (before
                              ++ (service_name, PDict service_config)
                                 :: after)%list))
    (Hreturns : succeeds (check_environment_variables compose_file data))
    (Henvironment : get (PDict service_config) "environment" (PDict [])
                    = Ok environment)
    (Hentry : binds environment "API_KEY" value) :
  let finding :=
    secret_management_finding compose_file service_name (PStr "API_KEY") in
  let of_service := fun item =>
    out (environment_variables_service compose_file item) in
  let of_variable := fun entry =>
    out (environment_variable compose_file service_name entry) in
  let reported := out (check_environment_variables compose_file data) in
  let emitted := of_variable (PStr "API_KEY", PStr value) in
  (exists env_before env_after,
     env_vars_of environment
     = Ok (env_before ++ (PStr "API_KEY", PStr value) :: env_after)%list
     /\ lookup "API_KEY" env_before = None
     /\ reported
        = (flat_map of_service before
           ++ (flat_map of_variable env_before
               ++ emitted
               ++ flat_map of_variable env_after)
           ++ flat_map of_service after)%list)
  /\ (value = "${SECRET_KEY}" -> emitted = [])
  /\ (value = "sk_live_abc123" ->
        emitted = [finding]
        /\ severity finding = HIGH
        /\ category finding = "Secret Management"
        /\ In finding reported)
  /\ (before = [] -> after = [] ->
      environment = PList [PStr ("API_KEY=" ++ value)]
      \/ environment = PDict [(PStr "API_KEY", PStr value)] ->
      reported = emitted).
Proof.
  intros finding of_service of_variable reported emitted.
  destruct (@bound_variable_findings compose_file data before service_name
              service_config after environment "API_KEY" value
              Hservices Hreturns Henvironment Hentry)
    as [eb [ea [Hv [Hnone Ho]]]].
  fold reported in Ho.
  assert (Hlit : value = "sk_live_abc123" -> emitted = [finding]).
  { intros ->. subst emitted of_variable. unfold out.
    now rewrite environment_variable_out. }
  split; [exists eb, ea; repeat split; assumption|].
  split; [|split].
  - intros ->. subst emitted of_variable. unfold out.
    now rewrite environment_variable_out.
  - intros Hval. split; [now apply Hlit|]. split; [reflexivity|].
    split; [reflexivity|].
    rewrite Ho. apply in_or_app. right. apply in_or_app. left.
    apply in_or_app. right. apply in_or_app. left.
    change (In finding emitted). rewrite (Hlit Hval). now left.
  - intros -> -> Henv.
    assert (Hone : env_vars_of environment
                   = Ok [(PStr "API_KEY", PStr value)]).
    { destruct Henv as [->| ->]; reflexivity. }
    rewrite Hv in Hone. injection Hone as Hone.
    destruct (singleton_split _ _ _ Hone) as [-> ->].
    rewrite Ho. cbn [flat_map app]. now rewrite !app_nil_r.
Qed.

Lemma api_key_reference_and_literal_witness :
  In (secret_management_finding "docker-compose.yml" (PStr "api")
        (PStr "API_KEY"))
     (out (check_environment_variables "docker-compose.yml"
             doc_api_key_list)).
Proof.
  assert (Hentry : binds (PList [PStr "LOG_LEVEL=info";
                                 PStr "API_KEY=sk_live_abc123";
                                 PStr "TOKEN_URL=${TOKEN_URL}"])
                     "API_KEY" "sk_live_abc123").
  { right. exists [PStr "LOG_LEVEL=info"], [PStr "TOKEN_URL=${TOKEN_URL}"].
    split; [reflexivity|]. split; [reflexivity|].
    intros s [H|[]]. injection H as <-. intros [b Hb]. discriminate Hb. }
  pose proof (@api_key_reference_and_literal "docker-compose.yml"
                doc_api_key_list
                [(PStr "web",
                  PDict [(PStr "image", PStr "nginx:1.25");
                         (PStr "environment",
                          PDict [(PStr "TZ", PStr "UTC")])])]
                []
                (PStr "api")
                [(PStr "image", PStr "ghcr.io/acme/api:2.1");
                 (PStr "environment",
                  PList [PStr "LOG_LEVEL=info";
                         PStr "API_KEY=sk_live_abc123";
                         PStr "TOKEN_URL=${TOKEN_URL}"])]
                _ "sk_live_abc123" eq_refl eq_refl eq_refl Hentry) as H.
  cbv zeta in H.
  exact (proj2 (proj2 (proj2 (proj1 (proj2 (proj2 H)) eq_refl)))).
Defined.

(** C5 fails as stated: in [doc_api_key_behind_bare_service] the service
    [api] has the entry [API_KEY=sk_live_abc123] and, audited alone, gets
    the HIGH finding and the exit status 1; behind a service declared by
    name only the environment check raises before it reaches [api], the
    audit reports the ERROR finding and no Secret Management finding, and
    the exit status is 0.  And in [doc_api_key_overridden] the environment
    contains the entry, but a later item of the list gives [API_KEY]
    another value, a placeholder: the check returns and reports nothing. *)
Lemma api_key_literal_behind_failing_service :
  let f := "docker-compose.yml" in
  let e := AttributeError "'NoneType' object has no attribute 'get'" in
  let finding := secret_management_finding f (PStr "api") (PStr "API_KEY") in
  out (check_environment_variables f doc_api_key_alone) = [finding]
  /\ main [(f, Ok doc_api_key_alone)] = 1%Z
  /\ res (check_environment_variables f doc_api_key_behind_bare_service)
     = Raise e
  /\ out (check_environment_variables f doc_api_key_behind_bare_service) = []
  /\ out (audit_compose_file f (Ok doc_api_key_behind_bare_service))
     = [processing_error f e]
  /\ ~ In finding
         (out (audit_compose_file f (Ok doc_api_key_behind_bare_service)))
  /\ main [(f, Ok doc_api_key_behind_bare_service)] = 0%Z
  /\ succeeds (check_environment_variables f doc_api_key_overridden)
  /\ out (check_environment_variables f doc_api_key_overridden) = [].
Proof.
  cbv zeta. repeat match goal with |- _ /\ _ => split end;
    try reflexivity.
  vm_compute. intros [H|[]]. discriminate H.
Qed.

(** C10, as the code has it.  Let the environment check return on a
    document, and take a service of it whose environment, a list of
    [KEY=VALUE] items or a mapping, binds a key to a string that does not
    start with the substitution marker, is not empty and is not one of the
    placeholders.  Between the findings of the services and variables
    before and after, the check reports for that variable as many identical
    HIGH Secret Management findings as there are secret-indicating
    substrings in the lower-cased key: at least two for a key that contains
    both [auth] and [token], exactly two for the key [AUTH_TOKEN]. *)
Theorem one_finding_per_matching_pattern
    (compose_file : string) (data : pyval)
    (before after : list (pyval * pyval))
    (service_name : pyval) (service_config : list (pyval * pyval))
    (environment : pyval) (key value : string)
    (Hservices : get data "services" (PDict [])
                 = Ok (PDict (before
                              ++ (service_name, PDict service_config)
                                 :: after)%list))
    (Hreturns : succeeds (check_environment_variables compose_file data))
    (Henvironment : get (PDict service_config) "environment" (PDict [])
                    = Ok environment)
    (Hentry : binds environment key value)
    (Hsubst : ~ Prefix "${" value)
    (Hempty : value <> EmptyString)
    (Hplace : ~ In (lower value) placeholders) :
  let finding :=
    secret_management_finding compose_file service_name (PStr key) in
  let of_service := fun item =>
    out (environment_variables_service compose_file item) in
  let of_variable := fun entry =>
    out (environment_variable compose_file service_name entry) in
  let reported := out (check_environment_variables compose_file data) in
  (exists env_before env_after,
     env_vars_of environment
     = Ok (env_before ++ (PStr key, PStr value) :: env_after)%list
     /\ lookup key env_before = None
     /\ reported
        = (flat_map of_service before
           ++ (flat_map of_variable env_before
               ++ repeat finding (matching_patterns key)
               ++ flat_map of_variable env_after)
           ++ flat_map of_service after)%list)
  /\ severity finding = HIGH
  /\ category finding = "Secret Management"
  /\ (Substring "auth" (lower key) -> Substring "token" (lower key) ->
      2 <= matching_patterns key)
  /\ (key = "AUTH_TOKEN" -> matching_patterns key = 2)
  /\ (before = [] -> after = [] ->
      environment = PList [PStr (key ++ "=" ++ value)]
      \/ environment = PDict [(PStr key, PStr value)] ->
      reported = repeat finding (matching_patterns key)).
Proof.
  intros finding of_service of_variable reported.
  destruct (@bound_variable_findings compose_file data before service_name
              service_config after environment key value
              Hservices Hreturns Henvironment Hentry)
    as [eb [ea [Hv [Hnone Ho]]]].
  fold reported in Ho.
  rewrite (@hardcoded_variable_out compose_file service_name key value
             Hsubst Hempty Hplace) in Ho.
  fold finding in Ho.
  split; [exists eb, ea; repeat split; assumption|].
  split; [reflexivity|]. split; [reflexivity|].
  split; [|split].
  - intros Hauth Htoken. apply contains_Substring in Hauth, Htoken.
    unfold matching_patterns, secret_patterns. cbn [filter].
    rewrite Hauth, Htoken.
    repeat match goal with
           | |- context [if contains ?p (lower key) then _ else _] =>
               destruct (contains p (lower key))
           end; simpl; lia.
  - now intros ->.
  - intros -> -> Henv.
    pose proof (@binds_env_vars environment key value _ Hentry Hv) as Hl.
    assert (Hlen : List.length (eb ++ (PStr key, PStr value) :: ea) = 1).
    { destruct Henv as [->| ->].
      - destruct Hentry as [[d [Hd _]] | [b [a [Hb [Hk _]]]]];
          [discriminate Hd|].
        cbn [env_vars_of env_of_list has split1_of append] in Hv.
        rewrite contains_app_sep, (@split1_app_sep _ key value Hk) in Hv.
        cbn [unpack2 assign] in Hv. injection Hv as <-. reflexivity.
      - cbn [env_vars_of] in Hv. injection Hv as <-. reflexivity. }
    rewrite length_app in Hlen. cbn [List.length] in Hlen.
    destruct eb; [|cbn [List.length] in Hlen; lia].
    destruct ea; [|cbn [List.length] in Hlen; lia].
    rewrite Ho. cbn [flat_map app]. now rewrite !app_nil_r.
Qed.

Lemma one_finding_per_matching_pattern_witness :
  let finding :=
    secret_management_finding "docker-compose.yml" (PStr "api")
      (PStr "AUTH_TOKEN") in
  exists before after,
    out (check_environment_variables "docker-compose.yml"
           doc_auth_token_list)
    = (before ++ [finding; finding] ++ after)%list.
Proof.
  assert (Hentry : binds (PList [PStr "AUTH_TOKEN=s3cr3t"; PStr "MODE=prod"])
                     "AUTH_TOKEN" "s3cr3t").
  { right. exists [], [PStr "MODE=prod"].
    split; [reflexivity|]. split; [reflexivity|].
    intros s [H|[]]. injection H as <-. intros [b Hb]. discriminate Hb. }
  assert (Hsubst : ~ Prefix "${" "s3cr3t").
  { intros [b Hb]. discriminate Hb. }
  assert (Hempty : "s3cr3t" <> EmptyString) by discriminate.
  assert (Hplace : ~ In (lower "s3cr3t") placeholders).
  { simpl. intros H. repeat (destruct H as [H|H]; [discriminate H|]).
    exact H. }
  pose proof (@one_finding_per_matching_pattern "docker-compose.yml"
                doc_auth_token_list
                [(PStr "proxy", PDict [(PStr "image", PStr "traefik:3.0")])]
                []
                (PStr "api")
                [(PStr "image", PStr "ghcr.io/acme/api:2.1");
                 (PStr "environment",
                  PList [PStr "AUTH_TOKEN=s3cr3t"; PStr "MODE=prod"])]
                _ "AUTH_TOKEN" "s3cr3t" eq_refl eq_refl eq_refl
                Hentry Hsubst Hempty Hplace) as H.
  cbv zeta in H. cbv zeta.
  destruct H as [[eb [ea [_ [_ Ho]]]] _].
  change (matching_patterns "AUTH_TOKEN") with 2 in Ho.
  cbn [repeat] in Ho.
  match type of Ho with
  | _ = (?a ++ (?b ++ _ ++ ?c) ++ ?d)%list =>
      exists (a ++ b)%list, (c ++ d)%list
  end.
  rewrite Ho, <- !app_assoc. reflexivity.
Defined.

(** C10 fails as stated: in [doc_auth_token_behind_numeric_item] the
    service [api] has the variable [AUTH_TOKEN] with a literal value, but
    the service before it has a number as an item of its environment list;
    the check raises on that item before it reaches [api] and reports
    nothing for the variable, and the audit of the file holds no Secret
    Management finding. *)
Lemma auth_token_behind_failing_service :
  let f := "docker-compose.yml" in
  let e := TypeError "argument of type 'int' is not iterable" in
  let finding :=
    secret_management_finding f (PStr "api") (PStr "AUTH_TOKEN") in
  res (check_environment_variables f doc_auth_token_behind_numeric_item)
  = Raise e
  /\ out (check_environment_variables f doc_auth_token_behind_numeric_item)
     = []
  /\ filter is_error
       (out (audit_compose_file f (Ok doc_auth_token_behind_numeric_item)))
     = [processing_error f e]
  /\ ~ In finding
         (out (audit_compose_file f
                 (Ok doc_auth_token_behind_numeric_item)))
  /\ main [(f, Ok doc_auth_token_behind_numeric_item)] = 0%Z.
Proof.
  cbv zeta. repeat match goal with |- _ /\ _ => split end;
    try reflexivity.
  vm_compute. intros H.
  repeat (destruct H as [H|H]; [discriminate H|]). exact H.
Qed.

(** ** The image check *)

Lemma image_security_service_appends f item :
  appends (image_security_service f item).
Proof.
  assert (H : tidy (image_security_service f item)).
  { unfold image_security_service. frame. }
  exact (proj1 H).
Qed.

(** The findings of the image check around one service. *)
Lemma image_check_at f data before name cfg after :
  get data "services" (PDict [])
  = Ok (PDict (before ++ (name, PDict cfg) :: after)%list) ->
  succeeds (check_image_security f data) ->
  out (check_image_security f data)
  = (flat_map (fun item => out (image_security_service f item)) before
     ++ out (image_security_service f (name, PDict cfg))
     ++ flat_map (fun item => out (image_security_service f item)) after)%list.
Proof.
  intros Hg Hs.
  apply (@over_services_at data (image_security_service f) before
           (name, PDict cfg) after (image_security_service_appends f) Hg Hs).
Qed.

(** C6, as the code has it.  Let the image check return on a document, and
    take a service of it with a string image (an absent image counts as the
    empty string).  The findings of the check are those of the services
    before, those of the service, and those of the services after.  When
    the image string ends with [:latest] or has no [:], the check reports
    the LOW Image Security unpinned-tag finding for the service, and it is
    the only LOW finding of the service; the service gets that finding only
    for an image whose tag is latest or absent; and for the image [nginx]
    it gets exactly that one finding. *)
Theorem unpinned_tag_finding
    (compose_file : string) (data : pyval)
    (before after : list (pyval * pyval))
    (service_name : pyval) (service_config : list (pyval * pyval))
    (image : string)
    (Hservices : get data "services" (PDict [])
                 = Ok (PDict (before
                              ++ (service_name, PDict service_config)
                                 :: after)%list))
    (Hreturns : succeeds (check_image_security compose_file data))
    (Himage : get (PDict service_config) "image" (PStr EmptyString)
              = Ok (PStr image)) :
  let of_service := fun item =>
    out (image_security_service compose_file item) in
  let reported := out (check_image_security compose_file data) in
  let emitted := of_service (service_name, PDict service_config) in
  reported
  = (flat_map of_service before ++ emitted ++ flat_map of_service after)%list
  /\ ((Suffix ":latest" image \/ ~ Substring ":" image) ->
        In (unpinned_finding compose_file service_name) reported
        /\ In (unpinned_finding compose_file service_name) emitted
        /\ filter is_low emitted
           = [unpinned_finding compose_file service_name])
  /\ (In (unpinned_finding compose_file service_name) emitted ->
        spec_image_tag image = None \/ spec_image_tag image = Some "latest")
  /\ (image = "nginx" ->
        emitted = [unpinned_finding compose_file service_name]).
Proof.
  intros of_service reported emitted.
  pose proof (@image_check_at compose_file data before service_name
                service_config after Hservices Hreturns) as Ho.
  fold reported in Ho.
  assert (He : emitted
               = ((if unpinned_str image
                   then [unpinned_finding compose_file service_name]
                   else [])
                  ++ (if untrusted_str image
                      then [untrusted_finding compose_file service_name]
                      else []))%list).
  { subst emitted of_service. unfold out.
    now rewrite (image_security_service_out compose_file service_name Himage). }
  split; [exact Ho|].
  assert (Hyes : (Suffix ":latest" image \/ ~ Substring ":" image) ->
                 In (unpinned_finding compose_file service_name) emitted).
  { intros H. apply unpinned_str_iff in H. rewrite He, H. now left. }
  split; [|split].
  - intros H. split; [|split].
    + rewrite Ho. apply in_or_app. right. apply in_or_app. left.
      now apply Hyes.
    + now apply Hyes.
    + apply unpinned_str_iff in H. rewrite He, H.
      destruct (untrusted_str image); reflexivity.
  - rewrite He. intros Hin. apply unpinned_str_tag.
    destruct (unpinned_str image); [reflexivity|].
    destruct (untrusted_str image); simpl in Hin.
    + destruct Hin as [Hin|[]]. discriminate Hin.
    + destruct Hin.
  - intros ->. rewrite He. reflexivity.
Qed.

Lemma unpinned_tag_finding_witness :
  In (unpinned_finding "docker-compose.yml" (PStr "web"))
     (out (check_image_security "docker-compose.yml" doc_untagged_image)).
Proof.
  refine (proj1 (proj1 (proj2
    (@unpinned_tag_finding "docker-compose.yml" doc_untagged_image
       [(PStr "db", PDict [(PStr "image", PStr "postgres:16")])] []
       (PStr "web") [(PStr "image", PStr "nginx")] "nginx"
       eq_refl eq_refl eq_refl)) _)).
  right. intros Hs. apply contains_Substring in Hs. discriminate Hs.
Defined.

(** C6 fails as stated.  In [doc_untagged_behind_null_image] the service
    [web] has the untagged image [nginx], but the image check raises on the
    null image of the service before it and reports nothing, and the audit
    of the file holds no unpinned-tag finding.  And [localhost:5000/nginx]
    has no tag, yet the check, which returns, emits no LOW finding for
    it. *)
Lemma untagged_image_not_reported :
  let f := "docker-compose.yml" in
  let e := AttributeError "'NoneType' object has no attribute 'endswith'" in
  let emitted :=
    out (image_security_service f
           (PStr "web", PDict [(PStr "image", PStr "localhost:5000/nginx")])) in
  (spec_image_tag "nginx" = None
   /\ res (check_image_security f doc_untagged_behind_null_image) = Raise e
   /\ out (check_image_security f doc_untagged_behind_null_image) = []
   /\ ~ In (unpinned_finding f (PStr "web"))
           (out (audit_compose_file f (Ok doc_untagged_behind_null_image))))
  /\ (spec_image_tag "localhost:5000/nginx" = None
      /\ ~ In (unpinned_finding f (PStr "web")) emitted
      /\ filter is_low emitted = []
      /\ succeeds (check_image_security f doc_registry_port)
      /\ filter is_low (out (check_image_security f doc_registry_port)) = []
      /\ ~ In (unpinned_finding f (PStr "web"))
              (out (audit_compose_file f (Ok doc_registry_port)))).
Proof.
  cbv zeta. repeat match goal with |- _ /\ _ => split end;
    try reflexivity;
    vm_compute; intros H;
    repeat (destruct H as [H|H]; [discriminate H|]); exact H.
Qed.

(** C7, as the code has it.  Let the image check return on a document, and
    take a service of it with a string image.  The findings of the check
    are those of the services before, those of the service, and those of
    the services after.  When the image string contains [/] and none of the
    six allow-listed registry names occurs in it, the check reports the
    MEDIUM Image Security untrusted-registry finding for the service, and
    it is the only MEDIUM finding of the service; and the service gets that
    finding only for an image with a [/] whose text before the first [/] is
    outside the allowlist. *)
Theorem untrusted_registry_finding
    (compose_file : string) (data : pyval)
    (before after : list (pyval * pyval))
    (service_name : pyval) (service_config : list (pyval * pyval))
    (image : string)
    (Hservices : get data "services" (PDict [])
                 = Ok (PDict (before
                              ++ (service_name, PDict service_config)
                                 :: after)%list))
    (Hreturns : succeeds (check_image_security compose_file data))
    (Himage : get (PDict service_config) "image" (PStr EmptyString)
              = Ok (PStr image)) :
  let of_service := fun item =>
    out (image_security_service compose_file item) in
  let reported := out (check_image_security compose_file data) in
  let emitted := of_service (service_name, PDict service_config) in
  reported
  = (flat_map of_service before ++ emitted ++ flat_map of_service after)%list
  /\ (Substring "/" image ->
      (forall reg, In reg trusted_registries -> ~ Substring reg image) ->
        In (untrusted_finding compose_file service_name) reported
        /\ In (untrusted_finding compose_file service_name) emitted
        /\ filter is_medium emitted
           = [untrusted_finding compose_file service_name])
  /\ (In (untrusted_finding compose_file service_name) emitted ->
        exists r, spec_image_registry image = Some r
                  /\ ~ In r trusted_registries).
Proof.
  intros of_service reported emitted.
  pose proof (@image_check_at compose_file data before service_name
                service_config after Hservices Hreturns) as Ho.
  fold reported in Ho.
  assert (He : emitted
               = ((if unpinned_str image
                   then [unpinned_finding compose_file service_name]
                   else [])
                  ++ (if untrusted_str image
                      then [untrusted_finding compose_file service_name]
                      else []))%list).
  { subst emitted of_service. unfold out.
    now rewrite (image_security_service_out compose_file service_name Himage). }
  split; [exact Ho|].
  split.
  - intros Hs Hn.
    assert (Hu : untrusted_str image = true)
      by (apply untrusted_str_iff; now split).
    assert (Hin : In (untrusted_finding compose_file service_name) emitted).
    { rewrite He, Hu. apply in_or_app. right. now left. }
    split; [|split].
    + rewrite Ho. apply in_or_app. right. apply in_or_app. now left.
    + exact Hin.
    + rewrite He, Hu. destruct (unpinned_str image); reflexivity.
  - rewrite He. intros Hin. apply untrusted_str_registry.
    destruct (untrusted_str image); [reflexivity|].
    destruct (unpinned_str image); simpl in Hin.
    + destruct Hin as [Hin|[]]. discriminate Hin.
    + destruct Hin.
Qed.

Lemma untrusted_registry_finding_witness :
  In (untrusted_finding "docker-compose.yml" (PStr "app"))
     (out (check_image_security "docker-compose.yml" doc_foreign_registry)).
Proof.
  refine (proj1 (proj1 (proj2
    (@untrusted_registry_finding "docker-compose.yml" doc_foreign_registry
       [(PStr "db", PDict [(PStr "image", PStr "postgres:16")])] []
       (PStr "app") [(PStr "image", PStr "registry.example.org/app:1.0")]
       "registry.example.org/app:1.0" eq_refl eq_refl eq_refl)) _ _)).
  - exists "registry.example.org", "app:1.0". reflexivity.
  - intros reg Hin Hs. apply contains_Substring in Hs. simpl in Hin.
    repeat (destruct Hin as [<-|Hin]; [vm_compute in Hs; discriminate Hs|]).
    exact Hin.
Defined.

(** C7 fails as stated.  In [doc_foreign_behind_null_image] the service
    [app] has an image of the registry [registry.example.org], which is not
    in the allowlist, but the image check raises on the null image of the
    service before it and reports nothing, and the audit of the file holds
    no untrusted-registry finding.  And the registry of [myquay.io/app:1.0]
    is [myquay.io], which is not in the allowlist either, yet the check,
    which returns, emits no finding for it: the allow-listed name [quay.io]
    occurs inside the image string. *)
Lemma untrusted_registry_not_reported :
  let f := "docker-compose.yml" in
  let e := AttributeError "'NoneType' object has no attribute 'endswith'" in
  let emitted :=
    out (image_security_service f
           (PStr "web", PDict [(PStr "image", PStr "myquay.io/app:1.0")])) in
  (spec_image_registry "registry.example.org/app:1.0"
   = Some "registry.example.org"
   /\ ~ In "registry.example.org" trusted_registries
   /\ res (check_image_security f doc_foreign_behind_null_image) = Raise e
   /\ out (check_image_security f doc_foreign_behind_null_image) = []
   /\ ~ In (untrusted_finding f (PStr "app"))
           (out (audit_compose_file f (Ok doc_foreign_behind_null_image))))
  /\ (spec_image_registry "myquay.io/app:1.0" = Some "myquay.io"
      /\ ~ In "myquay.io" trusted_registries
      /\ emitted = []
      /\ succeeds (check_image_security f doc_trusted_substring)
      /\ out (check_image_security f doc_trusted_substring) = []
      /\ ~ In (untrusted_finding f (PStr "web"))
              (out (audit_compose_file f (Ok doc_trusted_substring)))).
Proof.
  cbv zeta. repeat match goal with |- _ /\ _ => split end;
    try reflexivity;
    vm_compute; intros H;
    repeat (destruct H as [H|H]; [discriminate H|]); exact H.
Qed.

(** ** The user check *)

(** X13.  On a document whose services all have a mapping as body the user
    check returns, whatever the values are, and its findings are those of
    the services in order, at most one per service: exactly the MEDIUM
    finding when [user] is the string [root] or [0], exactly the LOW finding
    when [user] is absent or null, and nothing for every other value, a
    numeric [user: 0] included. *)
Theorem user_check_on_mapping_services
    (compose_file : string) (data : pyval) (services : list (pyval * pyval))
    (Hservices : get data "services" (PDict []) = Ok (PDict services))
    (Hbodies : Forall (fun item => exists cfg, snd item = PDict cfg) services) :
  let of_service := fun item =>
    out (user_configuration_service compose_file item) in
  let reported := out (check_user_configuration compose_file data) in
  succeeds (check_user_configuration compose_file data)
  /\ reported = flat_map of_service services
  /\ List.length reported <= List.length services
  /\ forall name cfg, In (name, PDict cfg) services ->
       List.length (of_service (name, PDict cfg)) <= 1
       /\ ((lookup "user" cfg = Some (PStr "root")
            \/ lookup "user" cfg = Some (PStr "0")) ->
           of_service (name, PDict cfg)
           = [runs_as_root_finding compose_file name]
           /\ In (runs_as_root_finding compose_file name) reported)
       /\ ((lookup "user" cfg = None \/ lookup "user" cfg = Some PNone) ->
           of_service (name, PDict cfg) = [no_user_finding compose_file name]
           /\ In (no_user_finding compose_file name) reported)
       /\ (forall user, lookup "user" cfg = Some user ->
           user <> PStr "root" -> user <> PStr "0" -> user <> PNone ->
           of_service (name, PDict cfg) = []).
Proof.
  intros of_service reported.
  assert (Hall : Forall (fun item =>
                   succeeds (user_configuration_service compose_file item))
                   services).
  { apply Forall_forall. intros [n c] Hin. rewrite Forall_forall in Hbodies.
    destruct (Hbodies _ Hin) as [cfg Hc]. simpl in Hc. subst c.
    unfold succeeds, res. now rewrite user_configuration_service_out. }
  destruct (@for_each_succeeds _ services
              (user_configuration_service compose_file)
              (user_configuration_service_appends compose_file) Hall)
    as [Hs Ho].
  assert (Hrun := @over_services_run data
                    (user_configuration_service compose_file) services
                    (user_configuration_service_appends compose_file)
                    Hservices).
  assert (Hout : reported = flat_map of_service services).
  { subst reported of_service. unfold check_user_configuration, out at 1.
    rewrite Hrun. exact Ho. }
  assert (Hone : forall name cfg,
            of_service (name, PDict cfg)
            = match lookup "user" cfg with
              | Some (PStr u) =>
                  if String.eqb u "root" || String.eqb u "0"
                  then [runs_as_root_finding compose_file name] else []
              | Some PNone | None => [no_user_finding compose_file name]
              | Some _ => []
              end).
  { intros name cfg. subst of_service. unfold out.
    now rewrite user_configuration_service_out. }
  assert (Hlen : forall item, In item services ->
            List.length (of_service item) <= 1).
  { intros [n c] Hin. rewrite Forall_forall in Hbodies.
    destruct (Hbodies _ Hin) as [cfg Hc]. simpl in Hc. subst c.
    rewrite Hone.
    destruct (lookup "user" cfg) as [[| b | z | u | l' | d]|]; simpl; try lia.
    destruct (String.eqb u "root" || String.eqb u "0"); simpl; lia. }
  split.
  { unfold succeeds, res, check_user_configuration. rewrite Hrun. exact Hs. }
  split; [exact Hout|]. split.
  { rewrite Hout. clear -Hlen.
    induction services as [|item l IH]; cbn [flat_map List.length]; [lia|].
    rewrite length_app.
    pose proof (Hlen item (or_introl eq_refl)).
    assert (List.length (flat_map of_service l) <= List.length l).
    { apply IH. intros i Hi. apply Hlen. now right. }
    lia. }
  intros name cfg Hin.
  assert (Hsub : forall x, In x (of_service (name, PDict cfg)) ->
                           In x reported).
  { intros x Hx. rewrite Hout. apply in_flat_map.
    now exists (name, PDict cfg). }
  split; [now apply Hlen|]. split; [|split].
  - intros H.
    assert (He : of_service (name, PDict cfg)
                 = [runs_as_root_finding compose_file name]).
    { rewrite Hone. destruct H as [-> | ->]; reflexivity. }
    split; [exact He|]. apply Hsub. rewrite He. now left.
  - intros H.
    assert (He : of_service (name, PDict cfg)
                 = [no_user_finding compose_file name]).
    { rewrite Hone. destruct H as [-> | ->]; reflexivity. }
    split; [exact He|]. apply Hsub. rewrite He. now left.
  - intros user Hu Hroot Hzero Hnone. rewrite Hone, Hu.
    destruct user as [| b | z | u | l' | d]; try reflexivity;
      [congruence|].
    destruct (String.eqb_spec u "root") as [->|_]; [congruence|].
    destruct (String.eqb_spec u "0") as [->|_]; [congruence|].
    reflexivity.
Qed.

Lemma user_check_on_mapping_services_witness :
  out (check_user_configuration "docker-compose.yml" doc_users)
  = [runs_as_root_finding "docker-compose.yml" (PStr "web");
     no_user_finding "docker-compose.yml" (PStr "db")].
Proof.
  pose proof (@user_check_on_mapping_services "docker-compose.yml" doc_users
                _ eq_refl) as H.
  cbv zeta in H.
  refine (let H' := H _ in eq_trans (proj1 (proj2 H')) eq_refl).
  repeat constructor; eexists; reflexivity.
Defined.
